(** * Lume: verification of the core helpers, the file reader and the build cycle

    Shallow embedding of
    - [utils.js]: [searchByExtension], [merge], [concurrent];
    - the [Reader] class (cached reads, remote files, [getInfo]);
    - [core/site.ts]: [Site.build], [Site.update] and [Site.#buildPages].

    JavaScript objects live in an explicit heap, so that aliasing and
    mutation are visible; promises are modelled by their identity and their
    eventual outcome; the asynchronous helper [concurrent] is a transition
    system over the event loop's observable steps. *)

From Stdlib Require Import String Ascii List ZArith Lia Bool Sorted.
From stdpp Require Import base tactics option list gmap strings pretty sorting.

Import ListNotations.
Local Open Scope string_scope.
Local Open Scope list_scope.

(** ** Strings *)

Module Str.

(** [String.prototype.endsWith(searchString)]: with [start = len - searchLen],
    false when [start < 0], otherwise the code units from [start] on are
    compared with [searchString]. *)
Definition endsWith (s search : string) : bool :=
  let len := String.length s in
  let searchLength := String.length search in
  if Nat.leb searchLength len
  then String.eqb (substring (len - searchLength) searchLength s) search
  else false.

Lemma substring_all (b : string) : substring 0 (String.length b) b = b.
Proof. induction b as [|c b IH]; simpl; [done|]. by rewrite IH. Qed.

Lemma substring_app_r (a b : string) :
  substring (String.length a) (String.length b) (a +:+ b) = b.
Proof.
  induction a as [|c a IH]; cbn.
  - apply substring_all.
  - exact IH.
Qed.

Lemma length_app (a b : string) :
  String.length (a +:+ b) = String.length a + String.length b.
Proof. induction a as [|c a IH]; simpl; [done|]. by rewrite IH. Qed.

Lemma substring_split (n : nat) (s : string) :
  n <= String.length s ->
  exists a, s = a +:+ substring n (String.length s - n) s /\ String.length a = n.
Proof.
  revert s. induction n as [|n IH]; intros s Hn.
  - exists "". split; [|done]. cbn. by rewrite Nat.sub_0_r, substring_all.
  - destruct s as [|c s]; simpl in *; [lia|].
    destruct (IH s) as (a & Ha & Hl); [lia|].
    exists (String c a). split; [|cbn; by rewrite Hl].
    change (String c s = String c (a +:+ substring n (String.length s - n) s)).
    by rewrite <- Ha.
Qed.

(** [endsWith] decides "[search] is a suffix of [s]". *)
Lemma endsWith_spec (s search : string) :
  endsWith s search = true <-> exists pre, s = pre +:+ search.
Proof.
  unfold endsWith. split.
  - destruct (Nat.leb_spec (String.length search) (String.length s)) as [Hle|]; [|done].
    intros Heq. apply String.eqb_eq in Heq.
    destruct (substring_split (String.length s - String.length search) s) as (a & Ha & Hl); [lia|].
    exists a.
    replace (String.length s - (String.length s - String.length search))
      with (String.length search) in Ha by lia.
    by rewrite Heq in Ha.
  - intros [pre ->]. rewrite length_app.
    destruct (Nat.leb_spec (String.length search) (String.length pre + String.length search)); [|lia].
    replace (String.length pre + String.length search - String.length search)
      with (String.length pre) by lia.
    rewrite substring_app_r. apply String.eqb_refl.
Qed.

End Str.

(** ** [utils.js]: [searchByExtension] *)

Module Search.

Section Search.
Context {V : Type}.

(** [extensions] is a [Map]; iterating it visits the entries in insertion
    order, which the association list keeps.
<<
  for (const [key, value] of extensions) {
    if (path.endsWith(key)) { return [key, value]; }
  }
>>
    Falling off the loop returns [undefined], here [None]. *)
Fixpoint searchByExtension (path : string) (extensions : list (string * V))
  : option (string * V) :=
  match extensions with
  | [] => None
  | (key, value) :: rest =>
      if Str.endsWith path key then Some (key, value)
      else searchByExtension path rest
  end.

(** The row the specification asks for: a registered row whose extension is
    a suffix of the path and at least as long as every other registered
    extension that is a suffix of the path; no row when no registered
    extension is a suffix. *)
Definition longest_suffix_row (path : string) (extensions : list (string * V))
  (r : option (string * V)) : Prop :=
  match r with
  | Some (key, value) =>
      In (key, value) extensions /\ Str.endsWith path key = true /\
      forall key' value', In (key', value') extensions ->
        Str.endsWith path key' = true -> String.length key' <= String.length key
  | None =>
      forall key' value', In (key', value') extensions -> Str.endsWith path key' = false
  end.

(** What the loop computes: the first row, in iteration order, whose key is
    a suffix of the path. *)
Definition first_suffix_row (path : string) (extensions : list (string * V))
  (r : option (string * V)) : Prop :=
  match r with
  | Some (key, value) =>
      exists before after,
        extensions = before ++ (key, value) :: after /\
        Str.endsWith path key = true /\
        forall key' value', In (key', value') before -> Str.endsWith path key' = false
  | None =>
      forall key' value', In (key', value') extensions -> Str.endsWith path key' = false
  end.

End Search.

Definition exts_js : list (string * nat) := [(".js", 1); (".test.js", 2)].

(** C7, as stated, fails: with [".js"] registered before [".test.js"], the
    path ["a.test.js"] is answered with the [".js"] row although the longer
    registered extension [".test.js"] is a suffix of it too. *)
Lemma searchByExtension_not_longest :
  searchByExtension "a.test.js" exts_js = Some (".js", 1) /\
  ~ longest_suffix_row "a.test.js" exts_js (searchByExtension "a.test.js" exts_js).
Proof.
  split; [reflexivity|].
  intros (_ & _ & Hmax).
  specialize (Hmax ".test.js" 2 (or_intror (or_introl eq_refl)) eq_refl).
  simpl in Hmax. lia.
Qed.

(** C7, amended: for every path and every table of extensions,
    [searchByExtension] returns the first row in iteration (registration)
    order whose extension is a suffix of the path, and [undefined] exactly
    when no registered extension is a suffix of the path. *)
Theorem searchByExtension_first_match {V : Type} (path : string)
    (extensions : list (string * V)) :
  first_suffix_row path extensions (searchByExtension path extensions) /\
  (searchByExtension path extensions = None <->
   forall key value, In (key, value) extensions ->
     ~ exists pre, path = pre +:+ key).
Proof.
  assert (Hfirst : first_suffix_row path extensions (searchByExtension path extensions)).
  { induction extensions as [|[key value] rest IH]; simpl.
    - intros ? ? [].
    - destruct (Str.endsWith path key) eqn:Hk.
      + exists [], rest. repeat split; [done|]. intros ? ? [].
      + destruct (searchByExtension path rest) as [[k v]|] eqn:Hs; simpl in *.
        * destruct IH as (before & after & -> & Hend & Hbefore).
          exists ((key, value) :: before), after. repeat split; [done|].
          intros k' v' [[= <- <-]|Hin]; [done|]. eauto.
        * intros k' v' [[= <- <-]|Hin]; [done|]. eauto. }
  split; [exact Hfirst|]. split.
  - intros Hnone key value Hin Hsuf. rewrite Hnone in Hfirst. simpl in Hfirst.
    apply Str.endsWith_spec in Hsuf. rewrite (Hfirst _ _ Hin) in Hsuf. done.
  - intros Hno. destruct (searchByExtension path extensions) as [[k v]|]; [|done].
    destruct Hfirst as (before & after & -> & Hend & _).
    exfalso. apply (Hno k v); [apply in_app_iff; right; by left|].
    by apply Str.endsWith_spec.
Qed.

(** *** Further properties of [searchByExtension] *)

(** The table lists longer extensions first. *)
Definition longest_first {V : Type} (extensions : list (string * V)) : Prop :=
  StronglySorted (fun a b => String.length b.1 <= String.length a.1) extensions.

(** X1: when the table lists its extensions from the longest to the
    shortest, the row [searchByExtension] returns is a longest-suffix row:
    no registered extension that is a suffix of the path is longer than the
    one returned. *)
Theorem searchByExtension_longest_first {V : Type} (path : string)
    (extensions : list (string * V)) :
  longest_first extensions ->
  longest_suffix_row path extensions (searchByExtension path extensions).
Proof.
  induction extensions as [|[key value] rest IH]; intros Hsorted; simpl.
  - intros ? ? [].
  - apply StronglySorted_inv in Hsorted as [Hrest Hhead].
    destruct (Str.endsWith path key) eqn:Hk; simpl.
    + split; [by left|]. split; [done|].
      intros key' value' [[= <- <-]|Hin] _; [done|].
      rewrite Forall_forall in Hhead.
      apply (Hhead (key', value')). by apply list_elem_of_In.
    + specialize (IH Hrest).
      destruct (searchByExtension path rest) as [[k v]|]; simpl in *.
      * destruct IH as (Hin & Hend & Hmax). split; [by right|]. split; [done|].
        intros key' value' [[= <- <-]|Hin'] Hend'; [congruence|]. eauto.
      * intros key' value' [[= <- <-]|Hin']; [done|]. eauto.
Qed.

Lemma searchByExtension_longest_first_witness :
  longest_first [(".test.js", 2); (".js", 1)] /\
  searchByExtension "a.test.js" [(".test.js", 2); (".js", 1)] = Some (".test.js", 2) /\
  longest_suffix_row "a.test.js" [(".test.js", 2); (".js", 1)]
    (searchByExtension "a.test.js" [(".test.js", 2); (".js", 1)]).
Proof.
  assert (longest_first [(".test.js", 2); (".js", 1)]) as Hsorted.
  { unfold longest_first. repeat constructor. }
  split; [exact Hsorted|]. split; [reflexivity|].
  exact (searchByExtension_longest_first "a.test.js" _ Hsorted).
Defined.

(** X2: extensions registered later never take a match away from earlier
    ones: the search in a table followed by another is the search in the
    first, and the search in the second only when the first has no
    match. *)
Theorem searchByExtension_app {V : Type} (path : string)
    (earlier later : list (string * V)) :
  searchByExtension path (earlier ++ later) =
  match searchByExtension path earlier with
  | Some row => Some row
  | None => searchByExtension path later
  end.
Proof.
  induction earlier as [|[key value] rest IH]; simpl; [done|].
  by destruct (Str.endsWith path key).
Qed.

End Search.

(** ** [utils.js]: [normalizePath] *)

Module Normalize.

(** [s.replaceAll(c, d)] for one-character [c] and [d]. *)
Fixpoint replaceAll (c d : ascii) (s : string) : string :=
  match s with
  | EmptyString => EmptyString
  | String x rest => String (if Ascii.eqb x c then d else x) (replaceAll c d rest)
  end.

Section Normalize.

(** [SEP], imported from the path library: the one-character separator of
    the platform, ["/"] or a backslash. *)
Variable SEP : ascii.

(**
<<
  if (SEP !== "/") { return path.replaceAll(SEP, "/"); }
  return path;
>> *)
Definition normalizePath (path : string) : string :=
  if Ascii.eqb SEP "/" then path else replaceAll SEP "/" path.

Lemma replaceAll_absent (c d : ascii) (s : string) :
  ~ In c (list_ascii_of_string s) -> replaceAll c d s = s.
Proof.
  induction s as [|x rest IH]; simpl; [done|]. intros Hc.
  destruct (Ascii.eqb_spec x c) as [->|Hne]; [by destruct Hc; left|].
  rewrite IH; [done|]. intros Hin. apply Hc. by right.
Qed.

Lemma replaceAll_gone (c d : ascii) (s : string) :
  c <> d -> ~ In c (list_ascii_of_string (replaceAll c d s)).
Proof.
  intros Hcd. induction s as [|x rest IH]; simpl; [by intros []|].
  intros [Hx|Hin]; [|done].
  destruct (Ascii.eqb_spec x c) as [->|Hne]; congruence.
Qed.

Lemma replaceAll_length (c d : ascii) (s : string) :
  String.length (replaceAll c d s) = String.length s.
Proof. induction s as [|x rest IH]; simpl; [done|]. by rewrite IH. Qed.

(** X3: [normalizePath] keeps the length of the path, leaves a path without
    the platform separator as it is, returns a path in which the only
    separator left is ["/"], and is idempotent. *)
Theorem normalizePath_normal (path : string) :
  String.length (normalizePath path) = String.length path /\
  (~ In SEP (list_ascii_of_string path) -> normalizePath path = path) /\
  (In SEP (list_ascii_of_string (normalizePath path)) -> SEP = "/"%char) /\
  normalizePath (normalizePath path) = normalizePath path.
Proof.
  unfold normalizePath. destruct (Ascii.eqb_spec SEP "/") as [Heq|Hne].
  - by repeat split.
  - split; [apply replaceAll_length|]. split; [apply replaceAll_absent|].
    split; [intros Hin; by destruct (replaceAll_gone SEP "/" path Hne)|].
    apply replaceAll_absent, replaceAll_gone, Hne.
Qed.

End Normalize.

Example normalizePath_windows :
  normalizePath "\" "C:\site\_includes/a.njk" = "C:/site/_includes/a.njk".
Proof. reflexivity. Qed.

End Normalize.

(** ** JavaScript values and objects

    [merge] copies, reads and writes objects that are shared by reference, so
    objects live in a heap: a value is a primitive or a reference, and a
    heap cell is a plain object (a finite map from property names to values)
    or an array.  Allocation appends a cell; nothing is ever freed.

    Numbers are kept as integers: [merge] only tests whether one is zero.
    The properties of an object are enumerated in the order of the map, not
    in insertion order; [merge] handles every key on its own, so the order
    only decides which of the new cells is allocated first. *)

Module JS.

Abbreviation loc := nat (only parsing).

Inductive value : Type :=
  | VUndefined
  | VNull
  | VBool (b : bool)
  | VNum (n : Z)
  | VStr (s : string)
  | VRef (l : loc).

Inductive cell : Type :=
  | CObj (props : gmap string value)
  | CArr (elems : list value).

Abbreviation heap := (list cell) (only parsing).

(** [typeof v === "object"]: objects, arrays and [null]. *)
Definition typeof_object (v : value) : bool :=
  match v with
  | VNull | VRef _ => true
  | _ => false
  end.

(** [Array.isArray(v)] *)
Definition isArray (h : heap) (v : value) : bool :=
  match v with
  | VRef l => match h !! l with Some (CArr _) => true | _ => false end
  | _ => false
  end.

(** [v] is a plain (non-array) object of the heap. *)
Definition isPlainObject (h : heap) (v : value) : bool :=
  match v with
  | VRef l => match h !! l with Some (CObj _) => true | _ => false end
  | _ => false
  end.

(** Truthiness, as tested by [!user]. *)
Definition truthy (v : value) : bool :=
  match v with
  | VUndefined | VNull => false
  | VBool b => b
  | VNum n => negb (n =? 0)%Z
  | VStr s => negb (String.eqb s "")
  | VRef _ => true
  end.

(** The index-keyed properties of an array-like: ["0"], ["1"], ... *)
Definition index_entries (vs : list value) : list (string * value) :=
  imap (fun i v => (pretty i, v)) vs.

Definition chars (s : string) : list value :=
  map (fun c => VStr (String c EmptyString)) (list_ascii_of_string s).

(** The own enumerable string-keyed properties of a value: what
    [Object.entries(v)] lists and what the spread [{ ...v }] copies.
    Primitives other than strings have none; an array has its indices (its
    [length] is not enumerable). *)
Definition own_entries (h : heap) (v : value) : list (string * value) :=
  match v with
  | VRef l =>
      match h !! l with
      | Some (CObj props) => map_to_list props
      | Some (CArr elems) => index_entries elems
      | None => []
      end
  | VStr s => index_entries (chars s)
  | _ => []
  end.

(** [{ ...v }]: a property map holding the own properties of [v]. *)
Definition spread (h : heap) (v : value) : gmap string value :=
  match v with
  | VRef l =>
      match h !! l with
      | Some (CObj props) => props
      | Some (CArr elems) => list_to_map (index_entries elems)
      | None => ∅
      end
  | VStr s => list_to_map (index_entries (chars s))
  | _ => ∅
  end.

Definition alloc (h : heap) (c : cell) : heap * loc := (h ++ [c], length h).

(** [o[key]] for an object reference [o]; [undefined] when absent. *)
Definition getProp (h : heap) (o : loc) (key : string) : value :=
  match h !! o with
  | Some (CObj props) => default VUndefined (props !! key)
  | _ => VUndefined
  end.

(** [o[key] = v] *)
Definition setProp (h : heap) (o : loc) (key : string) (v : value) : heap :=
  match h !! o with
  | Some (CObj props) => <[o := CObj (<[key := v]> props)]> h
  | _ => h
  end.

(** The values stored in a cell. *)
Definition cell_values (c : cell) : list value :=
  match c with
  | CObj props => (map_to_list props).*2
  | CArr elems => elems
  end.

(** [depth_le n h v]: everything reachable from [v] is allocated and lies at
    most [n] references deep; in particular the structure below [v] has no
    cycle. *)
Fixpoint depth_le (n : nat) (h : heap) (v : value) {struct n} : bool :=
  match v with
  | VRef l =>
      match n with
      | 0 => false
      | S n' =>
          match h !! l with
          | Some c => forallb (depth_le n' h) (cell_values c)
          | None => false
          end
      end
  | _ => true
  end.

(** [heap_extends h h']: every cell of [h] is still there, unchanged, in
    [h']. *)
Definition heap_extends (h h' : heap) : Prop :=
  forall l c, h !! l = Some c -> h' !! l = Some c.

(** [agree_except m h h']: the same, except possibly for the cell [m]. *)
Definition agree_except (m : loc) (h h' : heap) : Prop :=
  forall l c, l <> m -> h !! l = Some c -> h' !! l = Some c.

Lemma heap_extends_refl (h : heap) : heap_extends h h.
Proof. by intros l c. Qed.

Lemma heap_extends_trans (h1 h2 h3 : heap) :
  heap_extends h1 h2 -> heap_extends h2 h3 -> heap_extends h1 h3.
Proof. intros H12 H23 l c Hl. eauto. Qed.

Lemma agree_except_trans (m : loc) (h1 h2 h3 : heap) :
  agree_except m h1 h2 -> agree_except m h2 h3 -> agree_except m h1 h3.
Proof. intros H12 H23 l c Hne Hl. eauto. Qed.

Lemma heap_extends_agree (m : loc) (h h' : heap) :
  heap_extends h h' -> agree_except m h h'.
Proof. intros H l c _ Hl. eauto. Qed.

Lemma heap_extends_alloc (h : heap) (c : cell) : heap_extends h (alloc h c).1.
Proof. intros l c' Hl. simpl. by apply lookup_app_l_Some. Qed.

Lemma alloc_lookup (h : heap) (c : cell) : (alloc h c).1 !! (alloc h c).2 = Some c.
Proof. simpl. by rewrite lookup_app_r, Nat.sub_diag. Qed.

Lemma alloc_fresh (h : heap) (c : cell) : h !! (alloc h c).2 = None.
Proof. simpl. by apply lookup_ge_None. Qed.

Lemma setProp_agree (h : heap) (o : loc) (key : string) (v : value) :
  agree_except o h (setProp h o key v).
Proof.
  intros l c Hne Hl. unfold setProp.
  destruct (h !! o) as [[props|elems]|]; [|done..].
  by rewrite list_lookup_insert_ne.
Qed.

Lemma setProp_lookup (h : heap) (o : loc) (key : string) (v : value)
    (props : gmap string value) :
  h !! o = Some (CObj props) ->
  setProp h o key v !! o = Some (CObj (<[key := v]> props)).
Proof.
  intros Ho. unfold setProp. rewrite Ho.
  apply list_lookup_insert_eq. by eapply lookup_lt_Some.
Qed.

Lemma getProp_lookup (h : heap) (o : loc) (key : string)
    (props : gmap string value) :
  h !! o = Some (CObj props) -> getProp h o key = default VUndefined (props !! key).
Proof. intros Ho. unfold getProp. by rewrite Ho. Qed.

Lemma isArray_extends (h h' : heap) (v : value) :
  heap_extends h h' -> isArray h v = true -> isArray h' v = true.
Proof.
  intros Hext. destruct v as [| | | | |l]; simpl; try done.
  destruct (h !! l) as [[props|elems]|] eqn:Hl; try done.
  by rewrite (Hext _ _ Hl).
Qed.

Lemma isPlainObject_extends (h h' : heap) (v : value) :
  heap_extends h h' -> isPlainObject h v = true -> isPlainObject h' v = true.
Proof.
  intros Hext. destruct v as [| | | | |l]; simpl; try done.
  destruct (h !! l) as [[props|elems]|] eqn:Hl; try done.
  by rewrite (Hext _ _ Hl).
Qed.

Lemma isPlainObject_not_array (h : heap) (v : value) :
  isPlainObject h v = true -> isArray h v = false.
Proof.
  destruct v as [| | | | |l]; simpl; try done.
  by destruct (h !! l) as [[props|elems]|].
Qed.

(** Property names are pairwise distinct. *)
Lemma index_entries_keys (vs : list value) :
  (index_entries vs).*1 = pretty <$> seq 0 (length vs).
Proof.
  unfold index_entries. rewrite fmap_imap.
  rewrite <- (imap_seq_0 vs (fun i : nat => pretty i)).
  by apply imap_ext.
Qed.

Lemma index_entries_NoDup (vs : list value) : NoDup (index_entries vs).*1.
Proof. rewrite index_entries_keys. apply NoDup_fmap_2; [apply _|apply NoDup_seq]. Qed.

Lemma own_entries_NoDup (h : heap) (v : value) : NoDup (own_entries h v).*1.
Proof.
  destruct v as [| | | |s|l]; simpl; try apply NoDup_nil_2.
  - apply index_entries_NoDup.
  - destruct (h !! l) as [[props|elems]|]; [| |apply NoDup_nil_2].
    + apply NoDup_fst_map_to_list.
    + apply index_entries_NoDup.
Qed.

Lemma own_entries_extends (h h' : heap) (l : loc) (c : cell) :
  heap_extends h h' -> h !! l = Some c ->
  own_entries h' (VRef l) = own_entries h (VRef l).
Proof. intros Hext Hl. simpl. by rewrite (Hext _ _ Hl), Hl. Qed.

Lemma depth_le_extends (n : nat) (h h' : heap) (v : value) :
  heap_extends h h' -> depth_le n h v = true -> depth_le n h' v = true.
Proof.
  intros Hext. revert v. induction n as [|n IH]; intros v; destruct v as [| | | | |l];
    simpl; try done.
  destruct (h !! l) as [c|] eqn:Hl; [|done]. rewrite (Hext _ _ Hl).
  rewrite !forallb_forall. intros Hall x Hx. apply IH. by apply Hall.
Qed.

End JS.

(** ** [utils.js]: [merge] *)

Module Merge.
Import JS.

(** One iteration of the loop over [Object.entries(user)]:
<<
    if (typeof merged[key] === "object" && typeof value === "object" &&
        !Array.isArray(merged[key])) {
      merged[key] = merge(merged[key], value);
      continue;
    }
    merged[key] = value;
>>
    [rec] is the recursive call. *)
Definition merge_entry (rec : heap -> value -> value -> option (heap * loc))
    (merged : loc) (h : heap) (e : string * value) : option heap :=
  let '(key, value) := e in
  let mk := getProp h merged key in
  if typeof_object mk && typeof_object value && negb (isArray h mk)
  then
    match rec h mk value with
    | Some (h', r) => Some (setProp h' merged key (VRef r))
    | None => None
    end
  else Some (setProp h merged key value).

Fixpoint merge_loop (rec : heap -> value -> value -> option (heap * loc))
    (merged : loc) (entries : list (string * value)) (h : heap) : option heap :=
  match entries with
  | [] => Some h
  | e :: rest =>
      match merge_entry rec merged h e with
      | Some h' => merge_loop rec merged rest h'
      | None => None
      end
  end.

(** [merge(defaults, user)].  The recursion follows references of the heap,
    which may be cyclic, so it is bounded by [fuel]; [None] is "no result
    within [fuel] nested calls".
<<
  const merged = { ...defaults };
  if (!user) { return merged; }
  for (const [key, value] of Object.entries(user)) { ... }
  return merged;
>> *)
Fixpoint merge (fuel : nat) (h : heap) (defaults user : value)
  : option (heap * loc) :=
  match fuel with
  | 0 => None
  | S fuel' =>
      let '(h1, merged) := alloc h (CObj (spread h defaults)) in
      if negb (truthy user) then Some (h1, merged)
      else
        match merge_loop (merge fuel') merged (own_entries h1 user) h1 with
        | Some h2 => Some (h2, merged)
        | None => None
        end
  end.

(** *** Examples *)

(** [defaults = { a: { x: 1 }, b: 2 }], [user = { a: [7] }] *)
Definition heap_ex : heap :=
  [ CObj {[ "x" := VNum 1 ]};                       (* 0: { x: 1 } *)
    CObj {[ "a" := VRef 0; "b" := VNum 2 ]};        (* 1: defaults *)
    CArr [VNum 7];                                  (* 2: [7] *)
    CObj {[ "a" := VRef 2 ]} ].                     (* 3: user *)

(** *** The loop over the entries of [user] *)

(** What a (recursive) call is expected to do to the heap: it returns a
    plain object that did not exist before and leaves every existing cell
    as it was. *)
Definition rec_frame (rec : heap -> value -> value -> option (heap * loc)) : Prop :=
  forall h d u h' r, rec h d u = Some (h', r) ->
    heap_extends h h' /\ h !! r = None /\ exists props, h' !! r = Some (CObj props).

(** The outcome for the entry [key: v] of [user], where [dv] is the value
    the copy of [defaults] holds at [key] ([undefined] when absent), [hb]
    the heap before the call, [m] the new object, [h2] the final heap and
    [res] what [m] finally holds at [key]. *)
Definition entry_post (rec : heap -> value -> value -> option (heap * loc))
    (hb : heap) (m : loc) (h2 : heap) (dv v : value) (res : option value) : Prop :=
  (typeof_object v = false \/ typeof_object dv = false \/ isArray hb dv = true ->
   res = Some v) /\
  (typeof_object v = true -> dv = VNull \/ isPlainObject hb dv = true ->
   exists h0 h0' r',
     heap_extends hb h0 /\ rec h0 dv v = Some (h0', r') /\
     agree_except m h0' h2 /\ res = Some (VRef r')).

Lemma merge_loop_spec rec (hb : heap) (m : loc) (es : list (string * value)) :
  rec_frame rec -> hb !! m = None -> NoDup es.*1 ->
  forall (h : heap) (p : gmap string value) (h2 : heap),
    heap_extends hb h -> h !! m = Some (CObj p) ->
    merge_loop rec m es h = Some h2 ->
    exists p2 : gmap string value,
      h2 !! m = Some (CObj p2) /\ agree_except m h h2 /\
      (forall k, k ∉ es.*1 -> p2 !! k = p !! k) /\
      (forall k v, (k, v) ∈ es ->
         entry_post rec hb m h2 (default VUndefined (p !! k)) v (p2 !! k)).
Proof.
  intros Hrec Hfresh. induction es as [|[key value] es IH];
    intros Hnd h p h2 Hext Hm Hloop; simpl in Hloop.
  - injection Hloop as <-. exists p. split; [done|]. split; [by intros l c|].
    split; [done|]. intros k v Hin. by apply elem_of_nil in Hin.
  - rewrite fmap_cons in Hnd. apply NoDup_cons in Hnd as [Hkey Hnd]. cbn [fst] in Hkey.
    rewrite (getProp_lookup _ _ _ _ Hm) in Hloop.
    set (dv := default VUndefined (p !! key)) in *.
    assert (Hhb_ne : forall l c, hb !! l = Some c -> l <> m) by (intros l c Hl ->; congruence).
    destruct (typeof_object dv && typeof_object value && negb (isArray h dv)) eqn:Hcond.
    + (* merged[key] = merge(merged[key], value) *)
      apply andb_prop in Hcond as [Hcond Harr]. apply andb_prop in Hcond as [Htd Htv].
      apply negb_true_iff in Harr.
      destruct (rec h dv value) as [[h' r]|] eqn:Hcall; [|done].
      destruct (Hrec _ _ _ _ _ Hcall) as (Hext' & Hr & props & Hr').
      pose proof (Hext' _ _ Hm) as Hm'.
      pose proof (setProp_lookup _ _ key (VRef r) _ Hm') as Hset.
      pose proof (setProp_agree h' m key (VRef r)) as Hagr.
      destruct (IH Hnd _ _ _ (fun l c Hl => Hagr l c (Hhb_ne l c Hl) (Hext' l c (Hext l c Hl)))
                  Hset Hloop) as (p2 & Hp2 & Hagr2 & Hother & Hentries).
      exists p2. split; [done|]. split.
      { intros l c Hne Hl. apply Hagr2, Hagr; auto. }
      split.
      { intros k Hk. apply not_elem_of_cons in Hk as [Hne Hk].
        rewrite (Hother _ Hk). by rewrite lookup_insert_ne. }
      intros k v Hin. apply elem_of_cons in Hin as [[= -> ->]|Hin].
      * rewrite (Hother _ Hkey), lookup_insert_eq. fold dv. split.
        -- intros [Hv|[Hd|Ha]]; [congruence..|].
           apply (isArray_extends _ _ _ Hext) in Ha. congruence.
        -- intros _ _. exists h, h', r.
           split; [exact Hext|]. split; [exact Hcall|]. split; [|reflexivity].
           eapply agree_except_trans; [exact Hagr|exact Hagr2].
      * assert (k <> key) as Hne.
        { intros ->. apply Hkey. apply list_elem_of_fmap. by exists (key, v). }
        specialize (Hentries _ _ Hin). by rewrite lookup_insert_ne in Hentries.
    + (* merged[key] = value *)
      pose proof (setProp_lookup _ _ key value _ Hm) as Hset.
      pose proof (setProp_agree h m key value) as Hagr.
      destruct (IH Hnd _ _ _ (fun l c Hl => Hagr l c (Hhb_ne l c Hl) (Hext l c Hl))
                  Hset Hloop) as (p2 & Hp2 & Hagr2 & Hother & Hentries).
      exists p2. split; [done|]. split.
      { intros l c Hne Hl. apply Hagr2, Hagr; auto. }
      split.
      { intros k Hk. apply not_elem_of_cons in Hk as [Hne Hk].
        rewrite (Hother _ Hk). by rewrite lookup_insert_ne. }
      intros k v Hin. apply elem_of_cons in Hin as [[= -> ->]|Hin].
      * rewrite (Hother _ Hkey), lookup_insert_eq. fold dv. split; [done|].
        intros Hv Hd. exfalso. rewrite Hv in Hcond.
        destruct Hd as [Hd|Hd].
        -- by rewrite Hd in Hcond.
        -- pose proof (isPlainObject_extends _ _ _ Hext Hd) as Hd'.
           rewrite (isPlainObject_not_array _ _ Hd') in Hcond.
           destruct dv; simpl in *; congruence.
      * assert (k <> key) as Hne.
        { intros ->. apply Hkey. apply list_elem_of_fmap. by exists (key, v). }
        specialize (Hentries _ _ Hin). by rewrite lookup_insert_ne in Hentries.
Qed.

(** The loop finishes when every recursive call it makes does. *)
Lemma merge_loop_total rec (hb : heap) (m : loc) (es : list (string * value)) :
  rec_frame rec -> hb !! m = None ->
  (forall h0 dv v, heap_extends hb h0 -> v ∈ es.*2 -> typeof_object v = true ->
     is_Some (rec h0 dv v)) ->
  forall (h : heap) (p : gmap string value),
    heap_extends hb h -> h !! m = Some (CObj p) ->
    is_Some (merge_loop rec m es h).
Proof.
  intros Hrec Hfresh. induction es as [|[key value] es IH]; intros Hcalls h p Hext Hm; simpl.
  - by eexists.
  - assert (Hhb_ne : forall l c, hb !! l = Some c -> l <> m) by (intros l c Hl ->; congruence).
    assert (Hcalls' : forall h0 dv v, heap_extends hb h0 -> v ∈ es.*2 ->
              typeof_object v = true -> is_Some (rec h0 dv v)).
    { intros h0 dv v H0 Hv. apply Hcalls; [done|]. simpl. by apply elem_of_cons; right. }
    destruct (typeof_object (getProp h m key) && typeof_object value &&
              negb (isArray h (getProp h m key))) eqn:Hcond.
    + apply andb_prop in Hcond as [Hcond _]. apply andb_prop in Hcond as [_ Htv].
      destruct (Hcalls h (getProp h m key) value Hext) as [[h' r] Hcall];
        [simpl; apply elem_of_cons; by left|done|].
      rewrite Hcall. destruct (Hrec _ _ _ _ _ Hcall) as (Hext' & _ & _).
      pose proof (Hext' _ _ Hm) as Hm'.
      eapply (IH Hcalls'); [|by apply setProp_lookup].
      intros l c Hl. apply setProp_agree; eauto.
    + eapply (IH Hcalls'); [|by apply setProp_lookup].
      intros l c Hl. apply setProp_agree; eauto.
Qed.

(** *** Frame and termination of [merge] *)

Lemma merge_frame (fuel : nat) : rec_frame (merge fuel).
Proof.
  induction fuel as [|fuel IH]; intros h d u h' r Hm; simpl in Hm; [done|].
  destruct (negb (truthy u)).
  - injection Hm as <- <-. split; [apply (heap_extends_alloc h)|].
    split; [apply (alloc_fresh h (CObj (spread h d)))|].
    eexists. apply (alloc_lookup h).
  - destruct (merge_loop _ _ _ _) as [h2|] eqn:Hloop; [|done]. injection Hm as <- <-.
    destruct (merge_loop_spec (merge fuel) h (length h) _ IH
                (alloc_fresh h (CObj (spread h d))) (own_entries_NoDup _ u)
                _ _ _ (heap_extends_alloc h _) (alloc_lookup h _) Hloop)
      as (p2 & Hp2 & Hagr & _).
    split; [|split; [apply (alloc_fresh h (CObj (spread h d)))|by eexists]].
    intros l c Hl. apply Hagr.
    + intros ->. pose proof (alloc_fresh h (CObj (spread h d))) as Hf. simpl in Hf. congruence.
    + by apply (heap_extends_alloc h).
Qed.

Lemma own_entries_values (h : heap) (l : loc) (c : cell) (v : value) :
  h !! l = Some c -> v ∈ (own_entries h (VRef l)).*2 -> v ∈ cell_values c.
Proof.
  intros Hl. simpl. rewrite Hl. destruct c as [props|elems]; simpl; [done|].
  intros Hv. apply list_elem_of_fmap in Hv as ([k v'] & -> & Hin).
  unfold index_entries in Hin. apply elem_of_lookup_imap in Hin as (i & x & [= _ ->] & Hx).
  simpl. by eapply list_elem_of_lookup_2.
Qed.

Lemma own_entries_primitive (h : heap) (u v : value) :
  (forall l, u <> VRef l) -> v ∈ (own_entries h u).*2 -> typeof_object v = false.
Proof.
  intros Hu. destruct u as [| | | |s|l]; simpl; try (intros Hv; by apply elem_of_nil in Hv).
  - intros Hv. apply list_elem_of_fmap in Hv as ([k v'] & -> & Hin).
    unfold index_entries in Hin. apply elem_of_lookup_imap in Hin as (i & x & [= _ ->] & Hx).
    apply list_elem_of_lookup_2 in Hx. unfold chars in Hx.
    apply list_elem_of_fmap in Hx as (c & -> & _). done.
  - by destruct (Hu l).
Qed.

Lemma merge_unfold (fuel : nat) (h : heap) (d u : value) :
  merge (S fuel) h d u =
  if negb (truthy u) then Some (h ++ [CObj (spread h d)], length h)
  else match merge_loop (merge fuel) (length h)
               (own_entries (h ++ [CObj (spread h d)]) u) (h ++ [CObj (spread h d)]) with
       | Some h2 => Some (h2, length h)
       | None => None
       end.
Proof. reflexivity. Qed.

Lemma merge_step_total (fuel : nat) (h : heap) (d u : value) :
  (forall h0 dv v, heap_extends h h0 ->
     v ∈ (own_entries (h ++ [CObj (spread h d)]) u).*2 -> typeof_object v = true ->
     is_Some (merge fuel h0 dv v)) ->
  is_Some (merge (S fuel) h d u).
Proof.
  intros Hcalls. rewrite merge_unfold. destruct (negb (truthy u)); [by eexists|].
  destruct (merge_loop_total (merge fuel) h (length h) _ (merge_frame fuel)
              (alloc_fresh h (CObj (spread h d))) Hcalls
              (h ++ [CObj (spread h d)]) (spread h d)
              (heap_extends_alloc h _) (alloc_lookup h _)) as [h2 Hh2].
  rewrite Hh2. by eexists.
Qed.

(** When nothing below [user] is deeper than [n] references, [n + 1] nested
    calls are enough. *)
Lemma merge_terminates (n : nat) (h : heap) (d u : value) :
  depth_le n h u = true -> is_Some (merge (S n) h d u).
Proof.
  revert h d u. induction n as [|n IH]; intros h d u Hdepth; apply merge_step_total;
    intros h0 dv v Hext Hv Htv.
  - exfalso. assert (typeof_object v = false); [|congruence].
    eapply own_entries_primitive; [|exact Hv]. intros l ->. done.
  - apply IH.
    assert ((exists l, u = VRef l) \/ (forall l, u <> VRef l)) as [[l ->]|Hprim]
      by (destruct u; eauto; right; done).
    + simpl in Hdepth. destruct (h !! l) as [c|] eqn:Hl; [|done].
      rewrite (own_entries_extends h (h ++ [CObj (spread h d)]) l c
                 (heap_extends_alloc h _) Hl) in Hv.
      apply (own_entries_values _ _ _ _ Hl) in Hv.
      rewrite forallb_forall in Hdepth.
      apply (depth_le_extends _ h); [done|]. apply Hdepth. by apply list_elem_of_In.
    + exfalso. assert (typeof_object v = false); [|congruence].
      eapply own_entries_primitive; [exact Hprim|exact Hv].
Qed.

(** *** The claims about [merge] *)

(** [defaults = { a: { x: 1 }, b: 2, c: [1] }],
    [user = { a: { y: 3 }, b: 5, c: [9] }] *)
Definition heap_opts : heap :=
  [ CObj {[ "x" := VNum 1 ]};                                   (* 0 *)
    CArr [VNum 1];                                              (* 1 *)
    CObj {[ "a" := VRef 0; "b" := VNum 2; "c" := VRef 1 ]};     (* 2: defaults *)
    CObj {[ "y" := VNum 3 ]};                                   (* 3 *)
    CArr [VNum 9];                                              (* 4 *)
    CObj {[ "a" := VRef 3; "b" := VNum 5; "c" := VRef 4 ]} ].   (* 5: user *)

(** The array clause of C5 as the specification words it: whatever
    [defaults] holds, a key whose [user] value is an array holds exactly
    that array in the result. *)
Definition arrays_replace (h : heap) (user : loc) (h' : heap) (r : loc) : Prop :=
  forall key la, getProp h user key = VRef la -> isArray h (VRef la) = true ->
    getProp h' r key = VRef la.

(** C5: [merge] misses the array clause of the claim where the defaults'
    value is a plain object.  For [defaults = { a: { x: 1 }, b: 2 }] and
    [user = { a: [7] }] the result does not hold the array [[7]] at [a]
    but a new plain object [{ x: 1, "0": 7 }]: the guard tests
    [Array.isArray] on the defaults' value only, so the user's array is
    merged into a copy of the defaults' object, index by index.  Where the
    defaults' value is an array, a scalar or absent, the user's array
    replaces it ([merge_array_over_array]). *)
Lemma merge_array_into_object :
  exists h' r,
    merge 2 heap_ex (VRef 1) (VRef 3) = Some (h', r) /\
    getProp heap_ex 3 "a" = VRef 2 /\ isArray heap_ex (VRef 2) = true /\
    getProp h' r "a" = VRef 5 /\
    h' !! 5 = Some (CObj {[ "x" := VNum 1; "0" := VNum 7 ]}) /\
    ~ arrays_replace heap_ex 3 h' r.
Proof.
  eexists _, _. split; [vm_compute; reflexivity|].
  repeat split; try (vm_compute; reflexivity).
  intros Hclaim. specialize (Hclaim "a" 2 eq_refl eq_refl).
  vm_compute in Hclaim. discriminate.
Qed.

(** What [merge] does key by key: for every defaults object and user
    object of a heap, [merge] returns (within [n + 1] nested calls when
    [user] is at most [n] references deep) a new plain object that
    - keeps the defaults' value where [user] has no such key;
    - holds the user's value itself (for an array: that very array) when
      the user's value is not of type "object", or the defaults' value is
      absent, not of type "object", or an array;
    - holds the result of the recursive merge of the two values when the
      user's value is of type "object" (an object, an array or [null]) and
      the defaults' value is a plain object or [null]. *)
Theorem merge_objects (h : heap) (ld lu : loc) (pd pu : gmap string value) :
  h !! ld = Some (CObj pd) -> h !! lu = Some (CObj pu) ->
  (forall n, depth_le n h (VRef lu) = true ->
     is_Some (merge (S n) h (VRef ld) (VRef lu))) /\
  forall fuel h' r, merge fuel h (VRef ld) (VRef lu) = Some (h', r) ->
    exists pr : gmap string value,
      h' !! r = Some (CObj pr) /\
      forall key,
        match pu !! key with
        | None => pr !! key = pd !! key
        | Some value =>
            let dv := default VUndefined (pd !! key) in
            (typeof_object value = false \/ typeof_object dv = false \/
             isArray h dv = true ->
             pr !! key = Some value) /\
            (typeof_object value = true -> dv = VNull \/ isPlainObject h dv = true ->
             exists fuel' h0 h0' r',
               fuel = S fuel' /\ heap_extends h h0 /\
               merge fuel' h0 dv value = Some (h0', r') /\
               agree_except r h0' h' /\ pr !! key = Some (VRef r'))
        end.
Proof.
  intros Hd Hu. split; [intros n Hn; by apply merge_terminates|].
  intros [|fuel] h' r Hm; [done|]. rewrite merge_unfold in Hm. cbn [truthy negb] in Hm.
  destruct (merge_loop _ _ _ _) as [h2|] eqn:Hloop; [|done]. injection Hm as <- <-.
  rewrite (own_entries_extends h (h ++ [CObj (spread h (VRef ld))]) lu _
             (heap_extends_alloc h _) Hu) in Hloop.
  destruct (merge_loop_spec (merge fuel) h (length h) _ (merge_frame fuel)
              (alloc_fresh h (CObj (spread h (VRef ld)))) (own_entries_NoDup h (VRef lu))
              _ _ _ (heap_extends_alloc h _) (alloc_lookup h _) Hloop)
    as (p2 & Hp2 & Hagr & Hother & Hentries).
  exists p2. split; [done|]. intros key.
  simpl in Hother, Hentries. rewrite Hu in Hother, Hentries. rewrite Hd in Hother, Hentries.
  destruct (pu !! key) as [value|] eqn:Hkey.
  - apply elem_of_map_to_list in Hkey. destruct (Hentries _ _ Hkey) as [Hrepl Hdeep].
    split; [exact Hrepl|]. intros Hv Hdv.
    destruct (Hdeep Hv Hdv) as (h0 & h0' & r' & H0 & Hcall & Hagr' & Hres).
    by exists fuel, h0, h0', r'.
  - apply Hother. intros Hin. apply list_elem_of_fmap in Hin as ([k v] & -> & Hin).
    apply elem_of_map_to_list in Hin. simpl in Hkey. congruence.
Qed.

Lemma merge_objects_witness :
  heap_opts !! 2 = Some (CObj {[ "a" := VRef 0; "b" := VNum 2; "c" := VRef 1 ]}) /\
  heap_opts !! 5 = Some (CObj {[ "a" := VRef 3; "b" := VNum 5; "c" := VRef 4 ]}) /\
  depth_le 2 heap_opts (VRef 5) = true /\
  is_Some (merge 3 heap_opts (VRef 2) (VRef 5)).
Proof.
  split; [reflexivity|]. split; [reflexivity|]. split; [vm_compute; reflexivity|].
  apply (proj1 (merge_objects heap_opts 2 5 _ _ eq_refl eq_refl) 2).
  vm_compute; reflexivity.
Defined.

(** The sibling path: over a defaults' value that is an array, the user's
    array replaces it.  For [defaults = { a: { x: 1 }, b: 2, c: [1] }] and
    [user = { a: { y: 3 }, b: 5, c: [9] }] the result holds the user's
    array itself at [c]. *)
Example merge_array_over_array :
  exists h' r,
    merge 3 heap_opts (VRef 2) (VRef 5) = Some (h', r) /\
    getProp heap_opts 5 "c" = VRef 4 /\ isArray heap_opts (VRef 4) = true /\
    getProp h' r "c" = VRef 4 /\ getProp h' r "b" = VNum 5.
Proof.
  eexists _, _. split; [vm_compute; reflexivity|].
  repeat split; vm_compute; reflexivity.
Qed.

(** C10: [merge(defaults, user)] returns a freshly allocated plain object
    and mutates nothing: the object it returns did not exist before the
    call, and every cell that existed before the call (the two arguments
    and all objects nested in them included) is the same after it.  A
    result is produced within [n + 1] nested calls when [user] is at most
    [n] references deep. *)
Theorem merge_fresh_no_mutation (h : heap) (defaults user : value) :
  (forall n, depth_le n h user = true -> is_Some (merge (S n) h defaults user)) /\
  forall fuel h' r, merge fuel h defaults user = Some (h', r) ->
    h !! r = None /\
    (exists props, h' !! r = Some (CObj props)) /\
    (forall l c, h !! l = Some c -> h' !! l = Some c).
Proof.
  split; [intros n Hn; by apply merge_terminates|].
  intros fuel h' r Hm. destruct (merge_frame fuel _ _ _ _ _ Hm) as (Hext & Hfresh & Hobj).
  done.
Qed.

Lemma merge_fresh_no_mutation_witness :
  depth_le 2 heap_opts (VRef 5) = true /\
  exists h' r,
    merge 3 heap_opts (VRef 2) (VRef 5) = Some (h', r) /\
    heap_opts !! r = None /\
    forall l c, heap_opts !! l = Some c -> h' !! l = Some c.
Proof.
  split; [vm_compute; reflexivity|].
  destruct (merge 3 heap_opts (VRef 2) (VRef 5)) as [[h' r]|] eqn:Hm.
  - exists h', r. split; [reflexivity|].
    destruct (proj2 (merge_fresh_no_mutation heap_opts (VRef 2) (VRef 5)) 3 h' r Hm)
      as (Hfresh & _ & Hframe).
    split; [exact Hfresh|exact Hframe].
  - exfalso. vm_compute in Hm. discriminate.
Defined.

(** *** Further properties of [merge] *)









(** X6: when [defaults] and [user] each hold themselves under the same key,
    [merge] never returns: each call reaches the same pair of objects
    again. *)
Theorem merge_cyclic_diverges (key : string) (fuel : nat) (h : heap) (ld lu : loc)
    (pd pu : gmap string value) :
  h !! ld = Some (CObj pd) -> pd !! key = Some (VRef ld) ->
  h !! lu = Some (CObj pu) -> pu !! key = Some (VRef lu) ->
  merge fuel h (VRef ld) (VRef lu) = None.
Proof.
  revert h. induction fuel as [|fuel IH]; intros h Hd Hdk Hu Huk; [done|].
  destruct (merge (S fuel) h (VRef ld) (VRef lu)) as [[h' r]|] eqn:Hm; [|done]. exfalso.
  rewrite merge_unfold in Hm. cbn [truthy negb] in Hm.
  destruct (merge_loop _ _ _ _) as [h2|] eqn:Hloop; [|done].
  rewrite (own_entries_extends h (h ++ [CObj (spread h (VRef ld))]) lu _
             (heap_extends_alloc h _) Hu) in Hloop.
  destruct (merge_loop_spec (merge fuel) h (length h) _ (merge_frame fuel)
              (alloc_fresh h (CObj (spread h (VRef ld)))) (own_entries_NoDup h (VRef lu))
              _ _ _ (heap_extends_alloc h _) (alloc_lookup h _) Hloop)
    as (p2 & _ & _ & _ & Hentries).
  simpl in Hentries. rewrite Hu, Hd in Hentries.
  destruct (Hentries key (VRef lu)) as [_ Hdeep]; [by apply elem_of_map_to_list|].
  rewrite Hdk in Hdeep. simpl in Hdeep. rewrite Hd in Hdeep.
  destruct (Hdeep eq_refl (or_intror eq_refl)) as (h0 & h0' & r' & Hext & Hcall & _).
  rewrite (IH h0) in Hcall; [done|by apply Hext|done|by apply Hext|done].
Qed.

(** [defaults = { self: defaults }], [user = { self: user }] *)
Definition heap_cyclic : heap :=
  [ CObj {[ "self" := VRef 0 ]}; CObj {[ "self" := VRef 1 ]} ].

Lemma merge_cyclic_diverges_witness :
  heap_cyclic !! 0 = Some (CObj {[ "self" := VRef 0 ]}) /\
  heap_cyclic !! 1 = Some (CObj {[ "self" := VRef 1 ]}) /\
  merge 1000 heap_cyclic (VRef 0) (VRef 1) = None.
Proof.
  split; [reflexivity|]. split; [reflexivity|].
  exact (merge_cyclic_diverges "self" 1000 heap_cyclic 0 1 _ _
           eq_refl eq_refl eq_refl eq_refl).
Defined.

End Merge.

(** ** The [Reader] class: cached reads and remote files *)

Module Reader.

(** [Deno.FileInfo]; the fields after [size] are [null] in the synthetic
    info [getInfo] builds for remote entries. *)
Record FileInfo : Type := mkFileInfo {
  isFile : bool;
  isDirectory : bool;
  isSymlink : bool;
  size : Z;
  mtime : option Z;
  atime : option Z;
  birthtime : option Z;
  dev : option Z;
  ino : option Z;
  mode : option Z;
  nlink : option Z;
  uid : option Z;
  gid : option Z;
  rdev : option Z;
  blksize : option Z;
  blocks : option Z
}.

(** [interface RemoteFile]; [disabled?: boolean] starts out [undefined]. *)
Record RemoteFile : Type := mkRemoteFile {
  filename : string;
  url : string;
  disabled : option bool
}.

Definition set_disabled (b : bool) (rf : RemoteFile) : RemoteFile :=
  {| filename := filename rf; url := url rf; disabled := Some b |}.

(** [remote.disabled] as a condition: [undefined] is falsy. *)
Definition is_disabled (rf : RemoteFile) : bool := default false (disabled rf).

Section Reader.
Context {Data Err : Type}.

(** [posix.join] and [posix.dirname] come from the path library the
    repository imports ([deps/path.ts]); the reader is verified for any
    such pair of functions. *)
Variable posix_join : string -> string -> string.
Variable posix_dirname : string -> string.

(** A promise is settled once and for all: it is modelled by its identity
    and the outcome it has or will have. *)
Inductive Settled : Type :=
  | Resolved (data : Data)
  | Rejected (err : Err).

Record Promise : Type := mkPromise {
  promise_id : nat;
  outcome : Settled
}.

(** [type Loader = (path: string) => Promise<Data>]: a function object with
    an identity.  Calling it either throws at once ([inl]) or returns a
    promise ([inr]); what it does may depend on when it is called, which the
    first argument (the number of loader calls made before) stands for. *)
Record Loader : Type := mkLoader {
  loader_id : nat;
  loader_call : nat -> string -> Err + Settled
}.

(** One invocation of a loader by [read]: which loader, for which cache
    slot, on which location. *)
Record Call : Type := mkCall {
  call_loader : nat;
  call_slot : string;
  call_path : string
}.

(** The fields of the class, and [calls], the history of loader invocations
    (not a field: it records what [read] did). *)
Record Reader : Type := mkReader {
  src : string;
  cache : gmap string Promise;
  remoteFiles : gmap string RemoteFile;
  remoteDirectories : gset string;
  calls : list Call
}.

Definition with_cache (c : gmap string Promise) (r : Reader) : Reader :=
  {| src := src r; cache := c; remoteFiles := remoteFiles r;
     remoteDirectories := remoteDirectories r; calls := calls r |}.

Definition with_remoteFiles (m : gmap string RemoteFile) (r : Reader) : Reader :=
  {| src := src r; cache := cache r; remoteFiles := m;
     remoteDirectories := remoteDirectories r; calls := calls r |}.

Definition with_remoteDirectories (s : gset string) (r : Reader) : Reader :=
  {| src := src r; cache := cache r; remoteFiles := remoteFiles r;
     remoteDirectories := s; calls := calls r |}.

Definition with_calls (l : list Call) (r : Reader) : Reader :=
  {| src := src r; cache := cache r; remoteFiles := remoteFiles r;
     remoteDirectories := remoteDirectories r; calls := l |}.

(** [s.slice(0, -1)] *)
Definition dropLast (s : string) : string := substring 0 (String.length s - 1) s.

(**
<<
  getFullPath(path) {
    const fullPath = posix.join(this.src, path);
    return fullPath.endsWith("/") ? fullPath.slice(0, -1) : fullPath;
  }
>> *)
Definition getFullPath (r : Reader) (path : string) : string :=
  let fullPath := posix_join (src r) path in
  if Str.endsWith fullPath "/" then dropLast fullPath else fullPath.

(** The loop of [remoteFile]:
<<
    while (directory !== ".") {
      this.remoteDirectories.add(this.getFullPath(directory));
      directory = posix.dirname(directory);
    }
>>
    [None] when it has not stopped after [fuel] iterations. *)
Fixpoint addRemoteDirectories (fuel : nat) (r : Reader) (directory : string)
  : option Reader :=
  if String.eqb directory "." then Some r
  else
    match fuel with
    | 0 => None
    | S fuel' =>
        addRemoteDirectories fuel'
          (with_remoteDirectories ({[ getFullPath r directory ]} ∪ remoteDirectories r) r)
          (posix_dirname directory)
    end.

(** [remoteFile(filename, url)]: register a remote file. *)
Definition remoteFile (fuel : nat) (r : Reader) (filename url : string) : option Reader :=
  match addRemoteDirectories fuel r (posix_dirname filename) with
  | Some r' =>
      Some (with_remoteFiles
              (<[ getFullPath r' filename :=
                  {| filename := filename; url := url; disabled := None |} ]>
                 (remoteFiles r')) r')
  | None => None
  end.

(** [deleteCache(path)] *)
Definition deleteCache (r : Reader) (path : string) : Reader :=
  let fullPath := getFullPath r path in
  with_cache (delete fullPath (cache r)) r.

(** [clearCache()] *)
Definition clearCache (r : Reader) : Reader := with_cache ∅ r.

(** What [await Deno.stat(fullPath)] does: the file's info, the [NotFound]
    error, or some other error. *)
Inductive StatResult : Type :=
  | StatOk (info : FileInfo)
  | StatNotFound
  | StatFailed (err : Err).

Inductive Result (A : Type) : Type :=
  | Returned (a : A)
  | Thrown (err : Err).
Arguments Returned {A} a.
Arguments Thrown {A} err.

(** The info [getInfo] makes up for a remote file or directory. *)
Definition remoteInfo (file : bool) : FileInfo :=
  {| isFile := file; isDirectory := negb file; isSymlink := false; size := 0;
     mtime := None; atime := None; birthtime := None; dev := None; ino := None;
     mode := None; nlink := None; uid := None; gid := None; rdev := None;
     blksize := None; blocks := None |}.

(** [getInfo(path)]; [stat] is the local file system at the time of the
    call.  The remote file object lives in the [remoteFiles] map, so setting
    its [disabled] field updates the map's entry. *)
Definition getInfo (stat : string -> StatResult) (r : Reader) (path : string)
  : Reader * Result (option FileInfo) :=
  let fullPath := getFullPath r path in
  let remoteFile := remoteFiles r !! fullPath in
  let remoteDirectory := bool_decide (fullPath ∈ remoteDirectories r) in
  match stat (getFullPath r path) with
  | StatOk info =>
      (* The file exists locally, disable the remote file *)
      match remoteFile with
      | Some rf =>
          (with_remoteFiles (<[ fullPath := set_disabled true rf ]> (remoteFiles r)) r,
           Returned (Some info))
      | None => (r, Returned (Some info))
      end
  | StatNotFound =>
      (* The file doesn't exist locally, enable the remote file *)
      match remoteFile with
      | Some rf =>
          (with_remoteFiles (<[ fullPath := set_disabled false rf ]> (remoteFiles r)) r,
           Returned (Some (remoteInfo true)))
      | None =>
          if remoteDirectory then (r, Returned (Some (remoteInfo false)))
          else (r, Returned None)
      end
  | StatFailed err => (r, Thrown err)
  end.

(** [new Exception("Couldn't load this file", { cause, fullpath })] *)
Record Exception : Type := mkException {
  message : string;
  cause : Err;
  fullpath : string
}.

Inductive ReadResult : Type :=
  | ReadOk (data : Data)
  | ReadThrow (e : Exception).

(** [const loadPath = (!remote || remote.disabled) ? fullpath : remote.url] *)
Definition loadPath (r : Reader) (path : string) : string :=
  let fullpath := getFullPath r path in
  match remoteFiles r !! fullpath with
  | Some remote => if is_disabled remote then fullpath else url remote
  | None => fullpath
  end.

(** The part of [read] that runs before its [await]:
<<
      if (!this.cache.has(fullpath)) {
        this.cache.set(fullpath, loader(loadPath));
      }
      ... this.cache.get(fullpath)!
>>
    It yields the promise to await, or the error the loader threw. *)
Definition read_begin (r : Reader) (path : string) (loader : Loader)
  : Reader * (Err + Promise) :=
  let fullpath := getFullPath r path in
  match cache r !! fullpath with
  | Some p => (r, inr p)
  | None =>
      let now := length (calls r) in
      let r1 := with_calls (calls r ++ [mkCall (loader_id loader) fullpath (loadPath r path)]) r in
      match loader_call loader now (loadPath r path) with
      | inl err => (r1, inl err)
      | inr s =>
          let p := {| promise_id := now; outcome := s |} in
          (with_cache (<[ fullpath := p ]> (cache r1)) r1, inr p)
      end
  end.

(** The rest of [read]: the [await] and the [catch]. *)
Definition read_end (fullpath : string) (x : Err + Promise) : ReadResult :=
  match x with
  | inl err =>
      ReadThrow {| message := "Couldn't load this file"; cause := err; fullpath := fullpath |}
  | inr p =>
      match outcome p with
      | Resolved data => ReadOk data
      | Rejected err =>
          ReadThrow {| message := "Couldn't load this file"; cause := err; fullpath := fullpath |}
      end
  end.

(** [read(path, loader)].  Nothing of the reader changes between the
    [await] and the result, so a call that is suspended there while other
    calls run behaves as one that ran to its end first. *)
Definition read (r : Reader) (path : string) (loader : Loader) : Reader * ReadResult :=
  let '(r', x) := read_begin r path loader in
  (r', read_end (getFullPath r path) x).

(** Whatever else happens to a reader. *)
Inductive Op : Type :=
  | ORead (path : string) (loader : Loader)
  | OGetInfo (stat : string -> StatResult) (path : string)
  | ORemoteFile (fuel : nat) (filename url : string)
  | ODeleteCache (path : string)
  | OClearCache.

Definition step (r : Reader) (o : Op) : option Reader :=
  match o with
  | ORead path loader => Some (read r path loader).1
  | OGetInfo stat path => Some (getInfo stat r path).1
  | ORemoteFile fuel filename url => remoteFile fuel r filename url
  | ODeleteCache path => Some (deleteCache r path)
  | OClearCache => Some (clearCache r)
  end.

Fixpoint run (r : Reader) (ops : list Op) : option Reader :=
  match ops with
  | [] => Some r
  | o :: rest =>
      match step r o with
      | Some r' => run r' rest
      | None => None
      end
  end.

(** [o] does not drop the cache slot [slot]. *)
Definition keeps_slot (r : Reader) (slot : string) (o : Op) : Prop :=
  match o with
  | ODeleteCache path => getFullPath r path <> slot
  | OClearCache => False
  | _ => True
  end.

(** The loader invocations made for the cache slot [slot]. *)
Definition calls_for (slot : string) (r : Reader) : list Call :=
  filter (fun c => call_slot c = slot) (calls r).

(** *** What the operations leave alone *)

Lemma addRemoteDirectories_frame (fuel : nat) (r r' : Reader) (directory : string) :
  addRemoteDirectories fuel r directory = Some r' ->
  src r' = src r /\ cache r' = cache r /\ calls r' = calls r /\
  remoteFiles r' = remoteFiles r.
Proof.
  revert r directory. induction fuel as [|fuel IH]; intros r directory; simpl;
    destruct (String.eqb directory "."); try done.
  - by intros [= <-].
  - by intros [= <-].
  - intros H. by destruct (IH _ _ H) as (-> & -> & -> & ->).
Qed.

Lemma step_src (r r' : Reader) (o : Op) : step r o = Some r' -> src r' = src r.
Proof.
  destruct o as [path loader|stat path|fuel fn u|path|]; simpl.
  - intros [= <-]. unfold read, read_begin.
    destruct (cache r !! _); [done|]. by destruct (loader_call _ _ _).
  - intros [= <-]. unfold getInfo.
    destruct (stat _); [destruct (remoteFiles r !! _); done| |done].
    destruct (remoteFiles r !! _); [done|]. by destruct (bool_decide _).
  - unfold remoteFile. destruct (addRemoteDirectories _ _ _) as [r1|] eqn:H; [|done].
    intros [= <-]. simpl. by destruct (addRemoteDirectories_frame _ _ _ _ H) as (-> & _).
  - by intros [= <-].
  - by intros [= <-].
Qed.

Lemma getFullPath_src (r r' : Reader) (path : string) :
  src r' = src r -> getFullPath r' path = getFullPath r path.
Proof. unfold getFullPath. by intros ->. Qed.

(** A read that finds the slot filled returns the cached promise and
    changes nothing, whatever the loader. *)
Lemma read_begin_hit (r : Reader) (path : string) (loader : Loader) (p : Promise) :
  cache r !! getFullPath r path = Some p -> read_begin r path loader = (r, inr p).
Proof. intros H. unfold read_begin. by rewrite H. Qed.

(** A read that finds the slot empty calls the loader. *)
Lemma read_begin_miss (r : Reader) (path : string) (loader : Loader) :
  cache r !! getFullPath r path = None ->
  calls (read_begin r path loader).1 =
    calls r ++ [mkCall (loader_id loader) (getFullPath r path) (loadPath r path)] /\
  forall p, (read_begin r path loader).2 = inr p ->
    cache (read_begin r path loader).1 !! getFullPath r path = Some p.
Proof.
  intros H. unfold read_begin. rewrite H.
  destruct (loader_call _ _ _) as [err|s]; simpl; [done|].
  split; [done|]. intros p [= <-]. apply lookup_insert_eq.
Qed.

Lemma step_keeps_slot (r r' : Reader) (o : Op) (slot : string) (p : Promise) :
  step r o = Some r' -> keeps_slot r slot o -> cache r !! slot = Some p ->
  cache r' !! slot = Some p /\ calls_for slot r' = calls_for slot r.
Proof.
  destruct o as [path loader|stat path|fuel fn u|path|]; simpl.
  - intros [= <-] _ Hp. unfold read, read_begin.
    destruct (cache r !! getFullPath r path) as [q|] eqn:Hq; [done|].
    assert (getFullPath r path <> slot) as Hne by congruence.
    assert (calls_for slot (with_calls (calls r ++
              [mkCall (loader_id loader) (getFullPath r path) (loadPath r path)]) r)
            = calls_for slot r) as Hcalls.
    { unfold calls_for. simpl. rewrite filter_app, filter_cons_False, filter_nil; [|done].
      by rewrite app_nil_r. }
    destruct (loader_call _ _ _) as [err|s]; simpl; [done|].
    split; [by rewrite lookup_insert_ne|exact Hcalls].
  - intros [= <-] _ Hp. unfold getInfo.
    destruct (stat _); [destruct (remoteFiles r !! _); done| |done].
    destruct (remoteFiles r !! _); [done|]. by destruct (bool_decide _).
  - unfold remoteFile. destruct (addRemoteDirectories _ _ _) as [r1|] eqn:H; [|done].
    intros [= <-] _ Hp. unfold calls_for. simpl.
    by destruct (addRemoteDirectories_frame _ _ _ _ H) as (_ & -> & -> & _).
  - intros [= <-] Hne Hp. simpl. split; [by rewrite lookup_delete_ne|done].
  - by intros _ [].
Qed.

Lemma run_keeps_slot (ops : list Op) (r r' : Reader) (slot : string) (p : Promise) :
  run r ops = Some r' -> Forall (keeps_slot r slot) ops -> cache r !! slot = Some p ->
  src r' = src r /\ cache r' !! slot = Some p /\ calls_for slot r' = calls_for slot r.
Proof.
  revert r. induction ops as [|o ops IH]; intros r; simpl.
  - by intros [= <-].
  - destruct (step r o) as [r1|] eqn:Hstep; [|done]. intros Hrun Hall Hp.
    apply Forall_cons in Hall as [Ho Hall].
    destruct (step_keeps_slot _ _ _ _ _ Hstep Ho Hp) as [Hp1 Hc1].
    pose proof (step_src _ _ _ Hstep) as Hsrc.
    destruct (IH r1 Hrun) as (Hsrc' & Hp' & Hc'); [|done|].
    + eapply Forall_impl; [exact Hall|]. intros [| | |path|]; simpl; try done.
      by rewrite (getFullPath_src r r1 path Hsrc).
    + split; [congruence|]. split; [done|congruence].
Qed.

Lemma run_src (ops : list Op) (r r' : Reader) : run r ops = Some r' -> src r' = src r.
Proof.
  revert r. induction ops as [|o ops IH]; intros r; simpl; [by intros [= <-]|].
  destruct (step r o) as [r1|] eqn:Hstep; [|done]. intros Hrun.
  rewrite (IH _ Hrun). by eapply step_src.
Qed.

(** *** [readDir] *)

(** [posix.basename], from the same path library. *)
Variable posix_basename : string -> string.

(** [Deno.DirEntry] *)
Record DirEntry : Type := mkDirEntry {
  entry_name : string;
  entry_isFile : bool;
  entry_isDirectory : bool;
  entry_isSymlink : bool
}.

Definition remoteDirEntry (name : string) : DirEntry :=
  {| entry_name := name; entry_isFile := false; entry_isDirectory := true;
     entry_isSymlink := false |}.

Definition remoteFileEntry (name : string) : DirEntry :=
  {| entry_name := name; entry_isFile := true; entry_isDirectory := false;
     entry_isSymlink := false |}.

(** [remotes.has(name)], where [remotes] holds the names of the local
    entries that were read. *)
Definition shadowed (local : list DirEntry) (name : string) : bool :=
  bool_decide (name ∈ entry_name <$> local).

(** [readDir(path)], run to its end.  [local] is what [Deno.readDir] yields
    before it ends or throws (the exception is ignored).  The remote
    entries follow the local ones; among themselves they come in the order
    of the model's set and map, the properties below do not depend on it.
<<
    for (const directory of this.remoteDirectories) {
      if (posix.dirname(directory) === fullPath) { yield { name: posix.basename(directory), ... }; }
    }
    for (const [file, remote] of this.remoteFiles) {
      if (posix.dirname(file) === fullPath) {
        const name = posix.basename(file);
        remote.disabled = remotes.has(name);
        if (!remote.disabled) { yield { name, isFile: true, ... }; }
      }
    }
>> *)
Definition readDir (local : list DirEntry) (r : Reader) (path : string)
  : Reader * list DirEntry :=
  let fullPath := getFullPath r path in
  let directories :=
    omap (fun directory =>
            if decide (posix_dirname directory = fullPath)
            then Some (remoteDirEntry (posix_basename directory)) else None)
         (elements (remoteDirectories r)) in
  let files :=
    omap (fun '(file, remote) =>
            if decide (posix_dirname file = fullPath)
            then if shadowed local (posix_basename file) then None
                 else Some (remoteFileEntry (posix_basename file))
            else None)
         (map_to_list (remoteFiles r)) in
  (with_remoteFiles
     (map_imap (fun file remote =>
                  Some (if decide (posix_dirname file = fullPath)
                        then set_disabled (shadowed local (posix_basename file)) remote
                        else remote))
        (remoteFiles r)) r,
   local ++ directories ++ files).

(** *** Further properties of the reader *)

Lemma addRemoteDirectories_superset (fuel : nat) (r r' : Reader) (directory : string) :
  addRemoteDirectories fuel r directory = Some r' ->
  remoteDirectories r ⊆ remoteDirectories r' /\
  (directory <> "." -> getFullPath r directory ∈ remoteDirectories r').
Proof.
  revert r directory. induction fuel as [|fuel IH]; intros r directory; simpl;
    destruct (String.eqb_spec directory ".") as [->|Hne]; try done.
  - by intros [= <-].
  - by intros [= <-].
  - intros H. destruct (IH _ _ H) as [Hsub _]. simpl in Hsub. split.
    + intros x Hx. apply Hsub, elem_of_union. by right.
    + intros _. apply Hsub, elem_of_union. left. by apply elem_of_singleton.
Qed.

(** X10: a successful [remoteFile(filename, url)] registers the file as an
    enabled remote file under its full path, so that a load of the file
    goes to the URL; it registers the file's directory as a remote directory
    (unless that is ["."]); it forgets no remote directory and changes no
    other remote file, and leaves the cache alone. *)
Theorem remoteFile_registers (fuel : nat) (r r' : Reader) (name address : string) :
  remoteFile fuel r name address = Some r' ->
  remoteFiles r' !! getFullPath r name =
    Some {| filename := name; url := address; disabled := None |} /\
  loadPath r' name = address /\
  (forall other, other <> getFullPath r name ->
     remoteFiles r' !! other = remoteFiles r !! other) /\
  remoteDirectories r ⊆ remoteDirectories r' /\
  (posix_dirname name <> "." ->
     getFullPath r (posix_dirname name) ∈ remoteDirectories r') /\
  cache r' = cache r /\ calls r' = calls r /\ src r' = src r.
Proof.
  unfold remoteFile.
  destruct (addRemoteDirectories fuel r (posix_dirname name)) as [r1|] eqn:H; [|done].
  destruct (addRemoteDirectories_frame _ _ _ _ H) as (Hsrc & Hcache & Hcalls & Hfiles).
  destruct (addRemoteDirectories_superset _ _ _ _ H) as [Hsub Hparent].
  intros [= <-]. rewrite (getFullPath_src r r1 name Hsrc).
  split; [apply lookup_insert_eq|]. split.
  { unfold loadPath. simpl.
    change (getFullPath (with_remoteFiles _ r1) name) with (getFullPath r1 name).
    rewrite (getFullPath_src r r1 name Hsrc), lookup_insert_eq. done. }
  split; [intros other Hne; simpl; by rewrite lookup_insert_ne, Hfiles|].
  simpl. by repeat split.
Qed.

Lemma addRemoteDirectories_stuck (root : string) :
  posix_dirname root = root -> root <> "." ->
  forall fuel r, addRemoteDirectories fuel r root = None.
Proof.
  intros Hroot Hne. induction fuel as [|fuel IH]; intros r; simpl;
    destruct (String.eqb_spec root "."); try done.
  rewrite Hroot. apply IH.
Qed.

Lemma iter_dirname_dot (n : nat) :
  posix_dirname "." = "." -> Nat.iter n posix_dirname "." = ".".
Proof. intros Hdot. induction n as [|n IH]; simpl; [done|]. by rewrite IH. Qed.

Lemma addRemoteDirectories_chain (root : string) (n : nat) :
  posix_dirname "." = "." -> posix_dirname root = root -> root <> "." ->
  forall directory fuel r,
    Nat.iter n posix_dirname directory = root ->
    addRemoteDirectories fuel r directory = None.
Proof.
  intros Hdot Hroot Hne. induction n as [|n IH]; intros directory fuel r Hn.
  - simpl in Hn. subst directory. by apply addRemoteDirectories_stuck.
  - rewrite Nat.iter_succ_r in Hn. destruct fuel as [|fuel]; simpl;
      destruct (String.eqb_spec directory ".") as [->|Hdir]; try done.
    + rewrite Hdot, iter_dirname_dot in Hn by done. by destruct Hne.
    + rewrite Hdot, iter_dirname_dot in Hn by done. by destruct Hne.
    + by apply IH.
Qed.

(** X11: [remoteFile] does not return when the chain of dirnames of the
    file name reaches, after any number of steps, a directory other than
    ["."] that is its own dirname (as the root ["/"] is for every absolute
    name): the loop goes on for ever.  [posix.dirname(".")] is ["."]. *)
Theorem remoteFile_diverges (fuel n : nat) (r : Reader) (name address root : string) :
  posix_dirname "." = "." ->
  Nat.iter n posix_dirname (posix_dirname name) = root ->
  posix_dirname root = root -> root <> "." ->
  remoteFile fuel r name address = None.
Proof.
  intros Hdot Hchain Hroot Hne. unfold remoteFile.
  by rewrite (addRemoteDirectories_chain root n Hdot Hroot Hne _ fuel r Hchain).
Qed.

(** X12: a load that failed by rejection stays in the cache: every later
    [read] of the path, with any loader, raises the same exception again
    and calls no loader.  A loader that threw when called leaves the slot
    empty, and the next [read] calls its loader. *)
Theorem read_failure_cached (r : Reader) (path : string) (f g : Loader) (err : Err) :
  cache r !! getFullPath r path = None ->
  (loader_call f (length (calls r)) (loadPath r path) = inr (Rejected err) ->
   read (read r path f).1 path g =
     ((read r path f).1,
      ReadThrow {| message := "Couldn't load this file"; cause := err;
                   fullpath := getFullPath r path |})) /\
  (loader_call f (length (calls r)) (loadPath r path) = inl err ->
   cache (read r path f).1 !! getFullPath r path = None /\
   calls (read (read r path f).1 path g).1 =
     calls (read r path f).1 ++
     [mkCall (loader_id g) (getFullPath r path) (loadPath r path)]).
Proof.
  intros Hmiss. split; intros Hcall.
  - unfold read at 2 3. unfold read_begin. rewrite Hmiss, Hcall. simpl.
    unfold read, read_begin. simpl.
    change (getFullPath (with_cache _ _) path) with (getFullPath r path).
    rewrite lookup_insert_eq. done.
  - unfold read at 1 3 4. unfold read_begin. rewrite Hmiss, Hcall. simpl.
    split; [done|].
    unfold read, read_begin. simpl.
    change (getFullPath (with_calls _ r) path) with (getFullPath r path).
    rewrite Hmiss.
    change (loadPath (with_calls _ r) path) with (loadPath r path).
    by destruct (loader_call g _ _).
Qed.

(** X13: [getInfo] is idempotent: asking again, with the file system
    unchanged, gives the same answer and leaves the reader as the first call
    left it. *)
Theorem getInfo_idempotent (stat : string -> StatResult) (r : Reader) (path : string) :
  getInfo stat (getInfo stat r path).1 path =
    ((getInfo stat r path).1, (getInfo stat r path).2).
Proof.
  unfold getInfo.
  destruct (stat (getFullPath r path)) as [info| |err] eqn:Hstat;
    destruct (remoteFiles r !! getFullPath r path) as [rf|] eqn:Hrf; simpl;
    try (destruct (bool_decide (getFullPath r path ∈ remoteDirectories r)) eqn:Hdir; simpl);
    change (getFullPath (with_remoteFiles _ r) path) with (getFullPath r path);
    rewrite ?Hstat, ?lookup_insert_eq, ?Hrf, ?Hdir; simpl; try done;
    unfold with_remoteFiles; simpl; by rewrite insert_insert_eq.
Qed.

(** X14: [readDir] lists the local entries, every remote directory of the
    directory (also one that exists locally), and the remote files of the
    directory whose name no local entry has.  It marks each remote file of
    the directory disabled exactly when a local entry has its name, and
    changes nothing else. *)
Theorem readDir_listing (local : list DirEntry) (r : Reader) (path : string) :
  let fullPath := getFullPath r path in
  let r' := (readDir local r path).1 in
  let listing := (readDir local r path).2 in
  (forall e, e ∈ listing <->
     e ∈ local \/
     (exists directory, directory ∈ remoteDirectories r /\
        posix_dirname directory = fullPath /\
        e = remoteDirEntry (posix_basename directory)) \/
     (exists file remote, remoteFiles r !! file = Some remote /\
        posix_dirname file = fullPath /\
        (posix_basename file ∉ (entry_name <$> local)) /\
        e = remoteFileEntry (posix_basename file))) /\
  (forall file remote, remoteFiles r !! file = Some remote ->
     remoteFiles r' !! file =
       Some (if decide (posix_dirname file = fullPath)
             then set_disabled (bool_decide (posix_basename file ∈ entry_name <$> local)) remote
             else remote)) /\
  (forall file, remoteFiles r !! file = None -> remoteFiles r' !! file = None) /\
  cache r' = cache r /\ calls r' = calls r /\ src r' = src r /\
  remoteDirectories r' = remoteDirectories r.
Proof.
  cbv zeta. unfold readDir. simpl. split.
  { intros e. rewrite !elem_of_app, !list_elem_of_omap. split.
    - intros [He|[(d & Hd & Hf)|([file remote] & Hin & Hf)]]; [by left| |].
      + right; left. destruct (decide (posix_dirname d = getFullPath r path)); [|done].
        injection Hf as <-. exists d. split; [by apply elem_of_elements|done].
      + right; right. destruct (decide (posix_dirname file = getFullPath r path)); [|done].
        unfold shadowed in Hf. case_bool_decide as Hs; [done|]. injection Hf as <-.
        exists file, remote. split; [by apply elem_of_map_to_list|done].
    - intros [He|[(d & Hd & Hdir & ->)|(file & remote & Hin & Hdir & Hs & ->)]]; [by left| |].
      + right; left. exists d. split; [by apply elem_of_elements|].
        by rewrite decide_True.
      + right; right. exists (file, remote). split; [by apply elem_of_map_to_list|].
        rewrite decide_True by done. unfold shadowed. by rewrite bool_decide_eq_false_2. }
  split; [intros file remote Hin; rewrite map_lookup_imap, Hin; simpl;
          by destruct (decide _)|].
  split; [intros file Hin; by rewrite map_lookup_imap, Hin|]. done.
Qed.

End Reader.

Arguments Returned {Err A} a.
Arguments Thrown {Err A} err.

(** *** Cache coherence *)

(** C1: for every path [p] and loader [f], starting from an empty slot, the
    first [read(p, f)] calls the loader once; whatever else is done with the
    reader afterwards (further reads of any path, [getInfo], [remoteFile],
    [deleteCache] of other slots), as long as the slot of [p] is not
    deleted every [read(p, f)] leaves the reader as it is, makes no loader
    call for the slot and returns what the first read returned; and the
    first [read(p, f)] after [deleteCache(p)] calls the loader again. *)
Theorem read_cache_coherent {Data Err : Type} (posix_join : string -> string -> string)
    (posix_dirname : string -> string)
    (r : @Reader Data Err) (path : string) (f : @Loader Data Err) :
  let slot := getFullPath posix_join r path in
  cache r !! slot = None ->
  forall r1 p, read_begin posix_join r path f = (r1, inr p) ->
    calls r1 = calls r ++ [mkCall (loader_id f) slot (loadPath posix_join r path)] /\
    (forall ops r2,
       Forall (keeps_slot posix_join r1 slot) ops ->
       run posix_join posix_dirname r1 ops = Some r2 ->
       read posix_join r2 path f = (r2, (read posix_join r path f).2) /\
       calls_for slot r2 = calls_for slot r1) /\
    (forall ops r2,
       run posix_join posix_dirname r1 ops = Some r2 ->
       calls (read posix_join (deleteCache posix_join r2 path) path f).1 =
         calls r2 ++ [mkCall (loader_id f) slot (loadPath posix_join r2 path)]).
Proof.
  intros slot Hempty r1 p Hfirst.
  destruct (read_begin_miss posix_join r path f Hempty) as [Hcalls Hslot].
  rewrite Hfirst in Hcalls, Hslot. simpl in Hcalls, Hslot.
  specialize (Hslot p eq_refl). fold slot in Hslot.
  split; [exact Hcalls|]. split.
  - intros ops r2 Hkeep Hrun.
    destruct (run_keeps_slot posix_join posix_dirname _ _ _ _ _ Hrun Hkeep Hslot)
      as (Hsrc & Hp & Hc).
    split; [|exact Hc].
    assert (src r1 = src r) as Hsrc1.
    { pose proof (step_src posix_join posix_dirname r r1 (ORead path f)) as H.
      simpl in H. unfold read in H. rewrite Hfirst in H. by apply H. }
    assert (getFullPath posix_join r2 path = slot) as Hfp.
    { unfold slot. apply getFullPath_src. congruence. }
    unfold read. rewrite Hfirst.
    rewrite (read_begin_hit posix_join r2 path f p); [|by rewrite Hfp].
    by rewrite Hfp.
  - intros ops r2 Hrun.
    assert (src r1 = src r) as Hsrc1.
    { pose proof (step_src posix_join posix_dirname r r1 (ORead path f)) as H.
      simpl in H. unfold read in H. rewrite Hfirst in H. by apply H. }
    pose proof (run_src posix_join posix_dirname _ _ _ Hrun) as Hsrc2.
    assert (getFullPath posix_join r2 path = slot) as Hfp.
    { unfold slot. apply getFullPath_src. congruence. }
    destruct (read_begin_miss posix_join (deleteCache posix_join r2 path) path f) as [Hc _].
    { unfold deleteCache. simpl. apply lookup_delete_eq. }
    unfold read.
    destruct (read_begin posix_join (deleteCache posix_join r2 path) path f) as [r3 x].
    simpl in Hc |- *. rewrite Hc. by rewrite <- Hfp.
Qed.

(** *** Examples

    [join_simple] and [dirname_flat] stand for [posix.join] and
    [posix.dirname] on the paths used below: a normalised directory joined
    with a file name that has no separator, whose [dirname] is ["."]. *)

Definition join_simple (a b : string) : string := a +:+ "/" +:+ b.
Definition dirname_flat (_ : string) : string := ".".

Definition reader0 : @Reader string string :=
  {| src := "/site"; cache := ∅; remoteFiles := ∅; remoteDirectories := ∅; calls := [] |}.

Definition loader_f : @Loader string string :=
  {| loader_id := 1; loader_call := fun _ path => inr (Resolved ("F:" +:+ path)) |}.
Definition loader_g : @Loader string string :=
  {| loader_id := 2; loader_call := fun _ path => inr (Resolved ("G:" +:+ path)) |}.
Definition loader_failing : @Loader string string :=
  {| loader_id := 3; loader_call := fun _ _ => inr (Rejected "connection refused") |}.

(** [reader0] after [remoteFile("a.html", "https://example.com/a.html")] *)
Definition reader_remote : @Reader string string :=
  {| src := "/site"; cache := ∅;
     remoteFiles := {[ "/site/a.html" :=
       {| filename := "a.html"; url := "https://example.com/a.html"; disabled := None |} ]};
     remoteDirectories := ∅; calls := [] |}.

Example remoteFile_reader0 :
  remoteFile join_simple dirname_flat 0 reader0 "a.html" "https://example.com/a.html"
  = Some reader_remote.
Proof. reflexivity. Qed.

Definition local_info : FileInfo :=
  {| isFile := true; isDirectory := false; isSymlink := false; size := 120;
     mtime := Some 1700000000%Z; atime := None; birthtime := None; dev := Some 2049%Z;
     ino := Some 77%Z; mode := Some 33188%Z; nlink := Some 1%Z; uid := Some 1000%Z;
     gid := Some 1000%Z; rdev := Some 0%Z; blksize := Some 4096%Z; blocks := Some 8%Z |}.

Definition stat_none : string -> @StatResult string := fun _ => StatNotFound.
Definition stat_local : string -> @StatResult string := fun _ => StatOk local_info.

Lemma read_cache_coherent_witness :
  cache reader0 !! getFullPath join_simple reader0 "a.md" = None /\
  exists r1 p,
    read_begin join_simple reader0 "a.md" loader_f = (r1, inr p) /\
    let ops := [ORead "b.md" loader_f; OGetInfo stat_none "a.md"; ODeleteCache "b.md";
                ORead "a.md" loader_f] in
    Forall (keeps_slot join_simple r1 "/site/a.md") ops /\
    exists r2,
      run join_simple dirname_flat r1 ops = Some r2 /\
      read join_simple r2 "a.md" loader_f = (r2, ReadOk "F:/site/a.md") /\
      calls_for "/site/a.md" r2 = [mkCall 1 "/site/a.md" "/site/a.md"].
Proof.
  split; [reflexivity|]. eexists _, _. split; [reflexivity|]. cbv zeta.
  assert (Forall (keeps_slot join_simple
            (read_begin join_simple reader0 "a.md" loader_f).1 "/site/a.md")
            [ORead "b.md" loader_f; OGetInfo stat_none "a.md"; ODeleteCache "b.md";
             ORead "a.md" loader_f]) as Hkeep.
  { repeat constructor. simpl. vm_compute. discriminate. }
  split; [exact Hkeep|]. eexists. split; [reflexivity|].
  destruct (read_cache_coherent join_simple dirname_flat reader0 "a.md" loader_f
              eq_refl _ _ eq_refl) as (_ & Hlive & _).
  destruct (Hlive _ _ Hkeep eq_refl) as [Hread Hcalls].
  split; [exact Hread|]. exact (eq_trans Hcalls eq_refl).
Defined.

(** The claim C2 for the second of two reads: the read with loader [g]
    calls [g] and returns what that call produced. *)
Definition reads_with_own_loader {Data Err : Type} (posix_join : string -> string -> string)
    (r : @Reader Data Err) (path : string) (g : @Loader Data Err) : Prop :=
  let r' := (read posix_join r path g).1 in
  let result := (read posix_join r path g).2 in
  exists s,
    loader_call g (length (calls r)) (loadPath posix_join r path) = inr s /\
    calls r' = calls r ++
      [mkCall (loader_id g) (getFullPath posix_join r path) (loadPath posix_join r path)] /\
    result = read_end (getFullPath posix_join r path)
               (inr {| promise_id := length (calls r); outcome := s |}).

(** C2, as stated, fails: the cache is a map from full paths to promises.
    After [read("a.md", f)], [read("a.md", g)] with another loader [g]
    returns the content [f] loaded, and [g] is never called. *)
Lemma read_slot_shared_by_loaders :
  let r1 := (read join_simple reader0 "a.md" loader_f).1 in
  loader_id loader_f <> loader_id loader_g /\
  read join_simple reader0 "a.md" loader_f = (r1, ReadOk "F:/site/a.md") /\
  read join_simple r1 "a.md" loader_g = (r1, ReadOk "F:/site/a.md") /\
  calls r1 = [mkCall 1 "/site/a.md" "/site/a.md"] /\
  ~ reads_with_own_loader join_simple r1 "a.md" loader_g.
Proof.
  cbv zeta. split; [vm_compute; discriminate|].
  split; [reflexivity|]. split; [reflexivity|]. split; [reflexivity|].
  intros (s & _ & Hcalls & _). vm_compute in Hcalls. discriminate.
Qed.

(** C2, amended: the read cache is keyed by the full path alone.  For every
    path [p] and loaders [f] and [g], once [read(p, f)] has filled the slot
    of [p], [read(p, g)] returns what [read(p, f)] returned, calls no
    loader and leaves the reader unchanged. *)
Theorem read_cache_keyed_by_path {Data Err : Type} (posix_join : string -> string -> string)
    (r : @Reader Data Err) (path : string) (f g : @Loader Data Err) :
  forall r1 p, read_begin posix_join r path f = (r1, inr p) ->
    read posix_join r1 path g = (r1, (read posix_join r path f).2) /\
    calls (read posix_join r1 path g).1 = calls r1.
Proof.
  intros r1 p Hfirst.
  assert (src r1 = src r /\ cache r1 !! getFullPath posix_join r path = Some p) as [Hsrc Hp].
  { unfold read_begin in Hfirst.
    destruct (cache r !! getFullPath posix_join r path) as [q|] eqn:Hq.
    - by injection Hfirst as <- <-.
    - destruct (loader_call f _ _) as [err|s]; [done|].
      injection Hfirst as <- <-. split; [done|]. apply lookup_insert_eq. }
  assert (getFullPath posix_join r1 path = getFullPath posix_join r path) as Hfp
    by by apply getFullPath_src.
  assert (read posix_join r1 path g = (r1, (read posix_join r path f).2)) as Hread.
  { unfold read. rewrite Hfirst.
    rewrite (read_begin_hit posix_join r1 path g p); [|by rewrite Hfp].
    by rewrite Hfp. }
  split; [exact Hread|]. by rewrite Hread.
Qed.

Lemma read_cache_keyed_by_path_witness :
  exists r1 p,
    read_begin join_simple reader0 "a.md" loader_f = (r1, inr p) /\
    read join_simple r1 "a.md" loader_g = (r1, ReadOk "F:/site/a.md").
Proof.
  eexists _, _. split; [reflexivity|].
  exact (proj1 (read_cache_keyed_by_path join_simple reader0 "a.md" loader_f loader_g
                  _ _ eq_refl)).
Defined.

(** *** Remote shadowing *)

(** C3: [getInfo] asks the local file system first.  For every path with a
    registered remote file: when the local stat succeeds, its info is
    returned and the remote entry is marked disabled, so that a load of the
    path goes to the local file; when the local stat raises [NotFound], the
    remote entry is enabled again, a load of the path goes to its URL, and
    the info of a zero-size file is returned.  Where only a remote directory
    is registered, [NotFound] yields the info of a zero-size directory, and
    where nothing is registered, [undefined].  Nothing else of the reader
    changes. *)
Theorem getInfo_remote_shadowing {Data Err : Type} (posix_join : string -> string -> string)
    (stat : string -> @StatResult Err) (r : @Reader Data Err) (path : string) :
  let fullPath := getFullPath posix_join r path in
  let r' := (getInfo posix_join stat r path).1 in
  let result := (getInfo posix_join stat r path).2 in
  (src r' = src r /\ cache r' = cache r /\ calls r' = calls r /\
   remoteDirectories r' = remoteDirectories r /\
   forall other, other <> fullPath -> remoteFiles r' !! other = remoteFiles r !! other) /\
  (forall remote info,
     remoteFiles r !! fullPath = Some remote -> stat fullPath = StatOk info ->
     result = Returned (Some info) /\
     remoteFiles r' !! fullPath = Some (set_disabled true remote) /\
     loadPath posix_join r' path = fullPath) /\
  (forall remote,
     remoteFiles r !! fullPath = Some remote -> stat fullPath = StatNotFound ->
     result = Returned (Some (remoteInfo true)) /\
     isFile (remoteInfo true) = true /\ isDirectory (remoteInfo true) = false /\
     size (remoteInfo true) = 0%Z /\
     remoteFiles r' !! fullPath = Some (set_disabled false remote) /\
     loadPath posix_join r' path = url remote) /\
  (remoteFiles r !! fullPath = None -> fullPath ∈ remoteDirectories r ->
     stat fullPath = StatNotFound ->
     result = Returned (Some (remoteInfo false)) /\
     isFile (remoteInfo false) = false /\ isDirectory (remoteInfo false) = true /\
     size (remoteInfo false) = 0%Z /\ r' = r) /\
  (remoteFiles r !! fullPath = None -> fullPath ∉ remoteDirectories r ->
     stat fullPath = StatNotFound ->
     result = Returned None /\ r' = r) /\
  (forall info,
     remoteFiles r !! fullPath = None -> stat fullPath = StatOk info ->
     result = Returned (Some info) /\ r' = r).
Proof.
  cbv zeta. unfold getInfo, loadPath.
  set (fullPath := getFullPath posix_join r path).
  split.
  { destruct (stat fullPath) as [info| |err], (remoteFiles r !! fullPath) as [rf|] eqn:Hrf;
      try destruct (bool_decide (fullPath ∈ remoteDirectories r)); simpl;
      repeat split; try done; intros other Hne; by rewrite lookup_insert_ne. }
  split.
  { intros remote info -> ->. simpl. split; [done|].
    change (getFullPath posix_join (with_remoteFiles _ r) path) with fullPath.
    rewrite lookup_insert_eq. done. }
  split.
  { intros remote -> ->. simpl. repeat (split; [done|]).
    change (getFullPath posix_join (with_remoteFiles _ r) path) with fullPath.
    rewrite lookup_insert_eq. done. }
  split.
  { intros -> Hdir ->. by rewrite bool_decide_eq_true_2. }
  split.
  { intros -> Hdir ->. by rewrite bool_decide_eq_false_2. }
  intros info -> ->. done.
Qed.

(** The scenario of the specification: a remote file registered at
    [a.html]; no local file, then a local file, then none again. *)
Lemma getInfo_remote_shadowing_witness :
  remoteFiles reader_remote !! getFullPath join_simple reader_remote "a.html"
    = Some {| filename := "a.html"; url := "https://example.com/a.html"; disabled := None |} /\
  let r1 := (getInfo join_simple stat_none reader_remote "a.html").1 in
  (getInfo join_simple stat_none reader_remote "a.html").2 = Returned (Some (remoteInfo true)) /\
  let r2 := (getInfo join_simple stat_local r1 "a.html").1 in
  (getInfo join_simple stat_local r1 "a.html").2 = Returned (Some local_info) /\
  loadPath join_simple r2 "a.html" = "/site/a.html" /\
  let r3 := (getInfo join_simple stat_none r2 "a.html").1 in
  (getInfo join_simple stat_none r2 "a.html").2 = Returned (Some (remoteInfo true)) /\
  loadPath join_simple r3 "a.html" = "https://example.com/a.html".
Proof.
  split; [reflexivity|]. cbv zeta.
  destruct (getInfo_remote_shadowing join_simple stat_none reader_remote "a.html")
    as (_ & _ & Hnone1 & _).
  destruct (Hnone1 _ eq_refl eq_refl) as (Hres1 & _ & _ & _ & Hrf1 & _).
  split; [exact Hres1|].
  destruct (getInfo_remote_shadowing join_simple stat_local
              (getInfo join_simple stat_none reader_remote "a.html").1 "a.html")
    as (_ & Hlocal & _).
  destruct (Hlocal _ local_info Hrf1 eq_refl) as (Hres2 & Hrf2 & Hload2).
  split; [exact Hres2|]. split; [exact Hload2|].
  destruct (getInfo_remote_shadowing join_simple stat_none
              (getInfo join_simple stat_local
                 (getInfo join_simple stat_none reader_remote "a.html").1 "a.html").1 "a.html")
    as (_ & _ & Hnone3 & _).
  destruct (Hnone3 _ Hrf2 eq_refl) as (Hres3 & _ & _ & _ & _ & Hload3).
  split; [exact Hres3|exact Hload3].
Defined.

(** *** Failed loads *)

(** The claim C8 about the path in the exception: it is the location the
    load was attempted at, that is the path handed to the loader. *)
Definition carries_load_path {Data Err : Type} (posix_join : string -> string -> string)
    (r : @Reader Data Err) (path : string) (result : @ReadResult Data Err) : Prop :=
  match result with
  | ReadThrow e => fullpath e = loadPath posix_join r path
  | ReadOk _ => True
  end.

(** C8, as stated, fails: with an active remote file at [a.html] the loader
    is called on the URL, and when its promise rejects the exception
    carries the local full path [/site/a.html], not the URL. *)
Lemma read_exception_has_local_path :
  let r' := (read join_simple reader_remote "a.html" loader_failing).1 in
  let result := (read join_simple reader_remote "a.html" loader_failing).2 in
  loadPath join_simple reader_remote "a.html" = "https://example.com/a.html" /\
  calls r' = [mkCall 3 "/site/a.html" "https://example.com/a.html"] /\
  result = ReadThrow {| message := "Couldn't load this file";
                        cause := "connection refused"; fullpath := "/site/a.html" |} /\
  ~ carries_load_path join_simple reader_remote "a.html" result.
Proof.
  cbv zeta. split; [reflexivity|]. split; [reflexivity|]. split; [reflexivity|].
  intros H. vm_compute in H. discriminate.
Qed.

(** C8, amended: for every path and loader, if the load fails (the loader
    throws when called, or the promise it returned, or the promise found in
    the cache, rejects) with error [err], then [read] raises an exception
    with message "Couldn't load this file" whose cause is [err] and which
    carries the local full path [getFullPath(path)], also when the loader
    was called on the URL of a remote file. *)
Theorem read_failure_exception {Data Err : Type} (posix_join : string -> string -> string)
    (r : @Reader Data Err) (path : string) (loader : @Loader Data Err) (err : Err) :
  let fullpath := getFullPath posix_join r path in
  (cache r !! fullpath = None /\
   (loader_call loader (length (calls r)) (loadPath posix_join r path) = inl err \/
    loader_call loader (length (calls r)) (loadPath posix_join r path) = inr (Rejected err))) \/
  (exists p, cache r !! fullpath = Some p /\ outcome p = Rejected err) ->
  (read posix_join r path loader).2 =
    ReadThrow {| message := "Couldn't load this file"; cause := err; fullpath := fullpath |}.
Proof.
  cbv zeta. unfold read, read_begin.
  intros [[Hmiss [Hcall|Hcall]]|(p & Hhit & Hrej)].
  - by rewrite Hmiss, Hcall.
  - by rewrite Hmiss, Hcall.
  - rewrite Hhit. simpl. by rewrite Hrej.
Qed.

Lemma read_failure_exception_witness :
  cache reader_remote !! getFullPath join_simple reader_remote "a.html" = None /\
  loader_call loader_failing (length (calls reader_remote))
    (loadPath join_simple reader_remote "a.html") = inr (Rejected "connection refused") /\
  (read join_simple reader_remote "a.html" loader_failing).2 =
    ReadThrow {| message := "Couldn't load this file"; cause := "connection refused";
                 fullpath := "/site/a.html" |}.
Proof.
  split; [reflexivity|]. split; [reflexivity|].
  apply (read_failure_exception join_simple reader_remote "a.html" loader_failing
           "connection refused").
  left. split; [reflexivity|]. right. reflexivity.
Defined.

(** *** Witnesses of the further properties *)

Lemma remoteFile_registers_witness :
  remoteFile join_simple dirname_flat 0 reader0 "a.html" "https://example.com/a.html"
    = Some reader_remote /\
  loadPath join_simple reader_remote "a.html" = "https://example.com/a.html" /\
  cache reader_remote = cache reader0.
Proof.
  split; [reflexivity|].
  destruct (remoteFile_registers join_simple dirname_flat 0 reader0 reader_remote
              "a.html" "https://example.com/a.html" eq_refl)
    as (_ & Hload & _ & _ & _ & Hcache & _).
  split; [exact Hload|exact Hcache].
Defined.

(** [posix.dirname] on ["/a.html"] and on ["/"] *)
(** [posix.dirname] on the names of the example: ["/a/b.html"], ["/a"],
    ["/"] and ["."]. *)
Definition dirname_abs (path : string) : string :=
  if String.eqb path "." then "."
  else if String.eqb path "/a/b.html" then "/a"
  else "/".

Lemma remoteFile_diverges_witness :
  Nat.iter 1 dirname_abs (dirname_abs "/a/b.html") = "/" /\
  remoteFile join_simple dirname_abs 1000 reader0 "/a/b.html" "https://example.com/b.html"
    = None.
Proof.
  split; [reflexivity|].
  assert ("/" <> ".") as Hne by discriminate.
  exact (remoteFile_diverges join_simple dirname_abs 1000 1 reader0 "/a/b.html"
           "https://example.com/b.html" "/" eq_refl eq_refl eq_refl Hne).
Defined.

Lemma read_failure_cached_witness :
  cache reader_remote !! getFullPath join_simple reader_remote "a.html" = None /\
  read join_simple (read join_simple reader_remote "a.html" loader_failing).1 "a.html" loader_f =
    ((read join_simple reader_remote "a.html" loader_failing).1,
     ReadThrow {| message := "Couldn't load this file"; cause := "connection refused";
                  fullpath := "/site/a.html" |}).
Proof.
  split; [reflexivity|].
  exact (proj1 (read_failure_cached join_simple reader_remote "a.html" loader_failing
                  loader_f "connection refused" eq_refl) eq_refl).
Defined.

(** A directory with a local [a.html] and two remote files. *)
Definition reader_two_remotes : @Reader string string :=
  {| src := "/site"; cache := ∅;
     remoteFiles := {[
       "/site/a.html" :=
         {| filename := "a.html"; url := "https://example.com/a.html"; disabled := None |};
       "/site/b.html" :=
         {| filename := "b.html"; url := "https://example.com/b.html"; disabled := None |} ]};
     remoteDirectories := ∅; calls := [] |}.

(** [posix.join], [posix.dirname] and [posix.basename] on the paths of this
    example: the source directory joined with [""], and files directly in
    [/site]. *)
Definition join_root (a _ : string) : string := a.
Definition dirname_site (s : string) : string := substring 0 5 s.
Definition basename_site (s : string) : string := substring 6 (String.length s - 6) s.

Definition local_a : list DirEntry :=
  [ {| entry_name := "a.html"; entry_isFile := true; entry_isDirectory := false;
       entry_isSymlink := false |} ].

Example readDir_two_remotes :
  let r' := (readDir join_root dirname_site basename_site local_a reader_two_remotes "").1 in
  (readDir join_root dirname_site basename_site local_a reader_two_remotes "").2 =
    local_a ++ [remoteFileEntry "b.html"] /\
  disabled <$> remoteFiles r' !! "/site/a.html" = Some (Some true) /\
  disabled <$> remoteFiles r' !! "/site/b.html" = Some (Some false).
Proof. repeat split; reflexivity. Qed.

End Reader.

(** ** [utils.js]: [concurrent]

    The function runs on the event loop: between two of its own steps any
    started invocation may settle, and the [then] callback of a fulfilled
    one runs some time after.  It is modelled as a transition system whose
    states hold the array [executing], the status of every invocation
    started so far and the point the function has reached. *)

Module Concurrent.

(** The promise [iteratorFn(item)] of an invocation and the promise [p]
    derived from it by [then]. *)
Inductive status : Type :=
  | Pending      (* iteratorFn(item) is not settled *)
  | Fulfilled    (* iteratorFn(item) is fulfilled, the callback has not run yet *)
  | Spliced      (* the callback has run: p is out of the array and fulfilled *)
  | Failed.      (* iteratorFn(item) is rejected, and so is p; no callback runs *)

Global Instance status_eq_dec : EqDecision status.
Proof. solve_decision. Defined.

Inductive pc : Type :=
  | Loop                              (* in the for-await loop, between two items *)
  | AwaitRace (snapshot : list nat)   (* at [await Promise.race(executing)] *)
  | AwaitAll (snapshot : list nat)    (* at [await Promise.all(executing)] *)
  | Resolved                          (* the function's promise is fulfilled *)
  | Rejected.                         (* the function's promise is rejected *)

Section Concurrent.
Context {Item : Type}.

Record state : Type := mkState {
  items : list Item;         (* what the iterable has still to yield *)
  tasks : list status;       (* invocation [t] is the [t]-th call of iteratorFn *)
  executing : list nat;      (* the array, holding the [p] of these invocations *)
  at_pc : pc
}.

(** [executing.indexOf(p)], [None] for [-1]. *)
Fixpoint indexOf (l : list nat) (t : nat) : option nat :=
  match l with
  | [] => None
  | x :: l' => if decide (x = t) then Some 0 else S <$> indexOf l' t
  end.

(** [executing.splice(i, 1)]; the index [-1] counts from the end, so it
    removes the last element. *)
Definition splice1 (l : list nat) (i : option nat) : list nat :=
  match i with
  | Some i => delete i l
  | None => removelast l
  end.

(** [executing.length >= limit] *)
Definition full (limit : Z) (l : list nat) : bool := (limit <=? Z.of_nat (length l))%Z.

Definition set_status (t : nat) (st : status) (s : state) : state :=
  {| items := items s; tasks := <[t := st]> (tasks s); executing := executing s;
     at_pc := at_pc s |}.

Definition set_pc (p : pc) (s : state) : state :=
  {| items := items s; tasks := tasks s; executing := executing s; at_pc := p |}.

Inductive step (limit : Z) : state -> state -> Prop :=
  (* the loop takes the next item: [iteratorFn(item).then(...)], [push], test *)
  | step_item item rest s :
      at_pc s = Loop -> items s = item :: rest ->
      step limit s
        {| items := rest; tasks := tasks s ++ [Pending];
           executing := executing s ++ [length (tasks s)];
           at_pc := if full limit (executing s ++ [length (tasks s)])
                    then AwaitRace (executing s ++ [length (tasks s)]) else Loop |}
  (* the iterable or the call of iteratorFn throws *)
  | step_throw s :
      at_pc s = Loop -> step limit s (set_pc Rejected s)
  (* the iterable is exhausted: [await Promise.all(executing)] *)
  | step_exhausted s :
      at_pc s = Loop -> items s = [] ->
      step limit s (set_pc (AwaitAll (executing s)) s)
  (* an invocation settles *)
  | step_fulfil t s :
      tasks s !! t = Some Pending -> step limit s (set_status t Fulfilled s)
  | step_reject t s :
      tasks s !! t = Some Pending -> step limit s (set_status t Failed s)
  (* the callback: [executing.splice(executing.indexOf(p), 1)] *)
  | step_callback t s :
      tasks s !! t = Some Fulfilled ->
      step limit s
        {| items := items s; tasks := <[t := Spliced]> (tasks s);
           executing := splice1 (executing s) (indexOf (executing s) t);
           at_pc := at_pc s |}
  (* the race is won by a fulfilled [p], or by a rejected one *)
  | step_race_won t snapshot s :
      at_pc s = AwaitRace snapshot -> t ∈ snapshot -> tasks s !! t = Some Spliced ->
      step limit s (set_pc Loop s)
  | step_race_lost t snapshot s :
      at_pc s = AwaitRace snapshot -> t ∈ snapshot -> tasks s !! t = Some Failed ->
      step limit s (set_pc Rejected s)
  (* [Promise.all]: every [p] fulfilled, or one rejected *)
  | step_all_done snapshot s :
      at_pc s = AwaitAll snapshot ->
      (forall t, t ∈ snapshot -> tasks s !! t = Some Spliced) ->
      step limit s (set_pc Resolved s)
  | step_all_failed t snapshot s :
      at_pc s = AwaitAll snapshot -> t ∈ snapshot -> tasks s !! t = Some Failed ->
      step limit s (set_pc Rejected s).

(** [concurrent(iterable, iteratorFn, limit)] starts with an empty array. *)
Definition init (l : list Item) : state :=
  {| items := l; tasks := []; executing := []; at_pc := Loop |}.

(** The invocations that are pending in a state. *)
Definition pending (s : state) : list nat :=
  filter (fun t => tasks s !! t = Some Pending) (seq 0 (length (tasks s))).

(** *** The array *)

Lemma splice_indexOf (l : list nat) (t : nat) :
  NoDup l -> t ∈ l ->
  NoDup (splice1 l (indexOf l t)) /\
  (forall x, x ∈ splice1 l (indexOf l t) <-> x ∈ l /\ x <> t) /\
  S (length (splice1 l (indexOf l t))) = length l.
Proof.
  induction l as [|x l IH]; intros Hnd Hin; [by apply elem_of_nil in Hin|].
  apply NoDup_cons in Hnd as [Hx Hnd]. simpl. destruct (decide (x = t)) as [->|Hne].
  - simpl. split; [done|]. split; [|done]. intros y. rewrite elem_of_cons.
    split; [intros Hy; split; [by right|by intros ->]|by intros [[->|Hy] Hne]].
  - apply elem_of_cons in Hin as [->|Hin]; [done|].
    destruct (IH Hnd Hin) as (Hnd' & Hmem & Hlen).
    destruct (indexOf l t) as [i|] eqn:Hi; simpl in *.
    + split.
      { apply NoDup_cons. split; [|done]. intros Hx'. apply Hmem in Hx' as [Hx' _]. done. }
      split; [|by rewrite Hlen].
      intros y. rewrite !elem_of_cons, Hmem. split.
      * intros [->|[Hy Hyt]]; [split; [by left|done]|split; [by right|done]].
      * intros [[->|Hy] Hyt]; [by left|by right].
    + exfalso. clear -Hin Hi. induction l as [|y l IHl]; [by apply elem_of_nil in Hin|].
      simpl in Hi. destruct (decide (y = t)); [done|].
      apply elem_of_cons in Hin as [->|Hin]; [done|].
      destruct (indexOf l t); [done|]. by apply IHl.
Qed.

Lemma length_lt_of_missing (l k : list nat) (t : nat) :
  NoDup l -> (forall x, x ∈ l -> x ∈ k) -> t ∈ k -> t ∉ l -> length l < length k.
Proof.
  intros Hnd Hsub Hk Hl.
  assert (t :: l ⊆+ k) as Hsm.
  { apply NoDup_submseteq; [by apply NoDup_cons|].
    intros x Hx. apply elem_of_cons in Hx as [->|Hx]; auto. }
  apply submseteq_length in Hsm. simpl in Hsm. lia.
Qed.

(** *** The invariant *)

Definition inv (limit : Z) (s : state) : Prop :=
  NoDup (executing s) /\
  (forall t, t ∈ executing s -> exists st, tasks s !! t = Some st /\ st <> Spliced) /\
  (forall t st, tasks s !! t = Some st -> st <> Spliced -> t ∈ executing s) /\
  (Z.of_nat (length (executing s)) <= Z.max limit 1)%Z /\
  match at_pc s with
  | Loop => (Z.of_nat (length (executing s)) < Z.max limit 1)%Z
  | AwaitRace snapshot =>
      NoDup snapshot /\ (forall t, t ∈ executing s -> t ∈ snapshot) /\
      (Z.of_nat (length snapshot) <= Z.max limit 1)%Z
  | AwaitAll snapshot => (forall t, t ∈ executing s -> t ∈ snapshot) /\ items s = []
  | Resolved => executing s = [] /\ items s = []
  | Rejected => True
  end.

Lemma inv_init (limit : Z) (l : list Item) : inv limit (init l).
Proof.
  unfold inv, init; simpl. split; [apply NoDup_nil_2|].
  split; [intros t Ht; by apply elem_of_nil in Ht|].
  split; [intros t st Ht; by rewrite lookup_nil in Ht|]. lia.
Qed.

Lemma inv_set_status (limit : Z) (s : state) (t : nat) (st : status) :
  tasks s !! t = Some Pending -> st <> Spliced -> inv limit s -> inv limit (set_status t st s).
Proof.
  intros Ht Hst (Hnd & Hb & Hc & He & Hpc). unfold inv; simpl.
  split; [done|]. split.
  { intros t' Ht'. destruct (decide (t' = t)) as [->|Hne].
    - exists st. split; [|done]. apply list_lookup_insert_eq. by eapply lookup_lt_Some.
    - rewrite list_lookup_insert_ne by done. by apply Hb. }
  split; [|done].
  intros t' st' Ht' Hst'. destruct (decide (t' = t)) as [->|Hne].
  - by apply (Hc t Pending).
  - rewrite list_lookup_insert_ne in Ht' by done. by apply (Hc t' st').
Qed.

Lemma inv_set_pc_Rejected (limit : Z) (s : state) :
  inv limit s -> inv limit (set_pc Rejected s).
Proof. intros (Hnd & Hb & Hc & He & _). by unfold inv. Qed.

Lemma inv_step (limit : Z) (s s' : state) : step limit s s' -> inv limit s -> inv limit s'.
Proof.
  intros Hstep Hinv. destruct Hstep as
    [item rest s Hpc Hitems|s Hpc|s Hpc Hitems|t s Ht|t s Ht|t s Ht
    |t snapshot s Hpc Hin Ht|t snapshot s Hpc Hin Ht|snapshot s Hpc Hall
    |t snapshot s Hpc Hin Ht].
  - (* next item *)
    destruct Hinv as (Hnd & Hb & Hc & He & Hloop). rewrite Hpc in Hloop.
    assert (length (tasks s) ∉ executing s) as Hfresh.
    { intros Hin. destruct (Hb _ Hin) as (st & Hst & _).
      apply lookup_lt_Some in Hst. lia. }
    assert (NoDup (executing s ++ [length (tasks s)])) as Hnd'.
    { apply NoDup_app. split; [done|]. split; [|apply NoDup_singleton].
      intros x Hx Hx'. apply list_elem_of_singleton in Hx' as ->. done. }
    assert (Z.of_nat (length (executing s ++ [length (tasks s)])) <= Z.max limit 1)%Z as He'.
    { rewrite length_app. simpl. lia. }
    unfold inv; simpl. split; [done|]. split.
    { intros t Hin. apply elem_of_app in Hin as [Hin|Hin].
      - destruct (Hb _ Hin) as (st & Hst & Hne). exists st. split; [|done].
        by apply lookup_app_l_Some.
      - apply list_elem_of_singleton in Hin as ->. exists Pending. split; [|done].
        by rewrite lookup_app_r, Nat.sub_diag. }
    split.
    { intros t st Hst Hne. apply elem_of_app.
      destruct (decide (t < length (tasks s))) as [Hlt|Hge].
      - left. rewrite lookup_app_l in Hst by done. by apply (Hc t st).
      - right. apply lookup_lt_Some in Hst. rewrite length_app in Hst. simpl in Hst.
        apply list_elem_of_singleton. lia. }
    split; [done|].
    unfold full. destruct (Z.leb_spec limit (Z.of_nat (length (executing s ++ [length (tasks s)]))))
      as [Hfull|Hroom]; simpl.
    + split; [done|]. split; [done|done].
    + lia.
  - by apply inv_set_pc_Rejected.
  - destruct Hinv as (Hnd & Hb & Hc & He & _). unfold inv; simpl. by repeat split.
  - by apply inv_set_status.
  - by apply inv_set_status.
  - (* the callback *)
    destruct Hinv as (Hnd & Hb & Hc & He & Hat).
    assert (t ∈ executing s) as Hin by by apply (Hc t Fulfilled).
    destruct (splice_indexOf _ _ Hnd Hin) as (Hnd' & Hmem & Hlen).
    unfold inv; simpl. split; [done|]. split.
    { intros t' Ht'. apply Hmem in Ht' as [Ht' Hne].
      rewrite list_lookup_insert_ne by done. by apply Hb. }
    split.
    { intros t' st Hst Hne. destruct (decide (t' = t)) as [->|Hne'].
      - rewrite list_lookup_insert_eq in Hst by (by eapply lookup_lt_Some). congruence.
      - rewrite list_lookup_insert_ne in Hst by done. apply Hmem. split; [|done].
        by apply (Hc t' st). }
    split; [lia|].
    destruct (at_pc s) as [|snapshot|snapshot| |].
    + lia.
    + destruct Hat as (Hs & Hsub & Hl). split; [done|]. split; [|done].
      intros t' Ht'. apply Hsub. by apply Hmem in Ht' as [Ht' _].
    + destruct Hat as (Hsub & Hitems). split; [|done].
      intros t' Ht'. apply Hsub. by apply Hmem in Ht' as [Ht' _].
    + destruct Hat as [Hnil _]. rewrite Hnil in Hin. by apply elem_of_nil in Hin.
    + done.
  - (* the race is won *)
    destruct Hinv as (Hnd & Hb & Hc & He & Hat). rewrite Hpc in Hat.
    destruct Hat as (Hs & Hsub & Hl). unfold inv; simpl. repeat (split; [done|]).
    assert (t ∉ executing s) as Hout.
    { intros Hin'. destruct (Hb _ Hin') as (st & Hst & Hne). congruence. }
    pose proof (length_lt_of_missing _ _ _ Hnd Hsub Hin Hout). lia.
  - by apply inv_set_pc_Rejected.
  - (* every promise of the snapshot is fulfilled *)
    destruct Hinv as (Hnd & Hb & Hc & He & Hat). rewrite Hpc in Hat.
    destruct Hat as (Hsub & Hitems). unfold inv; simpl. repeat (split; [done|]).
    split; [|done]. destruct (executing s) as [|t l] eqn:Hex; [done|]. exfalso.
    assert (t ∈ t :: l) as Hin by by left.
    destruct (Hb _ Hin) as (st & Hst & Hne). rewrite (Hall _ (Hsub _ Hin)) in Hst. congruence.
  - by apply inv_set_pc_Rejected.
Qed.

Lemma inv_reachable (limit : Z) (l : list Item) (s : state) :
  rtc (step limit) (init l) s -> inv limit s.
Proof.
  intros Hrtc.
  eapply (rtc_ind_r (fun s => inv limit s)); [apply inv_init| |exact Hrtc].
  intros y z _ Hstep IH. by eapply inv_step.
Qed.

Lemma pending_executing (limit : Z) (s : state) :
  inv limit s -> length (pending s) <= length (executing s).
Proof.
  intros (Hnd & Hb & Hc & _). apply submseteq_length, NoDup_submseteq.
  - unfold pending. apply NoDup_filter, NoDup_seq.
  - intros t Ht. unfold pending in Ht. apply list_elem_of_filter in Ht as [Ht _].
    by apply (Hc t Pending).
Qed.

(** *** Further properties of [concurrent] *)

(** X7: whatever the limit, also zero or negative, at most [max limit 1]
    invocations are pending at a time: with a limit below one the function
    still makes progress, one invocation after the other. *)
Theorem concurrent_bounded_any_limit (limit : Z) (l : list Item) (s : state) :
  rtc (step limit) (init l) s ->
  (Z.of_nat (length (pending s)) <= Z.max limit 1)%Z.
Proof.
  intros Hreach. pose proof (inv_reachable _ _ _ Hreach) as Hinv.
  pose proof (pending_executing _ _ Hinv) as Hpending.
  destruct Hinv as (_ & _ & _ & He & _). lia.
Qed.

(** X8: [iteratorFn] is called on the items in order, once each: at any
    time the invocations started are as many as the items taken from the
    iterable, and when the function's promise is resolved there has been
    exactly one invocation per item. *)
Theorem concurrent_once_per_item (limit : Z) (l : list Item) (s : state) :
  rtc (step limit) (init l) s ->
  (exists taken, l = taken ++ items s /\ length taken = length (tasks s)) /\
  (at_pc s = Resolved -> length (tasks s) = length l).
Proof.
  intros Hreach.
  assert (exists taken, l = taken ++ items s /\ length taken = length (tasks s)) as Htaken.
  { eapply (rtc_ind_r (fun s => exists taken, l = taken ++ items s /\
                                  length taken = length (tasks s)) (init l));
      [exists (@nil Item); split; reflexivity| |exact Hreach].
    intros y z _ Hstep (taken & Hl & Hlen).
    destruct Hstep as
      [item rest s0 Hpc Hitems|s0 Hpc|s0 Hpc Hitems|t s0 Ht|t s0 Ht|t s0 Ht
      |t snapshot s0 Hpc Hin Ht|t snapshot s0 Hpc Hin Ht|snapshot s0 Hpc Hall
      |t snapshot s0 Hpc Hin Ht]; simpl;
      try (exists taken; split; [done|]; by rewrite ?length_insert).
    exists (taken ++ [item]). rewrite Hitems in Hl. split.
    - by rewrite <- app_assoc.
    - rewrite !length_app. simpl. lia. }
  split; [exact Htaken|]. intros Hpc.
  destruct (inv_reachable _ _ _ Hreach) as (_ & _ & _ & _ & Hat). rewrite Hpc in Hat.
  destruct Hat as [_ Hitems]. destruct Htaken as (taken & -> & Hlen).
  rewrite Hitems, app_nil_r. done.
Qed.

(** X9: [Promise.race] is never awaited on an empty array (which would
    never settle): whenever the function waits at the race, the array it
    passed holds at least one promise, each of them the promise of an
    invocation that was started. *)
Theorem concurrent_race_not_empty (limit : Z) (l : list Item) (s : state)
    (snapshot : list nat) :
  rtc (step limit) (init l) s -> at_pc s = AwaitRace snapshot ->
  snapshot <> [] /\ forall t, t ∈ snapshot -> is_Some (tasks s !! t).
Proof.
  intros Hreach. revert snapshot.
  eapply (rtc_ind_r (fun s => forall snapshot, at_pc s = AwaitRace snapshot ->
            snapshot <> [] /\ forall t, t ∈ snapshot -> is_Some (tasks s !! t)) (init l));
    [done| |exact Hreach].
  intros y z Hy Hstep IH snapshot.
  pose proof (inv_reachable _ _ _ Hy) as (_ & Hb & _).
  destruct Hstep as
    [item rest s0 Hpc Hitems|s0 Hpc|s0 Hpc Hitems|t s0 Ht|t s0 Ht|t s0 Ht
    |t snapshot' s0 Hpc Hin Ht|t snapshot' s0 Hpc Hin Ht|snapshot' s0 Hpc Hall
    |t snapshot' s0 Hpc Hin Ht]; simpl; try done.
  - destruct (full limit (executing s0 ++ [length (tasks s0)])); [|done].
    intros [= <-]. split; [by destruct (executing s0)|].
    intros t Ht. apply lookup_lt_is_Some. rewrite length_app. simpl.
    apply elem_of_app in Ht as [Ht|Ht].
    + destruct (Hb _ Ht) as (st & Hst & _). apply lookup_lt_Some in Hst. lia.
    + apply list_elem_of_singleton in Ht as ->. lia.
  - intros Hpc. destruct (IH _ Hpc) as [Hne Hin]. split; [done|].
    intros t' Ht'. apply lookup_lt_is_Some. rewrite length_insert.
    apply lookup_lt_is_Some. by apply Hin.
  - intros Hpc. destruct (IH _ Hpc) as [Hne Hin]. split; [done|].
    intros t' Ht'. apply lookup_lt_is_Some. rewrite length_insert.
    apply lookup_lt_is_Some. by apply Hin.
  - intros Hpc. destruct (IH _ Hpc) as [Hne Hin]. split; [done|].
    intros t' Ht'. apply lookup_lt_is_Some. rewrite length_insert.
    apply lookup_lt_is_Some. by apply Hin.
Qed.

End Concurrent.


(** A complete run on one item with limit 1: the item is taken, the race is
    awaited, the invocation is fulfilled, its callback runs, the loop
    resumes and ends, and [Promise.all] of the empty array resolves. *)
Definition run_one : list (@state nat) :=
  [ {| items := []; tasks := [Pending]; executing := [0]; at_pc := AwaitRace [0] |};
    {| items := []; tasks := [Fulfilled]; executing := [0]; at_pc := AwaitRace [0] |};
    {| items := []; tasks := [Spliced]; executing := []; at_pc := AwaitRace [0] |};
    {| items := []; tasks := [Spliced]; executing := []; at_pc := Loop |};
    {| items := []; tasks := [Spliced]; executing := []; at_pc := AwaitAll [] |};
    {| items := []; tasks := [Spliced]; executing := []; at_pc := Resolved |} ].

Lemma run_one_reachable :
  rtc (step 1) (init [7])
    {| items := []; tasks := [Spliced]; executing := []; at_pc := Resolved |}.
Proof.
  eapply rtc_l; [exact (step_item 1 7 [] (init [7]) eq_refl eq_refl)|].
  eapply rtc_l; [exact (step_fulfil 1 0 (default (init []) (run_one !! 0)) eq_refl)|].
  eapply rtc_l; [exact (step_callback 1 0 (default (init []) (run_one !! 1)) eq_refl)|].
  eapply rtc_l;
    [exact (step_race_won 1 0 [0] (default (init []) (run_one !! 2)) eq_refl
              (list_elem_of_here 0 []) eq_refl)|].
  eapply rtc_l; [exact (step_exhausted 1 (default (init []) (run_one !! 3)) eq_refl eq_refl)|].
  eapply rtc_l; [|apply rtc_refl].
  refine (step_all_done 1 [] (default (init []) (run_one !! 4)) eq_refl _).
  intros t Ht. by apply elem_of_nil in Ht.
Defined.


Lemma concurrent_bounded_any_limit_witness :
  exists s : @state nat,
    rtc (step 0) (init [7]) s /\ length (pending s) = 1 /\
    (Z.of_nat (length (pending s)) <= Z.max 0 1)%Z.
Proof.
  assert (rtc (step 0) (init [7])
            {| items := []; tasks := [Pending]; executing := [0]; at_pc := AwaitRace [0] |})
    as Hreach.
  { eapply rtc_l; [exact (step_item 0 7 [] (init [7]) eq_refl eq_refl)|apply rtc_refl]. }
  eexists. split; [exact Hreach|]. split; [reflexivity|].
  exact (concurrent_bounded_any_limit 0 [7] _ Hreach).
Defined.

Lemma concurrent_once_per_item_witness :
  let s := {| items := []; tasks := [Spliced]; executing := []; at_pc := Resolved |} in
  rtc (step 1) (init [7]) s /\ length (tasks s) = length [7].
Proof.
  cbv zeta. split; [exact run_one_reachable|].
  exact (proj2 (concurrent_once_per_item 1 [7] _ run_one_reachable) eq_refl).
Defined.

Lemma concurrent_race_not_empty_witness :
  let s := {| items := []; tasks := [Pending]; executing := [0]; at_pc := AwaitRace [0] |} in
  rtc (step 1) (init [7]) s /\ [0] <> [] /\
  forall t, t ∈ [0] -> is_Some (tasks s !! t).
Proof.
  cbv zeta.
  assert (rtc (step 1) (init [7])
            {| items := []; tasks := [Pending]; executing := [0]; at_pc := AwaitRace [0] |})
    as Hreach.
  { eapply rtc_l; [exact (step_item 1 7 [] (init [7]) eq_refl eq_refl)|apply rtc_refl]. }
  split; [exact Hreach|].
  exact (concurrent_race_not_empty 1 [7] _ [0] Hreach eq_refl).
Defined.

(** With a limit below one the test [executing.length >= limit] holds after
    every [push], so one invocation runs at a time: the bound is
    [max limit 1]. *)
Lemma concurrent_limit_zero :
  exists s : @state nat, rtc (step 0) (init [7]) s /\ length (pending s) = 1.
Proof.
  eexists. split.
  - eapply rtc_l; [exact (step_item 0 7 [] (init [7]) eq_refl eq_refl)|apply rtc_refl].
  - reflexivity.
Qed.

End Concurrent.

(** ** [core/site.ts]: the build and update cycles *)

Module Site.

(** [page.data.url]: [false], a string, or not set. *)
Inductive Url : Type :=
  | UrlFalse
  | UrlUndefined
  | UrlString (s : string).

Global Instance Url_eq_dec : EqDecision Url.
Proof. solve_decision. Defined.

(** [page.content]: text or binary. *)
Inductive Content : Type :=
  | Text (s : string)
  | Binary (bytes : list N).

Record Page : Type := mkPage {
  src_entry : nat;               (* page.src.entry, by identity *)
  outputPath : string;
  data_url : Url;
  data_ondemand : bool;          (* page.data.ondemand, as a condition *)
  content : option Content
}.

Record StaticFile : Type := mkStaticFile {
  entry : nat;
  file_outputPath : string
}.

Inductive EventType : Type :=
  | beforeBuild | afterBuild | beforeUpdate | afterUpdate
  | beforeRender | afterRender | beforeRenderOnDemand | beforeSave
  | afterStartServer.

Inductive Event : Type :=
  | EvBeforeBuild
  | EvAfterBuild (pages : list Page) (staticFiles : list StaticFile)
  | EvBeforeUpdate (files : list string)
  | EvAfterUpdate (files : list string) (pages : list Page) (staticFiles : list StaticFile)
  | EvBeforeRender (pages : list Page)
  | EvAfterRender (pages : list Page)
  | EvBeforeSave.

Definition event_type (e : Event) : EventType :=
  match e with
  | EvBeforeBuild => beforeBuild
  | EvAfterBuild _ _ => afterBuild
  | EvBeforeUpdate _ => beforeUpdate
  | EvAfterUpdate _ _ _ => afterUpdate
  | EvBeforeRender _ => beforeRender
  | EvAfterRender _ => afterRender
  | EvBeforeSave => beforeSave
  end.

(** The filters handed to [source.build]. *)
Inductive SourceFilter : Type :=
  | FilterDraft (isDev : bool)          (* (_, page) => !page?.data.draft || isDev *)
  | FilterScope (files : list string).  (* this.scopes.getFilter(files) *)

(** What a cycle does to the world outside the [Site] object, in order. *)
Inductive Action : Type :=
  | ADispatch (type : EventType) (result : bool)   (* dispatchEvent returned [result] *)
  | AWriterClear
  | AFsInit
  | ASourceBuild (filters : list SourceFilter)
  | ARenderPages (pages : list Page)
  | AProcessorsRun (pages : list Page)
  | ASavePages (pages : list Page)
  | ACopyFiles (files : list StaticFile)
  | ARemoveFiles (paths : list string)
  | ASearcherDeleteCache
  | AFormatsDeleteCache (file : string)
  | AFsUpdate (file : string)
  | ALoggerWarn (msg : string)
  | ALoggerLog.

(** The fields of [Site] the two cycles read and write. *)
Record Site : Type := mkSite {
  emptyDest : bool;               (* this.options.emptyDest *)
  pages : list Page;
  onDemandPages : list Page;
  files : list StaticFile
}.

Definition set_pages (ps : list Page) (s : Site) : Site :=
  {| emptyDest := emptyDest s; pages := ps; onDemandPages := onDemandPages s;
     files := files s |}.
Definition set_onDemandPages (ps : list Page) (s : Site) : Site :=
  {| emptyDest := emptyDest s; pages := pages s; onDemandPages := ps; files := files s |}.
Definition set_files (fs : list StaticFile) (s : Site) : Site :=
  {| emptyDest := emptyDest s; pages := pages s; onDemandPages := onDemandPages s;
     files := fs |}.

(** *** Pages and the filter of [#buildPages] *)

(** [!page.content]: no content, or the empty string; a [Uint8Array] is an
    object and so never falsy, whatever its length. *)
Definition content_falsy (c : option Content) : bool :=
  match c with
  | None => true
  | Some (Text s) => String.eqb s ""
  | Some (Binary _) => false
  end.

(** [const shouldSkip = !page.content || page.data.ondemand] *)
Definition shouldSkip (p : Page) : bool := content_falsy (content p) || data_ondemand p.

(** [`${page.data.url}`] *)
Definition url_string (u : Url) : string :=
  match u with
  | UrlFalse => "false"
  | UrlUndefined => "undefined"
  | UrlString s => s
  end.

Definition skip_reason (p : Page) : string :=
  if data_ondemand p then "page is build only on demand" else "file content is empty".

Definition skip_message (p : Page) : string :=
  "Skipped page " +:+ url_string (data_url p) +:+ " (" +:+ skip_reason p +:+ ")".

(** The callback of [this.pages.filter(...)]: the warning it logs, if any,
    and whether the page is kept.
<<
        if (page.data.url === false) { return false; }
        const shouldSkip = !page.content || page.data.ondemand;
        if (shouldSkip) { this.logger.warn(`Skipped page ...`); }
        return !shouldSkip;
>> *)
Definition filterPage (p : Page) : list Action * bool :=
  if decide (data_url p = UrlFalse) then ([], false)
  else if shouldSkip p then ([ALoggerWarn (skip_message p)], false)
  else ([], true).

(** [this.pages.filter(callback)]: the warnings in the order of the pages,
    and the pages kept. *)
Fixpoint filterPages (ps : list Page) : list Action * list Page :=
  match ps with
  | [] => ([], [])
  | p :: rest =>
      let '(w, keep) := filterPage p in
      let '(ws, kept) := filterPages rest in
      (w ++ ws, if keep then p :: kept else kept)
  end.

(** [`${page.content}`] *)
Definition content_string (c : option Content) : string :=
  match c with
  | None => "undefined"
  | Some (Text s) => s
  | Some (Binary bytes) => String.concat "," (map pretty bytes)
  end.

Definition set_content (c : option Content) (p : Page) : Page :=
  {| src_entry := src_entry p; outputPath := outputPath p; data_url := data_url p;
     data_ondemand := data_ondemand p; content := c |}.

(** One round of the loop over the components' extra code:
<<
      const exists = this.pages.find((page) => page.data.url === extra.data.url);
      if (exists) { exists.content = `${exists.content}\n${extra.content}`; }
      else { this.pages.push(extra); }
>> *)
Fixpoint addExtraCode (extra : Page) (ps : list Page) : list Page :=
  match ps with
  | [] => [extra]
  | p :: rest =>
      if decide (data_url p = data_url extra)
      then set_content
             (Some (Text (content_string (content p) +:+ String "010" "" +:+
                          content_string (content extra)))) p :: rest
      else p :: addExtraCode extra rest
  end.

(** *** The cycles

    A cycle runs in a monad that threads the [Site] object, collects the
    actions performed and stops at the first exception. *)

Section Cycle.
Context {Err : Type}.

Definition M (A : Type) : Type := Site -> list Action * Site * (Err + A).

Definition ret {A : Type} (a : A) : M A := fun s => ([], s, inr a).

Definition bind {A B : Type} (m : M A) (f : A -> M B) : M B :=
  fun s =>
    match m s with
    | (t1, s1, inl e) => (t1, s1, inl e)
    | (t1, s1, inr a) =>
        match f a s1 with
        | (t2, s2, r) => (t1 ++ t2, s2, r)
        end
    end.

Local Instance M_ret : MRet M := @ret.
Local Instance M_bind : MBind M := fun A B f m => bind m f.

Definition get : M Site := fun s => ([], s, inr s).
Definition modify (f : Site -> Site) : M unit := fun s => ([], f s, inr tt).
Definition emit (t : list Action) : M unit := fun s => (t, s, inr tt).

(** A call to a collaborator: the action, then its result or exception. *)
Definition call {A : Type} (a : Action) (result : Err + A) : M A :=
  fun s => ([a], s, result).

Definition trace {A : Type} (x : list Action * Site * (Err + A)) : list Action := x.1.1.
Definition result {A : Type} (x : list Action * Site * (Err + A)) : Err + A := x.2.
Definition final {A : Type} (x : list Action * Site * (Err + A)) : Site := x.1.2.

(** The collaborators of [Site] whose code is elsewhere: what each returns
    (or throws) when called.  A listener sees the event and may change the
    site's pages and files; it returns [false] to cancel. *)
Variable listeners : EventType -> list (Event -> Site -> Err + (bool * Site)).
Variable isDev : bool.                      (* LUME_ENV === "development" *)
Variable writer_clear : Err + unit.
Variable fs_init : Err + unit.
Variable source_build : list SourceFilter -> Site -> Err + (list Page * list StaticFile).
Variable renderer_renderPages : list Page -> Err + (list Page * list Page).
Variable getComponentsExtraCode : Site -> list Page.
Variable processors_run : list Page -> Err + list Page.
Variable writer_savePages : list Page -> Err + list Page.
Variable writer_copyFiles : list StaticFile -> Err + list StaticFile.
Variable fs_update : string -> option nat.

(** Modelled from the spec: [Events.dispatchEvent] ([core/events.ts] is not
    among the sources).  "Dispatch is synchronous-sequential over registered
    listeners for a given phase, awaiting each before the next"; a listener
    "returning an explicit cancellation signal" ends the dispatch, which
    then returns [false]; otherwise it returns [true]. *)
Fixpoint run_listeners (ls : list (Event -> Site -> Err + (bool * Site)))
    (ev : Event) (s : Site) : Site * (Err + bool) :=
  match ls with
  | [] => (s, inr true)
  | listener :: rest =>
      match listener ev s with
      | inl e => (s, inl e)
      | inr (false, s') => (s', inr false)
      | inr (true, s') => run_listeners rest ev s'
      end
  end.

Definition dispatchEvent (ev : Event) : M bool :=
  fun s =>
    match run_listeners (listeners (event_type ev)) ev s with
    | (s', inr b) => ([ADispatch (event_type ev) b], s', inr b)
    | (s', inl e) => ([], s', inl e)
    end.

(** [#buildPages(pages)] *)
Definition buildPages (ps : list Page) : M bool :=
  continue ← dispatchEvent (EvBeforeRender ps);
  if negb continue then ret false else
  (* Render the pages *)
  modify (set_pages []) ;;
  modify (set_onDemandPages []) ;;
  rendered ← call (ARenderPages ps) (renderer_renderPages ps);
  modify (set_pages rendered.1) ;;
  modify (set_onDemandPages rendered.2) ;;
  (* Add extra code generated by the components *)
  s ← get;
  modify (set_pages
            (foldl (fun acc extra => addExtraCode extra acc) (pages s)
               (getComponentsExtraCode s))) ;;
  (* Remove empty pages and ondemand pages *)
  s ← get;
  emit (filterPages (pages s)).1 ;;
  modify (set_pages (filterPages (pages s)).2) ;;
  s ← get;
  continue ← dispatchEvent (EvAfterRender (pages s));
  if negb continue then ret false else
  (* Run the processors to the pages *)
  s ← get;
  processed ← call (AProcessorsRun (pages s)) (processors_run (pages s));
  modify (set_pages processed) ;;
  dispatchEvent EvBeforeSave.

(** [build()] *)
Definition build : M unit :=
  continue ← dispatchEvent EvBeforeBuild;
  if negb continue then ret tt else
  s ← get;
  (if emptyDest s then call AWriterClear writer_clear else ret tt) ;;
  (* Load source files *)
  call AFsInit fs_init ;;
  (* Get the site content *)
  s ← get;
  content ← call (ASourceBuild [FilterDraft isDev])
               (source_build [FilterDraft isDev] s);
  (* Save static files into site.files *)
  modify (set_files content.2) ;;
  (* Stop if the build is cancelled *)
  continue ← buildPages content.1;
  if negb continue then ret tt else
  (* Save the pages and copy static files in the dest folder *)
  s ← get;
  saved ← call (ASavePages (pages s)) (writer_savePages (pages s));
  copied ← call (ACopyFiles (files s)) (writer_copyFiles (files s));
  emit [ALoggerLog] ;;
  _ ← dispatchEvent (EvAfterBuild saved copied);
  ret tt.

(** The body of the loop of [update] over the changed files. *)
Definition update_file (file : string) : M unit :=
  emit [AFormatsDeleteCache file; AFsUpdate file] ;;
  match fs_update file with
  | None => ret tt
  | Some e =>
      s ← get;
      emit [ARemoveFiles
              (map outputPath (filter (fun page => src_entry page = e) (pages s)) ++
               map file_outputPath (filter (fun file => entry file = e) (files s)))]
  end.

Fixpoint update_files (changed : list string) : M unit :=
  match changed with
  | [] => ret tt
  | file :: rest => update_file file ;; update_files rest
  end.

(** [update(files)] *)
Definition update (changed : list string) : M unit :=
  continue ← dispatchEvent (EvBeforeUpdate changed);
  if negb continue then ret tt else
  emit [ASearcherDeleteCache] ;;
  (* Reload the changed files *)
  update_files changed ;;
  (* Get the site content *)
  s ← get;
  content ← call (ASourceBuild [FilterDraft isDev; FilterScope changed])
               (source_build [FilterDraft isDev; FilterScope changed] s);
  modify (set_files content.2) ;;
  continue ← buildPages content.1;
  if negb continue then ret tt else
  s ← get;
  saved ← call (ASavePages (pages s)) (writer_savePages (pages s));
  copied ← call (ACopyFiles (files s)) (writer_copyFiles (files s));
  (if bool_decide (saved = [] /\ copied = []) then ret tt else emit [ALoggerLog]) ;;
  _ ← dispatchEvent (EvAfterUpdate changed saved copied);
  ret tt.

(** *** What a trace may hold after a cancelled [beforeRender] *)

(** Reaching the writer with pages or files, or dispatching [afterRender],
    [afterBuild] or [afterUpdate]. *)
Definition writes_or_after (a : Action) : bool :=
  match a with
  | ASavePages _ | ACopyFiles _ => true
  | ADispatch afterRender _ | ADispatch afterBuild _ | ADispatch afterUpdate _ => true
  | _ => false
  end.

Definition cancelled : Action := ADispatch beforeRender false.

Lemma filterPages_warnings (ps : list Page) (a : Action) :
  a ∈ (filterPages ps).1 -> exists msg, a = ALoggerWarn msg.
Proof.
  induction ps as [|p ps IH]; simpl; [intros H; by apply elem_of_nil in H|].
  unfold filterPage. destruct (filterPages ps) as [ws kept]; simpl in *.
  destruct (decide (data_url p = UrlFalse)); simpl; [exact IH|].
  destruct (shouldSkip p); simpl; [|exact IH].
  intros H. apply elem_of_cons in H as [->|H]; [by eexists|by apply IH].
Qed.

Lemma dispatchEvent_trace (ev : Event) (s : Site) :
  match result (dispatchEvent ev s) with
  | inr b => trace (dispatchEvent ev s) = [ADispatch (event_type ev) b]
  | inl _ => trace (dispatchEvent ev s) = []
  end.
Proof.
  unfold dispatchEvent, result, trace.
  by destruct (run_listeners _ ev s) as [s' [e|b]].
Qed.

(** A dispatch returns [false] only if a listener of that event returned
    [false]. *)
Lemma run_listeners_false ls (ev : Event) (s s' : Site) :
  run_listeners ls ev s = (s', inr false) ->
  exists listener s0, listener ∈ ls /\ listener ev s0 = inr (false, s').
Proof.
  revert s. induction ls as [|l ls IH]; intros s; simpl; [done|].
  destruct (l ev s) as [e|[[|] s1]] eqn:Hl.
  - done.
  - intros H. destruct (IH _ H) as (l' & s0 & Hin & Hl'). exists l', s0.
    split; [by right|done].
  - intros [= <-]. exists l, s. split; [by left|done].
Qed.

Ltac unfold_M :=
  unfold mbind, M_bind, bind, ret, get, modify, emit, call, trace, result, final in *.

(** [#buildPages] either is cancelled at once, having done nothing but the
    dispatch of [beforeRender], or never sees that dispatch return
    [false]. *)
Lemma buildPages_cancelled (ps : list Page) (s : Site) :
  (trace (buildPages ps s) = [cancelled] /\ result (buildPages ps s) = inr false) \/
  cancelled ∉ trace (buildPages ps s).
Proof.
  unfold buildPages. unfold_M.
  pose proof (dispatchEvent_trace (EvBeforeRender ps) s) as Hd. unfold_M.
  destruct (dispatchEvent (EvBeforeRender ps) s) as [[t1 s1] [e|[|]]]; simpl in *; subst t1.
  - right. by intros H%elem_of_nil.
  - right. destruct (renderer_renderPages ps) as [e|rendered]; simpl.
    + intros H. repeat (apply elem_of_cons in H as [H|H]; [discriminate|]).
      by apply elem_of_nil in H.
    + match goal with |- context [dispatchEvent (EvAfterRender ?x) ?y] =>
        pose proof (dispatchEvent_trace (EvAfterRender x) y) as Hd2;
        destruct (dispatchEvent (EvAfterRender x) y) as [[t2 s2] [e|[|]]]
      end; unfold_M; simpl in *; subst t2.
      * intros H. repeat (apply elem_of_cons in H as [H|H]; [discriminate|]).
        rewrite app_nil_r in H. apply filterPages_warnings in H as [msg H]. discriminate.
      * destruct (processors_run _) as [e|processed]; simpl.
        -- intros H. repeat (apply elem_of_cons in H as [H|H]; [discriminate|]).
           apply elem_of_app in H as [H|H].
           { apply filterPages_warnings in H as [msg H]. discriminate. }
           repeat (apply elem_of_cons in H as [H|H]; [discriminate|]).
           by apply elem_of_nil in H.
        -- match goal with |- context [dispatchEvent EvBeforeSave ?y] =>
             pose proof (dispatchEvent_trace EvBeforeSave y) as Hd3;
             destruct (dispatchEvent EvBeforeSave y) as [[t3 s3] [e|b]]
           end; unfold_M; simpl in *; subst t3;
           intros H; repeat (apply elem_of_cons in H as [H|H]; [discriminate|]);
           (apply elem_of_app in H as [H|H];
            [apply filterPages_warnings in H as [msg H]; discriminate|]);
           repeat (apply elem_of_cons in H as [H|H]; [discriminate|]);
           by apply elem_of_nil in H.
      * intros H. repeat (apply elem_of_cons in H as [H|H]; [discriminate|]).
        apply elem_of_app in H as [H|H].
        { apply filterPages_warnings in H as [msg H]. discriminate. }
        repeat (apply elem_of_cons in H as [H|H]; [discriminate|]).
        by apply elem_of_nil in H.
  - left. done.
Qed.

Ltac split_in H :=
  repeat match type of H with
    | _ ∈ [] => by apply elem_of_nil in H
    | _ ∈ _ :: _ => apply elem_of_cons in H as [H|H]
    | _ ∈ _ ++ _ => apply elem_of_app in H as [H|H]
    end.

(** The loop of [update] neither writes pages nor dispatches events, and
    always completes. *)
Lemma update_files_trace (changed : list string) (s : Site) :
  result (update_files changed s) = inr tt /\
  forall a, a ∈ trace (update_files changed s) ->
    writes_or_after a = false /\ a <> cancelled.
Proof.
  revert s. induction changed as [|file rest IH]; intros s; simpl.
  - split; [done|]. intros a H. by apply elem_of_nil in H.
  - unfold update_file. unfold_M.
    destruct (fs_update file) as [e|]; simpl;
      (match goal with |- context [update_files rest ?y] =>
         destruct (IH y) as [Hr Ht]; unfold_M;
         destruct (update_files rest y) as [[t1 s1] r1]
       end); simpl in *; (split; [done|]);
      intros a H; split_in H; subst; try done; by apply Ht.
Qed.

(** Three kinds of computations: those that do nothing the claim forbids
    and do not dispatch a cancelled [beforeRender]; those that do not
    dispatch a cancelled [beforeRender]; and those for which the claim
    holds. *)
Definition quiet {A : Type} (m : M A) : Prop :=
  forall s a, a ∈ trace (m s) -> writes_or_after a = false /\ a <> cancelled.

Definition never_cancelled {A : Type} (m : M A) : Prop :=
  forall s, cancelled ∉ trace (m s).

Definition stops_when_cancelled (m : M unit) : Prop :=
  forall s, cancelled ∈ trace (m s) ->
    result (m s) = inr tt /\ forall a, a ∈ trace (m s) -> writes_or_after a = false.

Lemma quiet_never {A : Type} (m : M A) : quiet m -> never_cancelled m.
Proof. intros Hq s H. by destruct (Hq _ _ H). Qed.

Lemma never_stops (m : M unit) : never_cancelled m -> stops_when_cancelled m.
Proof. intros Hn s H. by destruct (Hn s). Qed.

Lemma never_bind {A B : Type} (m : M A) (f : A -> M B) :
  never_cancelled m -> (forall a, never_cancelled (f a)) -> never_cancelled (m ≫= f).
Proof.
  intros Hm Hf s. specialize (Hm s). unfold_M.
  destruct (m s) as [[t1 s1] [e|a]]; simpl in *; [done|].
  specialize (Hf a s1). unfold_M. destruct (f a s1) as [[t2 s2] r]; simpl in *.
  intros H. split_in H; done.
Qed.

Lemma stops_bind_quiet {A : Type} (m : M A) (f : A -> M unit) :
  quiet m -> (forall a, stops_when_cancelled (f a)) -> stops_when_cancelled (m ≫= f).
Proof.
  intros Hm Hf s. specialize (Hm s). unfold_M.
  destruct (m s) as [[t1 s1] [e|a]]; simpl in *.
  - intros H. by destruct (Hm _ H).
  - specialize (Hf a s1). unfold_M. destruct (f a s1) as [[t2 s2] r]; simpl in *.
    intros H. apply elem_of_app in H as [H|H]; [by destruct (Hm _ H)|].
    destruct (Hf H) as [Hr Ht]. split; [done|].
    intros a' H'. apply elem_of_app in H' as [H'|H']; [by destruct (Hm _ H')|by apply Ht].
Qed.

(** The cancellation test after [#buildPages]:
    [if (await this.#buildPages(_pages) === false) { return; }] *)
Lemma stops_after_buildPages (ps : list Page) (rest : M unit) :
  never_cancelled rest ->
  stops_when_cancelled (continue ← buildPages ps; if negb continue then ret tt else rest).
Proof.
  intros Hrest s.
  destruct (buildPages_cancelled ps s) as [[Ht Hr]|Hno]; unfold_M;
    destruct (buildPages ps s) as [[t1 s1] r1]; simpl in *.
  - subst t1 r1. simpl. intros _. split; [done|]. intros a H. split_in H. by subst.
  - destruct r1 as [e|[|]]; simpl; [done| |intros H; split_in H; done].
    specialize (Hrest s1). unfold_M. destruct (rest s1) as [[t2 s2] r2]; simpl in *.
    intros H. split_in H; done.
Qed.

Lemma quiet_dispatch (ev : Event) :
  event_type ev = beforeBuild \/ event_type ev = beforeUpdate -> quiet (dispatchEvent ev).
Proof.
  intros Hev s a. pose proof (dispatchEvent_trace ev s) as Hd. unfold_M.
  destruct (dispatchEvent ev s) as [[t1 s1] [e|b]]; simpl in *; subst t1;
    intros H; split_in H; subst; unfold cancelled; destruct Hev as [-> | ->]; done.
Qed.

Lemma never_dispatch (ev : Event) :
  event_type ev <> beforeRender -> never_cancelled (dispatchEvent ev).
Proof.
  intros Hev s. pose proof (dispatchEvent_trace ev s) as Hd. unfold_M.
  destruct (dispatchEvent ev s) as [[t1 s1] [e|b]]; simpl in *; subst t1;
    intros H; split_in H. unfold cancelled in H. congruence.
Qed.

Lemma quiet_get : quiet get.
Proof. intros s a H. unfold_M. simpl in H. split_in H. Qed.

Lemma quiet_modify (f : Site -> Site) : quiet (modify f).
Proof. intros s a H. unfold_M. simpl in H. split_in H. Qed.

Lemma quiet_ret {A : Type} (x : A) : quiet (ret x).
Proof. intros s a H. unfold_M. simpl in H. split_in H. Qed.

Lemma quiet_emit (t : list Action) :
  (forall a, a ∈ t -> writes_or_after a = false /\ a <> cancelled) -> quiet (emit t).
Proof. intros Ht s a H. unfold_M. simpl in H. by apply Ht. Qed.

Lemma quiet_call {A : Type} (a : Action) (x : Err + A) :
  writes_or_after a = false -> a <> cancelled -> quiet (call a x).
Proof. intros Ha Hc s a' H. unfold_M. simpl in H. split_in H. by subst. Qed.

Lemma never_call {A : Type} (a : Action) (x : Err + A) :
  a <> cancelled -> never_cancelled (call a x).
Proof. intros Hc s H. unfold_M. simpl in H. split_in H. done. Qed.

Lemma quiet_update_files (changed : list string) : quiet (update_files changed).
Proof. intros s a H. by apply (update_files_trace changed s). Qed.

(** The end of both cycles, from [savePages] on, dispatches no
    [beforeRender]. *)
Lemma never_cancelled_build_tail :
  never_cancelled
    (s ← get;
     saved ← call (ASavePages (pages s)) (writer_savePages (pages s));
     copied ← call (ACopyFiles (files s)) (writer_copyFiles (files s));
     emit [ALoggerLog] ;;
     _ ← dispatchEvent (EvAfterBuild saved copied);
     ret tt).
Proof.
  apply never_bind; [apply quiet_never, quiet_get|]. intros s.
  apply never_bind; [by apply never_call|]. intros saved.
  apply never_bind; [by apply never_call|]. intros copied.
  apply never_bind.
  { apply quiet_never, quiet_emit. intros a H. split_in H. by subst. }
  intros _. apply never_bind; [by apply never_dispatch|].
  intros _. apply quiet_never, quiet_ret.
Qed.

Lemma never_cancelled_update_tail (changed : list string) :
  never_cancelled
    (s ← get;
     saved ← call (ASavePages (pages s)) (writer_savePages (pages s));
     copied ← call (ACopyFiles (files s)) (writer_copyFiles (files s));
     (if bool_decide (saved = [] /\ copied = []) then ret tt else emit [ALoggerLog]) ;;
     _ ← dispatchEvent (EvAfterUpdate changed saved copied);
     ret tt).
Proof.
  apply never_bind; [apply quiet_never, quiet_get|]. intros s.
  apply never_bind; [by apply never_call|]. intros saved.
  apply never_bind; [by apply never_call|]. intros copied.
  apply never_bind.
  { destruct (bool_decide _); apply quiet_never; [apply quiet_ret|].
    apply quiet_emit. intros a H. split_in H. by subst. }
  intros _. apply never_bind; [by apply never_dispatch|].
  intros _. apply quiet_never, quiet_ret.
Qed.

(** C4: if the dispatch of [beforeRender] returns [false] (a listener
    returned the cancellation signal) during [build()] or [update(files)],
    then in that cycle [savePages] and [copyFiles] are never called and
    none of [afterRender], [afterBuild] and [afterUpdate] is dispatched; the
    cycle returns normally. *)
Theorem beforeRender_cancels_cycle (s : Site) (changed : list string) :
  (ADispatch beforeRender false ∈ trace (build s) ->
   result (build s) = inr tt /\
   forall a, a ∈ trace (build s) -> writes_or_after a = false) /\
  (ADispatch beforeRender false ∈ trace (update changed s) ->
   result (update changed s) = inr tt /\
   forall a, a ∈ trace (update changed s) -> writes_or_after a = false).
Proof.
  split.
  - revert s. change (stops_when_cancelled build). unfold build.
    apply stops_bind_quiet; [apply quiet_dispatch; by left|].
    intros [|]; simpl; [|apply never_stops, quiet_never, quiet_ret].
    apply stops_bind_quiet; [apply quiet_get|]. intros s.
    apply stops_bind_quiet.
    { destruct (emptyDest s); [by apply quiet_call|apply quiet_ret]. }
    intros _. apply stops_bind_quiet; [by apply quiet_call|].
    intros _. apply stops_bind_quiet; [apply quiet_get|]. intros s1.
    apply stops_bind_quiet; [by apply quiet_call|]. intros content.
    apply stops_bind_quiet; [apply quiet_modify|]. intros _.
    apply stops_after_buildPages, never_cancelled_build_tail.
  - revert s. change (stops_when_cancelled (update changed)). unfold update.
    apply stops_bind_quiet; [apply quiet_dispatch; by right|].
    intros [|]; simpl; [|apply never_stops, quiet_never, quiet_ret].
    apply stops_bind_quiet.
    { apply quiet_emit. intros a H. split_in H. by subst. }
    intros _. apply stops_bind_quiet; [apply quiet_update_files|].
    intros _. apply stops_bind_quiet; [apply quiet_get|]. intros s1.
    apply stops_bind_quiet; [by apply quiet_call|]. intros content.
    apply stops_bind_quiet; [apply quiet_modify|]. intros _.
    apply stops_after_buildPages, never_cancelled_update_tail.
Qed.

(** *** The drop policy *)

(** The pages the filter keeps. *)
Definition presentable (p : Page) : bool :=
  if decide (data_url p = UrlFalse) then false else negb (shouldSkip p).

Lemma filterPages_kept (ps : list Page) :
  (filterPages ps).2 = filter (fun p => presentable p = true) ps.
Proof.
  induction ps as [|p ps IH]; simpl; [done|].
  unfold filterPage, presentable. destruct (filterPages ps) as [ws kept]; simpl in *.
  destruct (decide (data_url p = UrlFalse)) as [Hu|Hu] eqn:Hdec.
  - rewrite filter_cons_False; [done|]. by rewrite Hdec.
  - destruct (shouldSkip p) eqn:Hskip; simpl.
    + rewrite filter_cons_False; [done|]. by rewrite Hdec, Hskip.
    + rewrite filter_cons_True; [by rewrite IH|]. by rewrite Hdec, Hskip.
Qed.

Lemma filterPages_warned (ps : list Page) (a : Action) :
  a ∈ (filterPages ps).1 <->
  exists p, p ∈ ps /\ data_url p <> UrlFalse /\ shouldSkip p = true /\
            a = ALoggerWarn (skip_message p).
Proof.
  induction ps as [|p ps IH]; simpl.
  - split; [intros H; by apply elem_of_nil in H|].
    intros (q & H & _). by apply elem_of_nil in H.
  - unfold filterPage. destruct (filterPages ps) as [ws kept]; simpl in *.
    destruct (decide (data_url p = UrlFalse)) as [Hu|Hu]; simpl;
      [|destruct (shouldSkip p) eqn:Hskip; simpl].
    + rewrite IH. split; intros (q & Hq & Hrest); exists q.
      * split; [by right|done].
      * apply elem_of_cons in Hq as [->|Hq]; [by destruct Hrest|done].
    + rewrite elem_of_cons, IH. split.
      * intros [->|(q & Hq & Hrest)]; [exists p; split; [by left|done]|].
        exists q. split; [by right|done].
      * intros (q & Hq & Hqu & Hqs & ->).
        apply elem_of_cons in Hq as [->|Hq]; [by left|right; by exists q].
    + rewrite IH. split; intros (q & Hq & Hrest); exists q.
      * split; [by right|done].
      * apply elem_of_cons in Hq as [->|Hq]; [|done].
        destruct Hrest as (_ & Hqs & _). congruence.
Qed.

Section DropPolicy.

(** What the later steps of a cycle are assumed not to do: the listeners
    of [afterRender] and [beforeSave] and the processors may change the
    pages, but leave no page in the list that the filter would drop. *)
Hypothesis listeners_keep : forall type listener ev s b s',
  type = afterRender \/ type = beforeSave ->
  listener ∈ listeners type -> listener ev s = inr (b, s') ->
  Forall (fun p => presentable p = true) (pages s) ->
  Forall (fun p => presentable p = true) (pages s').

Hypothesis processors_keep : forall ps ps',
  processors_run ps = inr ps' ->
  Forall (fun p => presentable p = true) ps ->
  Forall (fun p => presentable p = true) ps'.

Lemma dispatchEvent_keeps (ev : Event) (s : Site) :
  event_type ev = afterRender \/ event_type ev = beforeSave ->
  Forall (fun p => presentable p = true) (pages s) ->
  forall b, result (dispatchEvent ev s) = inr b ->
    Forall (fun p => presentable p = true) (pages (final (dispatchEvent ev s))).
Proof.
  intros Hev. unfold dispatchEvent, result, final.
  assert (forall ls, (forall l, l ∈ ls -> l ∈ listeners (event_type ev)) ->
            forall s, Forall (fun p => presentable p = true) (pages s) ->
            forall b, (run_listeners ls ev s).2 = inr b ->
            Forall (fun p => presentable p = true) (pages (run_listeners ls ev s).1)) as Hrun.
  { induction ls as [|l ls IH]; intros Hsub s1 Hs1 b; simpl; [done|].
    destruct (l ev s1) as [e|[[|] s2]] eqn:Hl; simpl; [done| |].
    - apply IH; [intros l' Hl'; apply Hsub; by right|].
      eapply listeners_keep; [exact Hev|apply Hsub; by left|exact Hl|exact Hs1].
    - intros _. eapply listeners_keep; [exact Hev|apply Hsub; by left|exact Hl|exact Hs1]. }
  intros Hs b. specialize (Hrun (listeners (event_type ev)) (fun _ H => H) s Hs).
  destruct (run_listeners (listeners (event_type ev)) ev s) as [s' [e|b']]; simpl in *; [done|].
  intros _. by apply (Hrun b').
Qed.

(** [#buildPages] calls no [savePages], and when it returns [true] the
    site's pages are all presentable. *)
Lemma buildPages_presentable (ps : list Page) (s : Site) :
  (forall a w, a ∈ trace (buildPages ps s) -> a <> ASavePages w) /\
  (result (buildPages ps s) = inr true ->
   Forall (fun p => presentable p = true) (pages (final (buildPages ps s)))).
Proof.
  unfold buildPages. unfold_M.
  pose proof (dispatchEvent_trace (EvBeforeRender ps) s) as Hd. unfold_M.
  destruct (dispatchEvent (EvBeforeRender ps) s) as [[t1 s1] [e|[|]]]; simpl in *; subst t1;
    [split; [intros a w H; split_in H|done]| |split; [intros a w H; split_in H; by subst|done]].
  destruct (renderer_renderPages ps) as [e|rendered]; simpl;
    [split; [intros a w H; split_in H; by subst|done]|].
  match goal with |- context [dispatchEvent (EvAfterRender ?x) ?y] =>
    pose proof (dispatchEvent_trace (EvAfterRender x) y) as Hd2;
    pose proof (dispatchEvent_keeps (EvAfterRender x) y (or_introl eq_refl)) as Hk2;
    destruct (dispatchEvent (EvAfterRender x) y) as [[t2 s2] [e|[|]]]
  end; unfold_M; simpl in *; subst t2.
  - split; [|done]. intros a w H. split_in H; subst; try done.
    apply filterPages_warnings in H as [msg ->]. done.
  - assert (Forall (fun p => presentable p = true) (pages s2)) as Hs2.
    { apply (Hk2 ltac:(rewrite filterPages_kept; apply Forall_forall;
                       intros p Hp; by apply list_elem_of_filter in Hp as [? _]) true eq_refl). }
    destruct (processors_run (pages s2)) as [e|processed] eqn:Hproc; simpl.
    + split; [|done]. intros a w H. split_in H; subst; try done.
      apply filterPages_warnings in H as [msg ->]. done.
    + match goal with |- context [dispatchEvent EvBeforeSave ?y] =>
        pose proof (dispatchEvent_trace EvBeforeSave y) as Hd3;
        pose proof (dispatchEvent_keeps EvBeforeSave y (or_intror eq_refl)
                      (processors_keep _ _ Hproc Hs2)) as Hk3;
        destruct (dispatchEvent EvBeforeSave y) as [[t3 s3] [e|b]]
      end; unfold_M; simpl in *; subst t3.
      * split; [|done]. intros a w H. split_in H; subst; try done.
        apply filterPages_warnings in H as [msg ->]. done.
      * split; [|intros [= ->]; by apply (Hk3 true)].
        intros a w H. split_in H; subst; try done.
        apply filterPages_warnings in H as [msg ->]. done.
  - split; [|done]. intros a w H. split_in H; subst; try done.
    apply filterPages_warnings in H as [msg ->]. done.
Qed.

Definition saves_presentable {A : Type} (m : M A) : Prop :=
  forall s w, ASavePages w ∈ trace (m s) -> Forall (fun p => presentable p = true) w.

Lemma saves_bind_quiet {A B : Type} (m : M A) (f : A -> M B) :
  quiet m -> (forall a, saves_presentable (f a)) -> saves_presentable (m ≫= f).
Proof.
  intros Hm Hf s w. specialize (Hm s). unfold_M.
  destruct (m s) as [[t1 s1] [e|a]]; simpl in *.
  - intros H. by destruct (Hm _ H).
  - specialize (Hf a s1 w). unfold_M. destruct (f a s1) as [[t2 s2] r]; simpl in *.
    intros H. apply elem_of_app in H as [H|H]; [by destruct (Hm _ H)|by apply Hf].
Qed.

Lemma saves_after_buildPages (ps : list Page) (rest : M unit) :
  (forall s w, Forall (fun p => presentable p = true) (pages s) ->
     ASavePages w ∈ trace (rest s) -> Forall (fun p => presentable p = true) w) ->
  saves_presentable (continue ← buildPages ps; if negb continue then ret tt else rest).
Proof.
  intros Hrest s w. destruct (buildPages_presentable ps s) as [Hno Hok]. unfold_M.
  destruct (buildPages ps s) as [[t1 s1] [e|[|]]]; simpl in *.
  - intros H. by destruct (Hno _ w H).
  - specialize (Hrest s1 w (Hok eq_refl)). unfold_M.
    destruct (rest s1) as [[t2 s2] r2]; simpl in *.
    intros H. apply elem_of_app in H as [H|H]; [by destruct (Hno _ w H)|by apply Hrest].
  - intros H. split_in H. by destruct (Hno _ w H).
Qed.

Lemma build_tail_saves (s : Site) (w : list Page) :
  Forall (fun p => presentable p = true) (pages s) ->
  ASavePages w ∈ trace
    ((s ← get;
      saved ← call (ASavePages (pages s)) (writer_savePages (pages s));
      copied ← call (ACopyFiles (files s)) (writer_copyFiles (files s));
      emit [ALoggerLog] ;;
      _ ← dispatchEvent (EvAfterBuild saved copied);
      ret tt) s) ->
  Forall (fun p => presentable p = true) w.
Proof.
  intros Hs. unfold_M. simpl.
  destruct (writer_savePages (pages s)) as [e|saved]; simpl;
    [intros H; split_in H; by injection H as ->|].
  destruct (writer_copyFiles (files s)) as [e|copied]; simpl;
    [intros H; split_in H; [by injection H as ->|done]|].
  pose proof (dispatchEvent_trace (EvAfterBuild saved copied) s) as Hd. unfold_M.
  destruct (dispatchEvent (EvAfterBuild saved copied) s) as [[t s'] [e|b]]; simpl in *; subst t;
    intros H; split_in H; try done; by injection H as ->.
Qed.

Lemma update_tail_saves (changed : list string) (s : Site) (w : list Page) :
  Forall (fun p => presentable p = true) (pages s) ->
  ASavePages w ∈ trace
    ((s ← get;
      saved ← call (ASavePages (pages s)) (writer_savePages (pages s));
      copied ← call (ACopyFiles (files s)) (writer_copyFiles (files s));
      (if bool_decide (saved = [] /\ copied = []) then ret tt else emit [ALoggerLog]) ;;
      _ ← dispatchEvent (EvAfterUpdate changed saved copied);
      ret tt) s) ->
  Forall (fun p => presentable p = true) w.
Proof.
  intros Hs. unfold_M. simpl.
  destruct (writer_savePages (pages s)) as [e|saved]; simpl;
    [intros H; split_in H; by injection H as ->|].
  destruct (writer_copyFiles (files s)) as [e|copied]; simpl;
    [intros H; split_in H; [by injection H as ->|done]|].
  pose proof (dispatchEvent_trace (EvAfterUpdate changed saved copied) s) as Hd. unfold_M.
  destruct (bool_decide (saved = [] /\ copied = [])); simpl;
    destruct (dispatchEvent (EvAfterUpdate changed saved copied) s) as [[t s'] [e|b]];
    simpl in *; subst t; intros H; split_in H; try done; by injection H as ->.
Qed.

(** C6, amended: the filter of [#buildPages] keeps, in their order,
    exactly the pages whose url is not [false], whose content is neither
    missing nor the empty string and which are not flagged ondemand; it
    logs one warning "Skipped page <url> (<reason>)" for every page whose
    url is not [false] and that it drops, the reason being "page is build
    only on demand" for a page flagged ondemand and "file content is empty"
    otherwise, and it logs nothing else, so a page with url [false] is
    dropped without a warning.  As long as the listeners of [afterRender]
    and [beforeSave] and the processors bring no such page back, every page
    list [build()] or [update(files)] hands to [savePages] holds kept pages
    only. *)
Theorem drop_policy (ps : list Page) (s : Site) (changed : list string) :
  (forall p, p ∈ (filterPages ps).2 <->
     p ∈ ps /\ data_url p <> UrlFalse /\
     content_falsy (content p) = false /\ data_ondemand p = false) /\
  (filterPages ps).2 `sublist_of` ps /\
  (forall a, a ∈ (filterPages ps).1 <->
     exists p, p ∈ ps /\ data_url p <> UrlFalse /\
       (content_falsy (content p) = true \/ data_ondemand p = true) /\
       a = ALoggerWarn ("Skipped page " +:+ url_string (data_url p) +:+ " (" +:+
             (if data_ondemand p then "page is build only on demand"
              else "file content is empty") +:+ ")")) /\
  (forall w, ASavePages w ∈ trace (build s) \/ ASavePages w ∈ trace (update changed s) ->
     forall p, p ∈ w ->
       data_url p <> UrlFalse /\ content_falsy (content p) = false /\
       data_ondemand p = false).
Proof.
  assert (forall p, presentable p = true <->
            data_url p <> UrlFalse /\ content_falsy (content p) = false /\
            data_ondemand p = false) as Hpres.
  { intros p. unfold presentable, shouldSkip.
    destruct (decide (data_url p = UrlFalse)) as [Hu|Hu];
      rewrite ?negb_true_iff, ?orb_false_iff; intuition congruence. }
  split.
  { intros p. rewrite filterPages_kept, list_elem_of_filter, Hpres. tauto. }
  split.
  { rewrite filterPages_kept. apply sublist_filter. }
  split.
  { intros a. rewrite filterPages_warned. unfold shouldSkip, skip_message, skip_reason.
    split; intros (p & Hp & Hu & Hskip & Ha); exists p; repeat split; try done.
    - by apply orb_true_iff.
    - by apply orb_true_iff. }
  intros w Hw p Hp. apply Hpres.
  assert (Forall (fun p => presentable p = true) w) as Hall;
    [|rewrite Forall_forall in Hall; by apply Hall].
  clear p Hp. destruct Hw as [Hw|Hw]; revert s w Hw.
  - change (saves_presentable build). unfold build.
    apply saves_bind_quiet; [apply quiet_dispatch; by left|].
    intros [|]; simpl; [|intros s w H; unfold_M; simpl in H; split_in H].
    apply saves_bind_quiet; [apply quiet_get|]. intros s.
    apply saves_bind_quiet.
    { destruct (emptyDest s); [by apply quiet_call|apply quiet_ret]. }
    intros _. apply saves_bind_quiet; [by apply quiet_call|].
    intros _. apply saves_bind_quiet; [apply quiet_get|]. intros s1.
    apply saves_bind_quiet; [by apply quiet_call|]. intros content.
    apply saves_bind_quiet; [apply quiet_modify|]. intros _.
    apply saves_after_buildPages. intros s2 w. apply build_tail_saves.
  - change (saves_presentable (update changed)). unfold update.
    apply saves_bind_quiet; [apply quiet_dispatch; by right|].
    intros [|]; simpl; [|intros s w H; unfold_M; simpl in H; split_in H].
    apply saves_bind_quiet.
    { apply quiet_emit. intros a H. split_in H. by subst. }
    intros _. apply saves_bind_quiet; [apply quiet_update_files|].
    intros _. apply saves_bind_quiet; [apply quiet_get|]. intros s1.
    apply saves_bind_quiet; [by apply quiet_call|]. intros content.
    apply saves_bind_quiet; [apply quiet_modify|]. intros _.
    apply saves_after_buildPages. intros s2 w. apply update_tail_saves.
Qed.

End DropPolicy.

(** *** Further properties of the cycles *)

(** Every action of a computation satisfies [P]. *)
Definition emits {A : Type} (P : Action -> Prop) (m : M A) : Prop :=
  forall s a, a ∈ trace (m s) -> P a.

Lemma emits_bind {A B : Type} (P : Action -> Prop) (m : M A) (f : A -> M B) :
  emits P m -> (forall x, emits P (f x)) -> emits P (m ≫= f).
Proof.
  intros Hm Hf s a. specialize (Hm s). unfold_M.
  destruct (m s) as [[t1 s1] [e|x]]; simpl in *; [apply Hm|].
  specialize (Hf x s1). unfold_M. destruct (f x s1) as [[t2 s2] r]; simpl in *.
  intros H. apply elem_of_app in H as [H|H]; auto.
Qed.

Lemma emits_ret {A : Type} (P : Action -> Prop) (x : A) : emits P (ret x).
Proof. intros s a H. unfold_M. simpl in H. split_in H. Qed.

Lemma emits_get (P : Action -> Prop) : emits P get.
Proof. intros s a H. unfold_M. simpl in H. split_in H. Qed.

Lemma emits_modify (P : Action -> Prop) (f : Site -> Site) : emits P (modify f).
Proof. intros s a H. unfold_M. simpl in H. split_in H. Qed.

Lemma emits_emit (P : Action -> Prop) (t : list Action) :
  (forall a, a ∈ t -> P a) -> emits P (emit t).
Proof. intros Ht s a H. unfold_M. simpl in H. by apply Ht. Qed.

Lemma emits_call {A : Type} (P : Action -> Prop) (a : Action) (x : Err + A) :
  P a -> emits P (call a x).
Proof. intros Ha s a' H. unfold_M. simpl in H. split_in H. by subst. Qed.

Lemma emits_dispatch (P : Action -> Prop) (ev : Event) :
  (forall b, P (ADispatch (event_type ev) b)) -> emits P (dispatchEvent ev).
Proof.
  intros HP s a. pose proof (dispatchEvent_trace ev s) as Hd. unfold_M.
  destruct (dispatchEvent ev s) as [[t1 s1] [e|b]]; simpl in *; subst t1;
    intros H; split_in H. by subst.
Qed.

(** The actions of [#buildPages]. *)
Definition buildPages_action (a : Action) : Prop :=
  match a with
  | ADispatch beforeRender _ | ADispatch afterRender _ | ADispatch beforeSave _ => True
  | ARenderPages _ | AProcessorsRun _ | ALoggerWarn _ => True
  | _ => False
  end.

Lemma emits_buildPages (P : Action -> Prop) (ps : list Page) :
  (forall a, buildPages_action a -> P a) -> emits P (buildPages ps).
Proof.
  intros HP. unfold buildPages.
  apply emits_bind; [apply emits_dispatch; intros b; by apply HP|].
  intros [|]; simpl; [|apply emits_ret].
  apply emits_bind; [apply emits_modify|]. intros _.
  apply emits_bind; [apply emits_modify|]. intros _.
  apply emits_bind; [apply emits_call; by apply HP|]. intros rendered.
  apply emits_bind; [apply emits_modify|]. intros _.
  apply emits_bind; [apply emits_modify|]. intros _.
  apply emits_bind; [apply emits_get|]. intros s1.
  apply emits_bind; [apply emits_modify|]. intros _.
  apply emits_bind; [apply emits_get|]. intros s2.
  apply emits_bind.
  { apply emits_emit. intros a Ha. apply filterPages_warnings in Ha as [msg ->]. by apply HP. }
  intros _. apply emits_bind; [apply emits_modify|]. intros _.
  apply emits_bind; [apply emits_get|]. intros s3.
  apply emits_bind; [apply emits_dispatch; intros b; by apply HP|].
  intros [|]; simpl; [|apply emits_ret].
  apply emits_bind; [apply emits_get|]. intros s4.
  apply emits_bind; [apply emits_call; by apply HP|]. intros processed.
  apply emits_bind; [apply emits_modify|]. intros _.
  apply emits_dispatch. intros b. by apply HP.
Qed.

(** The actions of the loop of [update]. *)
Definition update_files_action (a : Action) : Prop :=
  match a with
  | AFormatsDeleteCache _ | AFsUpdate _ | ARemoveFiles _ => True
  | _ => False
  end.

Lemma emits_update_files (P : Action -> Prop) (changed : list string) :
  (forall a, update_files_action a -> P a) -> emits P (update_files changed).
Proof.
  intros HP. induction changed as [|file rest IH]; simpl; [apply emits_ret|].
  apply emits_bind; [|intros _; exact IH].
  unfold update_file. apply emits_bind.
  { apply emits_emit. intros a Ha. split_in Ha; subst; by apply HP. }
  intros _. destruct (fs_update file); [|apply emits_ret].
  apply emits_bind; [apply emits_get|]. intros s.
  apply emits_emit. intros a Ha. split_in Ha; subst; by apply HP.
Qed.

(** What follows the first dispatch of a cycle, in [build] and [update]. *)
Definition build_rest : M unit :=
  s ← get;
  (if emptyDest s then call AWriterClear writer_clear else ret tt) ;;
  call AFsInit fs_init ;;
  s ← get;
  content ← call (ASourceBuild [FilterDraft isDev])
               (source_build [FilterDraft isDev] s);
  modify (set_files content.2) ;;
  continue ← buildPages content.1;
  if negb continue then ret tt else
  s ← get;
  saved ← call (ASavePages (pages s)) (writer_savePages (pages s));
  copied ← call (ACopyFiles (files s)) (writer_copyFiles (files s));
  emit [ALoggerLog] ;;
  _ ← dispatchEvent (EvAfterBuild saved copied);
  ret tt.

Definition update_rest (changed : list string) : M unit :=
  emit [ASearcherDeleteCache] ;;
  update_files changed ;;
  s ← get;
  content ← call (ASourceBuild [FilterDraft isDev; FilterScope changed])
               (source_build [FilterDraft isDev; FilterScope changed] s);
  modify (set_files content.2) ;;
  continue ← buildPages content.1;
  if negb continue then ret tt else
  s ← get;
  saved ← call (ASavePages (pages s)) (writer_savePages (pages s));
  copied ← call (ACopyFiles (files s)) (writer_copyFiles (files s));
  (if bool_decide (saved = [] /\ copied = []) then ret tt else emit [ALoggerLog]) ;;
  _ ← dispatchEvent (EvAfterUpdate changed saved copied);
  ret tt.

Lemma build_unfold :
  build = (continue ← dispatchEvent EvBeforeBuild;
           if negb continue then ret tt else build_rest).
Proof. reflexivity. Qed.

Lemma update_unfold (changed : list string) :
  update changed = (continue ← dispatchEvent (EvBeforeUpdate changed);
                    if negb continue then ret tt else update_rest changed).
Proof. reflexivity. Qed.

(** The actions of a build after its first dispatch. *)
Definition build_rest_action (a : Action) : Prop :=
  match a with
  | AWriterClear | AFsInit | ASourceBuild _ | ASavePages _ | ACopyFiles _ | ALoggerLog
  | ADispatch afterBuild _ => True
  | _ => buildPages_action a
  end.

(** The actions of an update after its first dispatch. *)
Definition update_rest_action (a : Action) : Prop :=
  match a with
  | ASearcherDeleteCache | ASourceBuild _ | ASavePages _ | ACopyFiles _ | ALoggerLog
  | ADispatch afterUpdate _ => True
  | _ => buildPages_action a \/ update_files_action a
  end.

Lemma emits_build_rest (P : Action -> Prop) :
  (forall a, build_rest_action a -> P a) -> emits P build_rest.
Proof.
  intros HP. unfold build_rest.
  apply emits_bind; [apply emits_get|]. intros s1.
  apply emits_bind.
  { destruct (emptyDest s1); [apply emits_call; by apply HP|apply emits_ret]. }
  intros _. apply emits_bind; [apply emits_call; by apply HP|]. intros _.
  apply emits_bind; [apply emits_get|]. intros s2.
  apply emits_bind; [apply emits_call; by apply HP|]. intros content.
  apply emits_bind; [apply emits_modify|]. intros _.
  apply emits_bind.
  { apply emits_buildPages. intros a Ha. apply HP. by destruct a as [[] ?| | | | | | | | | | | | |]. }
  intros [|]; simpl; [|apply emits_ret].
  apply emits_bind; [apply emits_get|]. intros s3.
  apply emits_bind; [apply emits_call; by apply HP|]. intros saved.
  apply emits_bind; [apply emits_call; by apply HP|]. intros copied.
  apply emits_bind.
  { apply emits_emit. intros a Ha. split_in Ha; subst; by apply HP. }
  intros _. apply emits_bind; [apply emits_dispatch; intros b; by apply HP|].
  intros _. apply emits_ret.
Qed.

Lemma emits_update_rest (P : Action -> Prop) (changed : list string) :
  (forall a, update_rest_action a -> P a) -> emits P (update_rest changed).
Proof.
  intros HP. unfold update_rest.
  apply emits_bind.
  { apply emits_emit. intros a Ha. split_in Ha; subst; by apply HP. }
  intros _. apply emits_bind.
  { apply emits_update_files. intros a Ha. apply HP.
    destruct a as [[] ?| | | | | | | | | | | | |]; simpl in *; tauto. }
  intros _. apply emits_bind; [apply emits_get|]. intros s2.
  apply emits_bind; [apply emits_call; by apply HP|]. intros content.
  apply emits_bind; [apply emits_modify|]. intros _.
  apply emits_bind.
  { apply emits_buildPages. intros a Ha. apply HP.
    destruct a as [[] ?| | | | | | | | | | | | |]; simpl in *; tauto. }
  intros [|]; simpl; [|apply emits_ret].
  apply emits_bind; [apply emits_get|]. intros s3.
  apply emits_bind; [apply emits_call; by apply HP|]. intros saved.
  apply emits_bind; [apply emits_call; by apply HP|]. intros copied.
  apply emits_bind.
  { destruct (bool_decide _); [apply emits_ret|].
    apply emits_emit. intros a Ha. split_in Ha; subst; by apply HP. }
  intros _. apply emits_bind; [apply emits_dispatch; intros b; by apply HP|].
  intros _. apply emits_ret.
Qed.

(** A cycle whose first dispatch is cancelled does nothing else. *)
Lemma first_dispatch_cancelled (ev : Event) (rest : M unit) (s : Site) :
  emits (fun a => a <> ADispatch (event_type ev) false) rest ->
  ADispatch (event_type ev) false ∈
    trace ((continue ← dispatchEvent ev; if negb continue then ret tt else rest) s) ->
  trace ((continue ← dispatchEvent ev; if negb continue then ret tt else rest) s) =
    [ADispatch (event_type ev) false] /\
  result ((continue ← dispatchEvent ev; if negb continue then ret tt else rest) s) = inr tt.
Proof.
  intros Hrest. pose proof (dispatchEvent_trace ev s) as Hd. unfold_M.
  destruct (dispatchEvent ev s) as [[t1 s1] [e|[|]]]; simpl in *; subst t1.
  - intros H. split_in H.
  - specialize (Hrest s1). unfold_M. destruct (rest s1) as [[t2 s2] r2]; simpl in *.
    intros H. split_in H; [discriminate|]. by destruct (Hrest _ H).
  - done.
Qed.

(** X15: a [beforeBuild] (or [beforeUpdate]) listener that cancels stops
    the cycle before anything is touched: the destination is not emptied,
    no source is loaded, nothing is rendered or written, and the cycle
    returns normally. *)
Theorem first_event_cancels_everything (s : Site) (changed : list string) :
  (ADispatch beforeBuild false ∈ trace (build s) ->
   trace (build s) = [ADispatch beforeBuild false] /\ result (build s) = inr tt) /\
  (ADispatch beforeUpdate false ∈ trace (update changed s) ->
   trace (update changed s) = [ADispatch beforeUpdate false] /\
   result (update changed s) = inr tt).
Proof.
  split.
  - rewrite build_unfold. apply (first_dispatch_cancelled EvBeforeBuild).
    apply emits_build_rest. by intros [[] ?| | | | | | | | | | | | |].
  - rewrite update_unfold. apply (first_dispatch_cancelled (EvBeforeUpdate changed)).
    apply emits_update_rest. intros [[] ?| | | | | | | | | | | | |]; simpl; try done; tauto.
Qed.

(** X16: [update] never empties the destination folder and never
    re-initialises the file system: of the writer it only calls
    [removeFiles], [savePages] and [copyFiles]. *)
Theorem update_keeps_destination (s : Site) (changed : list string) (a : Action) :
  a ∈ trace (update changed s) -> a <> AWriterClear /\ a <> AFsInit.
Proof.
  revert s a. change (emits (fun a => a <> AWriterClear /\ a <> AFsInit) (update changed)).
  rewrite update_unfold. apply emits_bind; [by apply emits_dispatch|].
  intros [|]; simpl; [|apply emits_ret].
  apply emits_update_rest. intros [[] ?| | | | | | | | | | | | |]; simpl; try done; tauto.
Qed.

(** A dispatch that returned [false] in one of the phases whose result the
    cycles test. *)
Definition cancel_signal (a : Action) : Prop :=
  match a with
  | ADispatch beforeBuild false | ADispatch beforeUpdate false
  | ADispatch beforeRender false | ADispatch afterRender false
  | ADispatch beforeSave false => True
  | _ => False
  end.

(** Writing pages or files, or dispatching the event that ends a cycle. *)
Definition writes_or_done (a : Action) : bool :=
  match a with
  | ASavePages _ | ACopyFiles _ => true
  | ADispatch afterBuild _ | ADispatch afterUpdate _ => true
  | _ => false
  end.

(** [#buildPages] returns [false] whenever one of its three dispatches
    did. *)
Lemma buildPages_signal (ps : list Page) (s : Site) (c : Action) :
  c ∈ trace (buildPages ps s) -> cancel_signal c -> result (buildPages ps s) = inr false.
Proof.
  unfold buildPages. unfold_M.
  pose proof (dispatchEvent_trace (EvBeforeRender ps) s) as Hd. unfold_M.
  destruct (dispatchEvent (EvBeforeRender ps) s) as [[t1 s1] [e|[|]]]; simpl in *; subst t1;
    [intros H; split_in H| |done].
  destruct (renderer_renderPages ps) as [e|rendered]; simpl;
    [intros H Hc; split_in H; by subst|].
  match goal with |- context [dispatchEvent (EvAfterRender ?x) ?y] =>
    pose proof (dispatchEvent_trace (EvAfterRender x) y) as Hd2;
    destruct (dispatchEvent (EvAfterRender x) y) as [[t2 s2] [e|[|]]]
  end; unfold_M; simpl in *; subst t2; [| |done].
  - intros H Hc. split_in H; subst; try done.
    apply filterPages_warnings in H as [msg ->]. done.
  - destruct (processors_run (pages s2)) as [e|processed]; simpl.
    + intros H Hc. split_in H; subst; try done.
      apply filterPages_warnings in H as [msg ->]. done.
    + match goal with |- context [dispatchEvent EvBeforeSave ?y] =>
        pose proof (dispatchEvent_trace EvBeforeSave y) as Hd3;
        destruct (dispatchEvent EvBeforeSave y) as [[t3 s3] [e|[|]]]
      end; unfold_M; simpl in *; subst t3; [| |done];
      intros H Hc; split_in H; subst; try done;
      apply filterPages_warnings in H as [msg ->]; done.
Qed.

Definition stops_on_signal (m : M unit) : Prop :=
  forall s c, c ∈ trace (m s) -> cancel_signal c ->
    result (m s) = inr tt /\ forall a, a ∈ trace (m s) -> writes_or_done a = false.

Lemma stops_on_signal_bind {A : Type} (m : M A) (f : A -> M unit) :
  emits (fun a => ~ cancel_signal a /\ writes_or_done a = false) m ->
  (forall x, stops_on_signal (f x)) -> stops_on_signal (m ≫= f).
Proof.
  intros Hm Hf s c. specialize (Hm s). unfold_M.
  destruct (m s) as [[t1 s1] [e|x]]; simpl in *.
  - intros H Hc. by destruct (Hm _ H).
  - specialize (Hf x s1). unfold_M. destruct (f x s1) as [[t2 s2] r]; simpl in *.
    intros H Hc. apply elem_of_app in H as [H|H]; [by destruct (Hm _ H)|].
    destruct (Hf c H Hc) as [Hr Ht]. split; [done|].
    intros a Ha. apply elem_of_app in Ha as [Ha|Ha]; [by destruct (Hm _ Ha)|by apply Ht].
Qed.

Lemma stops_on_signal_after_buildPages (ps : list Page) (rest : M unit) :
  emits (fun a => ~ cancel_signal a) rest ->
  stops_on_signal (continue ← buildPages ps; if negb continue then ret tt else rest).
Proof.
  intros Hrest s c.
  pose proof (buildPages_signal ps s) as Hsig.
  pose proof (emits_buildPages (fun a => writes_or_done a = false) ps
                ltac:(by intros [[] ?| | | | | | | | | | | | |]) s) as Hquiet.
  unfold_M. destruct (buildPages ps s) as [[t1 s1] r1]; simpl in *.
  destruct r1 as [e|[|]]; simpl.
  - intros H Hc. by specialize (Hsig _ H Hc).
  - specialize (Hrest s1). unfold_M. destruct (rest s1) as [[t2 s2] r2]; simpl in *.
    intros H Hc. apply elem_of_app in H as [H|H]; [by specialize (Hsig _ H Hc)|].
    by destruct (Hrest _ H).
  - intros _ _. split; [done|]. intros a Ha. rewrite app_nil_r in Ha. by apply Hquiet.
Qed.

Lemma stops_on_signal_first (ev : Event) (rest : M unit) :
  event_type ev = beforeBuild \/ event_type ev = beforeUpdate ->
  stops_on_signal rest ->
  stops_on_signal (continue ← dispatchEvent ev; if negb continue then ret tt else rest).
Proof.
  intros Hev Hrest s c. pose proof (dispatchEvent_trace ev s) as Hd. unfold_M.
  destruct (dispatchEvent ev s) as [[t1 s1] [e|[|]]]; simpl in *; subst t1.
  - intros H. split_in H.
  - specialize (Hrest s1). unfold_M. destruct (rest s1) as [[t2 s2] r2]; simpl in *.
    intros H Hc. split_in H;
      [subst; destruct Hev as [Heq|Heq]; rewrite Heq in Hc; destruct Hc|].
    destruct (Hrest c H Hc) as [Hr Ht]. split; [done|].
    intros a Ha. split_in Ha; [subst; destruct Hev as [-> | ->]; reflexivity|by apply Ht].
  - intros _ _. split; [done|]. intros a Ha. split_in Ha. subst.
    destruct Hev as [-> | ->]; reflexivity.
Qed.

(** X17: whichever tested dispatch returns [false] in a cycle
    ([beforeBuild], [beforeUpdate], [beforeRender], [afterRender] or
    [beforeSave]), that cycle calls neither [savePages] nor [copyFiles],
    dispatches neither [afterBuild] nor [afterUpdate], and returns
    normally. *)
Theorem any_cancel_stops_cycle (s : Site) (changed : list string) (c : Action) :
  cancel_signal c ->
  (c ∈ trace (build s) ->
   result (build s) = inr tt /\
   forall a, a ∈ trace (build s) -> writes_or_done a = false) /\
  (c ∈ trace (update changed s) ->
   result (update changed s) = inr tt /\
   forall a, a ∈ trace (update changed s) -> writes_or_done a = false).
Proof.
  intros Hc.
  assert (forall a, a = AWriterClear \/ a = AFsInit \/ a = ASearcherDeleteCache \/
                    (exists f, a = ASourceBuild f) \/ update_files_action a ->
                    ~ cancel_signal a /\ writes_or_done a = false) as Hquiet.
  { intros a [->|[->|[->|[[f ->]|Ha]]]];
      [split; [intros []|reflexivity]..|].
    destruct a as [[] ?| | | | | | | | | | | | |]; simpl in Ha; try done;
      (split; [intros []|reflexivity]). }
  split; intros Hin.
  - revert s c Hin Hc. change (stops_on_signal build). rewrite build_unfold.
    apply stops_on_signal_first; [by left|]. unfold build_rest.
    apply stops_on_signal_bind; [apply emits_get|]. intros s1.
    apply stops_on_signal_bind.
    { destruct (emptyDest s1); [apply emits_call; apply Hquiet; auto|apply emits_ret]. }
    intros _. apply stops_on_signal_bind; [apply emits_call; apply Hquiet; auto|].
    intros _. apply stops_on_signal_bind; [apply emits_get|]. intros s2.
    apply stops_on_signal_bind; [apply emits_call; apply Hquiet; eauto 10|]. intros content.
    apply stops_on_signal_bind; [apply emits_modify|]. intros _.
    apply stops_on_signal_after_buildPages.
    apply emits_bind; [apply emits_get|]. intros s3.
    apply emits_bind; [apply emits_call; intros H; exact H|]. intros saved.
    apply emits_bind; [apply emits_call; intros H; exact H|]. intros copied.
    apply emits_bind; [apply emits_emit; intros a Ha; split_in Ha; subst; intros H; exact H|].
    intros _. apply emits_bind; [apply emits_dispatch; intros b H; exact H|intros _; apply emits_ret].
  - revert s c Hin Hc. change (stops_on_signal (update changed)). rewrite update_unfold.
    apply stops_on_signal_first; [by right|]. unfold update_rest.
    apply stops_on_signal_bind.
    { apply emits_emit. intros a Ha. split_in Ha. subst. apply Hquiet. auto. }
    intros _. apply stops_on_signal_bind.
    { apply emits_update_files. intros a Ha. apply Hquiet. auto 10. }
    intros _. apply stops_on_signal_bind; [apply emits_get|]. intros s2.
    apply stops_on_signal_bind; [apply emits_call; apply Hquiet; eauto 10|]. intros content.
    apply stops_on_signal_bind; [apply emits_modify|]. intros _.
    apply stops_on_signal_after_buildPages.
    apply emits_bind; [apply emits_get|]. intros s3.
    apply emits_bind; [apply emits_call; intros H; exact H|]. intros saved.
    apply emits_bind; [apply emits_call; intros H; exact H|]. intros copied.
    apply emits_bind.
    { destruct (bool_decide _); [apply emits_ret|].
      apply emits_emit; intros a Ha; split_in Ha; subst; intros H; exact H. }
    intros _. apply emits_bind; [apply emits_dispatch; intros b H; exact H|intros _; apply emits_ret].
Qed.





(** The place of an action in a cycle, in the order of the source. *)
Definition phase (a : Action) : nat :=
  match a with
  | ADispatch beforeBuild _ | ADispatch beforeUpdate _ => 0
  | AWriterClear | ASearcherDeleteCache => 1
  | AFsInit | AFormatsDeleteCache _ | AFsUpdate _ | ARemoveFiles _ => 2
  | ASourceBuild _ => 3
  | ADispatch beforeRender _ => 4
  | ARenderPages _ => 5
  | ALoggerWarn _ => 6
  | ADispatch afterRender _ => 7
  | AProcessorsRun _ => 8
  | ADispatch beforeSave _ => 9
  | ASavePages _ => 10
  | ACopyFiles _ => 11
  | ALoggerLog => 12
  | ADispatch afterBuild _ | ADispatch afterUpdate _ => 13
  | ADispatch _ _ => 14
  end.

Definition in_order (lo hi : nat) {A : Type} (m : M A) : Prop :=
  forall s,
    StronglySorted (fun a b => phase a <= phase b) (trace (m s)) /\
    forall a, a ∈ trace (m s) -> lo <= phase a <= hi.

Lemma in_order_bind (lo mid hi : nat) {A B : Type} (m : M A) (f : A -> M B) :
  lo <= mid <= hi ->
  in_order lo mid m -> (forall x, in_order mid hi (f x)) -> in_order lo hi (m ≫= f).
Proof.
  intros Hmid Hm Hf s. destruct (Hm s) as [Hs1 Hb1]. unfold_M.
  destruct (m s) as [[t1 s1] [e|x]]; simpl in *.
  - split; [done|]. intros a Ha. specialize (Hb1 _ Ha). lia.
  - destruct (Hf x s1) as [Hs2 Hb2]. unfold_M.
    destruct (f x s1) as [[t2 s2] r]; simpl in *. split.
    + apply StronglySorted_app_2; [|done..].
      intros a1 a2 H1 H2. specialize (Hb1 _ H1). specialize (Hb2 _ H2). lia.
    + intros a Ha. apply elem_of_app in Ha as [Ha|Ha];
        [specialize (Hb1 _ Ha)|specialize (Hb2 _ Ha)]; lia.
Qed.

Lemma in_order_silent (lo hi : nat) {A : Type} (m : M A) :
  (forall s, trace (m s) = []) -> in_order lo hi m.
Proof.
  intros Hm s. rewrite Hm. split; [constructor|]. intros a Ha. by apply elem_of_nil in Ha.
Qed.

Lemma in_order_one (lo hi : nat) {A : Type} (m : M A) (a : Action) :
  lo <= phase a <= hi -> (forall s, trace (m s) = [a] \/ trace (m s) = []) ->
  in_order lo hi m.
Proof.
  intros Ha Hm s. destruct (Hm s) as [-> | ->].
  - split; [repeat constructor|]. intros a' Ha'. split_in Ha'. by subst.
  - split; [constructor|]. intros a' Ha'. by apply elem_of_nil in Ha'.
Qed.

Lemma in_order_dispatch (lo hi : nat) (ev : Event) :
  (forall b, lo <= phase (ADispatch (event_type ev) b) <= hi) ->
  in_order lo hi (dispatchEvent ev).
Proof.
  intros Hb s. pose proof (dispatchEvent_trace ev s) as Hd. unfold_M.
  destruct (dispatchEvent ev s) as [[t1 s1] [e|b]]; simpl in *; subst t1.
  - split; [constructor|]. intros a Ha. by apply elem_of_nil in Ha.
  - split; [repeat constructor|]. intros a Ha. split_in Ha. subst. exact (Hb b).
Qed.

Lemma in_order_same (n : nat) {A : Type} (m : M A) :
  emits (fun a => phase a = n) m -> in_order n n m.
Proof.
  intros Hm s. specialize (Hm s). split.
  - induction (trace (m s)) as [|a t IH]; [constructor|].
    constructor.
    + apply IH. intros a' Ha'. apply Hm. by right.
    + apply Forall_forall. intros a' Ha'.
      rewrite (Hm a), (Hm a'); [done|by right|by left].
  - intros a Ha. rewrite (Hm a Ha). lia.
Qed.

Lemma in_order_buildPages (ps : list Page) : in_order 4 9 (buildPages ps).
Proof.
  unfold buildPages.
  apply (in_order_bind 4 4 9); [lia|apply in_order_dispatch; intros ?; simpl; lia|].
  intros [|]; simpl; [|by apply in_order_silent].
  apply (in_order_bind 4 4 9); [lia|by apply in_order_silent|]. intros _.
  apply (in_order_bind 4 4 9); [lia|by apply in_order_silent|]. intros _.
  apply (in_order_bind 4 5 9); [lia| |].
  { apply (in_order_one 4 5 _ (ARenderPages ps)); [simpl; lia|]. intros s. by left. }
  intros rendered.
  apply (in_order_bind 5 5 9); [lia|by apply in_order_silent|]. intros _.
  apply (in_order_bind 5 5 9); [lia|by apply in_order_silent|]. intros _.
  apply (in_order_bind 5 5 9); [lia|by apply in_order_silent|]. intros s1.
  apply (in_order_bind 5 5 9); [lia|by apply in_order_silent|]. intros _.
  apply (in_order_bind 5 5 9); [lia|by apply in_order_silent|]. intros s2.
  apply (in_order_bind 5 6 9); [lia| |].
  { intros s. destruct (in_order_same 6 (emit (filterPages (pages s2)).1)) with (s := s)
      as [Hs Hb].
    - apply emits_emit. intros a Ha. by apply filterPages_warnings in Ha as [msg ->].
    - split; [done|]. intros a Ha. specialize (Hb _ Ha). lia. }
  intros _.
  apply (in_order_bind 6 6 9); [lia|by apply in_order_silent|]. intros _.
  apply (in_order_bind 6 6 9); [lia|by apply in_order_silent|]. intros s3.
  apply (in_order_bind 6 7 9); [lia|apply in_order_dispatch; intros ?; simpl; lia|].
  intros [|]; simpl; [|by apply in_order_silent].
  apply (in_order_bind 7 7 9); [lia|by apply in_order_silent|]. intros s4.
  apply (in_order_bind 7 8 9); [lia| |].
  { apply (in_order_one 7 8 _ (AProcessorsRun (pages s4))); [simpl; lia|]. intros s. by left. }
  intros processed.
  apply (in_order_bind 8 8 9); [lia|by apply in_order_silent|]. intros _.
  apply in_order_dispatch. intros ?. simpl. lia.
Qed.

(** X19: the actions of a cycle come in the order of its phases: first
    dispatch, preparation (emptying the destination or dropping the outputs
    of changed files), scan of the sources, [beforeRender], rendering,
    warnings of the filter, [afterRender], processors, [beforeSave],
    [savePages], [copyFiles], log, last dispatch; no action of a later
    phase ever precedes one of an earlier phase. *)
Theorem cycle_phase_order (s : Site) (changed : list string) :
  StronglySorted (fun a b => phase a <= phase b) (trace (build s)) /\
  StronglySorted (fun a b => phase a <= phase b) (trace (update changed s)).
Proof.
  split.
  - revert s. assert (in_order 0 13 build) as H; [|intros s; apply H].
    rewrite build_unfold.
    apply (in_order_bind 0 0 13); [lia|apply in_order_dispatch; intros ?; simpl; lia|].
    intros [|]; simpl; [|by apply in_order_silent]. unfold build_rest.
    apply (in_order_bind 0 0 13); [lia|by apply in_order_silent|]. intros s1.
    apply (in_order_bind 0 1 13); [lia| |].
    { destruct (emptyDest s1); [|by apply in_order_silent].
      apply (in_order_one 0 1 _ AWriterClear); [simpl; lia|]. intros s. by left. }
    intros _. apply (in_order_bind 1 2 13); [lia| |].
    { apply (in_order_one 1 2 _ AFsInit); [simpl; lia|]. intros s. by left. }
    intros _. apply (in_order_bind 2 2 13); [lia|by apply in_order_silent|]. intros s2.
    apply (in_order_bind 2 3 13); [lia| |].
    { apply (in_order_one 2 3 _ (ASourceBuild [FilterDraft isDev])); [simpl; lia|].
      intros s. by left. }
    intros content.
    apply (in_order_bind 3 4 13); [lia|by apply in_order_silent|]. intros _.
    apply (in_order_bind 4 9 13); [lia|apply in_order_buildPages|].
    intros [|]; simpl; [|by apply in_order_silent].
    apply (in_order_bind 9 9 13); [lia|by apply in_order_silent|]. intros s3.
    apply (in_order_bind 9 10 13); [lia| |].
    { apply (in_order_one 9 10 _ (ASavePages (pages s3))); [simpl; lia|]. intros s. by left. }
    intros saved. apply (in_order_bind 10 11 13); [lia| |].
    { apply (in_order_one 10 11 _ (ACopyFiles (files s3))); [simpl; lia|]. intros s. by left. }
    intros copied. apply (in_order_bind 11 12 13); [lia| |].
    { apply (in_order_one 11 12 _ ALoggerLog); [simpl; lia|]. intros s. by left. }
    intros _. apply (in_order_bind 12 13 13); [lia|apply in_order_dispatch; intros ?; simpl; lia|].
    intros _. by apply in_order_silent.
  - revert s. assert (in_order 0 13 (update changed)) as H; [|intros s; apply H].
    rewrite update_unfold.
    apply (in_order_bind 0 0 13); [lia|apply in_order_dispatch; intros ?; simpl; lia|].
    intros [|]; simpl; [|by apply in_order_silent]. unfold update_rest.
    apply (in_order_bind 0 1 13); [lia| |].
    { apply (in_order_one 0 1 _ ASearcherDeleteCache); [simpl; lia|]. intros s. by left. }
    intros _. apply (in_order_bind 1 2 13); [lia| |].
    { intros s. destruct (in_order_same 2 (update_files changed)) with (s := s) as [Hs Hb].
      - apply emits_update_files. by intros [[] ?| | | | | | | | | | | | |].
      - split; [done|]. intros a Ha. specialize (Hb _ Ha). lia. }
    intros _. apply (in_order_bind 2 2 13); [lia|by apply in_order_silent|]. intros s2.
    apply (in_order_bind 2 3 13); [lia| |].
    { apply (in_order_one 2 3 _ (ASourceBuild [FilterDraft isDev; FilterScope changed]));
        [simpl; lia|]. intros s. by left. }
    intros content.
    apply (in_order_bind 3 4 13); [lia|by apply in_order_silent|]. intros _.
    apply (in_order_bind 4 9 13); [lia|apply in_order_buildPages|].
    intros [|]; simpl; [|by apply in_order_silent].
    apply (in_order_bind 9 9 13); [lia|by apply in_order_silent|]. intros s3.
    apply (in_order_bind 9 10 13); [lia| |].
    { apply (in_order_one 9 10 _ (ASavePages (pages s3))); [simpl; lia|]. intros s. by left. }
    intros saved. apply (in_order_bind 10 11 13); [lia| |].
    { apply (in_order_one 10 11 _ (ACopyFiles (files s3))); [simpl; lia|]. intros s. by left. }
    intros copied. apply (in_order_bind 11 12 13); [lia| |].
    { destruct (bool_decide _); [by apply in_order_silent|].
      apply (in_order_one 11 12 _ ALoggerLog); [simpl; lia|]. intros s. by left. }
    intros _. apply (in_order_bind 12 13 13); [lia|apply in_order_dispatch; intros ?; simpl; lia|].
    intros _. by apply in_order_silent.
Qed.

End Cycle.

(** *** The filter and the components' extra code *)

(** X20: the filter of [#buildPages] accounts for every page once: a page
    is kept, or skipped with one warning, or hidden ([url: false]) without
    one; and filtering the pages that were kept keeps them all and logs
    nothing. *)
Theorem filterPages_partition (ps : list Page) :
  length ps =
    length (filterPages ps).2 + length (filterPages ps).1 +
    length (filter (fun p => data_url p = UrlFalse) ps) /\
  filterPages (filterPages ps).2 = ([], (filterPages ps).2).
Proof.
  induction ps as [|p ps [IHlen IHidem]]; simpl; [done|].
  unfold filterPage. destruct (filterPages ps) as [ws kept] eqn:Hf; simpl in *.
  destruct (decide (data_url p = UrlFalse)) as [Hu|Hu] eqn:Hdec; simpl.
  - rewrite filter_cons_True by done. simpl. split; [lia|done].
  - rewrite filter_cons_False by done.
    destruct (shouldSkip p) eqn:Hskip; simpl; [split; [lia|done]|].
    split; [lia|]. unfold filterPage. rewrite Hdec, Hskip, IHidem. reflexivity.
Qed.

Lemma addExtraCode_urls (extra : Page) (ps : list Page) :
  data_url <$> addExtraCode extra ps =
  if decide (data_url extra ∈ data_url <$> ps) then data_url <$> ps
  else (data_url <$> ps) ++ [data_url extra].
Proof.
  induction ps as [|p ps IH]; cbn [addExtraCode].
  - rewrite fmap_nil. destruct (decide _) as [H|H]; [by apply elem_of_nil in H|done].
  - destruct (decide (data_url p = data_url extra)) as [Hp|Hp]; rewrite !fmap_cons.
    + clear IH. cbn [set_content data_url].
      destruct (decide (_ ∈ _ :: _)) as [H|H]; [done|].
      destruct H. rewrite Hp. apply list_elem_of_here.
    + rewrite IH. clear IH.
      destruct (decide (data_url extra ∈ data_url <$> ps)) as [H|H].
      * destruct (decide (_ ∈ _ :: _)) as [H'|H']; [done|].
        destruct H'. by apply list_elem_of_further.
      * destruct (decide (_ ∈ _ :: _)) as [H'|H']; [|done].
        apply elem_of_cons in H' as [H'|H']; [by destruct Hp|by destruct H].
Qed.

(** X21: the loop over the components' extra code never makes two pages
    share a url: when the rendered pages have distinct urls, so have the
    pages after the loop; their urls are those of the rendered pages, in
    the same order, followed by the new urls of the extra code. *)
Theorem extra_code_keeps_urls_distinct (ps extras : list Page) :
  NoDup (data_url <$> ps) ->
  NoDup (data_url <$> foldl (fun acc extra => addExtraCode extra acc) ps extras) /\
  (data_url <$> ps) `prefix_of`
    (data_url <$> foldl (fun acc extra => addExtraCode extra acc) ps extras) /\
  (forall u, u ∈ data_url <$> foldl (fun acc extra => addExtraCode extra acc) ps extras <->
             u ∈ data_url <$> ps \/ u ∈ data_url <$> extras).
Proof.
  revert ps. induction extras as [|extra extras IH]; intros ps Hnd; simpl.
  - split; [done|]. split; [done|]. intros u. split; [by left|].
    intros [H|H]; [done|by apply elem_of_nil in H].
  - assert (NoDup (data_url <$> addExtraCode extra ps)) as Hnd'.
    { rewrite addExtraCode_urls. destruct (decide _) as [H|H]; [done|].
      apply NoDup_app. split; [done|]. split; [|apply NoDup_singleton].
      intros u Hu Hu'. apply list_elem_of_singleton in Hu'. by subst. }
    destruct (IH _ Hnd') as (Hres & Hpre & Hmem). split; [done|]. split.
    + etrans; [|exact Hpre]. rewrite addExtraCode_urls.
      destruct (decide _); [done|]. by apply prefix_app_r.
    + intros u. rewrite Hmem, addExtraCode_urls.
      destruct (decide (data_url extra ∈ data_url <$> ps)) as [H|H].
      * rewrite elem_of_cons. split; [intros [?|?]; [by left|by right; right]|].
        intros [?|[->|?]]; [by left|by left|by right].
      * rewrite elem_of_app, list_elem_of_singleton, elem_of_cons. tauto.
Qed.

(** X22: one round of that loop, without recursion: the extra page is
    appended when no page has its url; otherwise the first page with that
    url, and no other, gets the extra content after its own and a line
    feed, as text, whatever its content was before. *)
Theorem addExtraCode_merges_first (extra : Page) (ps : list Page) :
  ((data_url extra ∉ (data_url <$> ps)) /\ addExtraCode extra ps = ps ++ [extra]) \/
  (exists before p after,
     ps = before ++ p :: after /\
     data_url p = data_url extra /\
     (data_url extra ∉ (data_url <$> before)) /\
     addExtraCode extra ps =
       before ++
       set_content (Some (Text (content_string (content p) +:+ String "010" EmptyString +:+
                                content_string (content extra)))) p :: after).
Proof.
  induction ps as [|p ps IH]; simpl.
  - left. split; [apply not_elem_of_nil|done].
  - destruct (decide (data_url p = data_url extra)) as [Hp|Hp].
    + right. exists [], p, ps. split; [done|]. split; [done|].
      split; [apply not_elem_of_nil|done].
    + destruct IH as [[Hno ->]|(before & q & after & -> & Hq & Hno & ->)].
      * left. split; [|done]. intros H. apply elem_of_cons in H as [H|H]; [by destruct Hp|done].
      * right. exists (p :: before), q, after. split; [done|]. split; [done|].
        split; [|done]. simpl. intros H.
        apply elem_of_cons in H as [H|H]; [by destruct Hp|done].
Qed.

(** *** Examples *)

Definition page_index : Page :=
  {| src_entry := 1; outputPath := "/index.html"; data_url := UrlString "/";
     data_ondemand := false; content := Some (Text "hello") |}.

(** [url: false] and no text *)
Definition page_hidden : Page :=
  {| src_entry := 2; outputPath := "/hidden.html"; data_url := UrlFalse;
     data_ondemand := false; content := Some (Text "") |}.

Definition page_empty : Page :=
  {| src_entry := 3; outputPath := "/empty/index.html"; data_url := UrlString "/empty/";
     data_ondemand := false; content := Some (Text "") |}.

Definition page_lazy : Page :=
  {| src_entry := 4; outputPath := "/lazy/index.html"; data_url := UrlString "/lazy/";
     data_ondemand := true; content := Some (Text "later") |}.

(** An asset of zero bytes *)
Definition page_blank : Page :=
  {| src_entry := 5; outputPath := "/blank.png"; data_url := UrlString "/blank.png";
     data_ondemand := false; content := Some (Binary []) |}.

Definition site0 : Site :=
  {| emptyDest := true; pages := []; onDemandPages := []; files := [] |}.

(** One listener, on [beforeRender], that cancels or not. *)
Definition listeners_ex (cancel : bool) (type : EventType)
  : list (Event -> Site -> string + (bool * Site)) :=
  match type with
  | beforeRender => [fun _ s => inr (negb cancel, s)]
  | _ => []
  end.

Definition scanned : list Page := [page_index; page_hidden; page_empty; page_lazy].

Definition build_ex (cancel : bool) : Site -> list Action * Site * (string + unit) :=
  build (listeners_ex cancel) false (inr tt) (inr tt)
    (fun _ _ => inr (scanned, [])) (fun ps => inr (ps, [])) (fun _ => [])
    (fun ps => inr ps) (fun ps => inr ps) (fun fs => inr fs).

Example filterPages_scanned :
  filterPages scanned =
  ([ALoggerWarn "Skipped page /empty/ (file content is empty)";
    ALoggerWarn "Skipped page /lazy/ (page is build only on demand)"],
   [page_index]).
Proof. reflexivity. Qed.

(** A [Uint8Array] is truthy even when it has no bytes: the page is kept. *)
Example filterPages_blank : filterPages [page_blank] = ([], [page_blank]).
Proof. reflexivity. Qed.

Example build_ex_cancelled :
  trace (build_ex true site0) =
  [ADispatch beforeBuild true; AWriterClear; AFsInit; ASourceBuild [FilterDraft false];
   ADispatch beforeRender false].
Proof. reflexivity. Qed.

Example build_ex_complete :
  trace (build_ex false site0) =
  [ADispatch beforeBuild true; AWriterClear; AFsInit; ASourceBuild [FilterDraft false];
   ADispatch beforeRender true; ARenderPages scanned;
   ALoggerWarn "Skipped page /empty/ (file content is empty)";
   ALoggerWarn "Skipped page /lazy/ (page is build only on demand)";
   ADispatch afterRender true; AProcessorsRun [page_index]; ADispatch beforeSave true;
   ASavePages [page_index]; ACopyFiles []; ALoggerLog; ADispatch afterBuild true].
Proof. reflexivity. Qed.

Lemma beforeRender_cancels_cycle_witness :
  ADispatch beforeRender false ∈ trace (build_ex true site0) /\
  result (build_ex true site0) = inr tt /\
  forall a, a ∈ trace (build_ex true site0) -> writes_or_after a = false.
Proof.
  assert (ADispatch beforeRender false ∈ trace (build_ex true site0)) as Hin.
  { rewrite build_ex_cancelled. do 4 apply list_elem_of_further. apply list_elem_of_here. }
  split; [exact Hin|].
  exact (proj1 (beforeRender_cancels_cycle (listeners_ex true) false (inr tt) (inr tt)
                  (fun _ _ => inr (scanned, [])) (fun ps => inr (ps, [])) (fun _ => [])
                  (fun ps => inr ps) (fun ps => inr ps) (fun fs => inr fs)
                  (fun _ => None) site0 []) Hin).
Defined.

(** The second clause of C6 as the specification words it: a page with
    empty content or flagged ondemand is removed and a warning is logged
    for it. *)
Definition skipped_pages_are_warned (ps : list Page) : Prop :=
  forall p, p ∈ ps ->
    content_falsy (content p) = true \/ data_ondemand p = true ->
    (p ∉ (filterPages ps).2) /\ (ALoggerWarn (skip_message p) ∈ (filterPages ps).1).

(** C6, as stated, fails: a page with [url: false] and empty content is
    removed by the first test of the filter, before anything is logged. *)
Lemma hidden_page_dropped_silently :
  content_falsy (content page_hidden) = true /\
  filterPages [page_hidden] = ([], []) /\
  ~ skipped_pages_are_warned [page_hidden].
Proof.
  split; [reflexivity|]. split; [reflexivity|].
  intros H. destruct (H page_hidden (list_elem_of_here _ _) (or_introl eq_refl)) as [_ Hw].
  simpl in Hw. by apply elem_of_nil in Hw.
Qed.

Lemma drop_policy_witness :
  ASavePages [page_index] ∈ trace (build_ex false site0) /\
  (forall p, p ∈ [page_index] ->
     data_url p <> UrlFalse /\ content_falsy (content p) = false /\
     data_ondemand p = false) /\
  (forall p, p ∈ (filterPages scanned).2 <->
     p ∈ scanned /\ data_url p <> UrlFalse /\
     content_falsy (content p) = false /\ data_ondemand p = false).
Proof.
  assert (ASavePages [page_index] ∈ trace (build_ex false site0)) as Hin.
  { rewrite build_ex_complete. do 11 apply list_elem_of_further. apply list_elem_of_here. }
  split; [exact Hin|].
  assert (forall type (listener : Event -> Site -> string + (bool * Site)) ev s b s',
            type = afterRender \/ type = beforeSave ->
            listener ∈ listeners_ex false type -> listener ev s = inr (b, s') ->
            Forall (fun p => presentable p = true) (pages s) ->
            Forall (fun p => presentable p = true) (pages s')) as Hlisteners.
  { intros type listener ev s b s' [-> | ->] H; simpl in H; by apply elem_of_nil in H. }
  assert (forall ps ps' : list Page,
            (inr ps : string + list Page) = inr ps' ->
            Forall (fun p => presentable p = true) ps ->
            Forall (fun p => presentable p = true) ps') as Hprocessors.
  { intros ps ps' [= ->]. done. }
  destruct (drop_policy (listeners_ex false) false (inr tt) (inr tt)
              (fun _ _ => inr (scanned, [])) (fun ps => inr (ps, [])) (fun _ => [])
              (fun ps => inr ps) (fun ps => inr ps) (fun fs => inr fs) (fun _ => None)
              Hlisteners Hprocessors scanned site0 []) as (Hkept & _ & _ & Hsaved).
  split; [|exact Hkept].
  exact (Hsaved [page_index] (or_introl Hin)).
Defined.

(** A listener on the first event of a cycle that cancels it. *)
Definition listeners_first (type : EventType)
  : list (Event -> Site -> string + (bool * Site)) :=
  match type with
  | beforeBuild | beforeUpdate => [fun _ s => inr (false, s)]
  | _ => []
  end.

Definition build_first : Site -> list Action * Site * (string + unit) :=
  build listeners_first false (inr tt) (inr tt)
    (fun _ _ => inr (scanned, [])) (fun ps => inr (ps, [])) (fun _ => [])
    (fun ps => inr ps) (fun ps => inr ps) (fun fs => inr fs).

Definition update_ex (cancel : bool) (changed : list string)
  : Site -> list Action * Site * (string + unit) :=
  update (listeners_ex cancel) false
    (fun _ _ => inr (scanned, [])) (fun ps => inr (ps, [])) (fun _ => [])
    (fun ps => inr ps) (fun ps => inr ps) (fun fs => inr fs) (fun _ => None) changed.

Example update_ex_cancelled :
  trace (update_ex true ["/a.md"] site0) =
  [ADispatch beforeUpdate true; ASearcherDeleteCache;
   AFormatsDeleteCache "/a.md"; AFsUpdate "/a.md";
   ASourceBuild [FilterDraft false; FilterScope ["/a.md"]];
   ADispatch beforeRender false].
Proof. reflexivity. Qed.

Lemma first_event_cancels_everything_witness :
  ADispatch beforeBuild false ∈ trace (build_first site0) /\
  trace (build_first site0) = [ADispatch beforeBuild false] /\
  result (build_first site0) = inr tt.
Proof.
  assert (ADispatch beforeBuild false ∈ trace (build_first site0)) as Hin.
  { apply list_elem_of_here. }
  split; [exact Hin|].
  exact (proj1 (first_event_cancels_everything listeners_first false (inr tt) (inr tt)
                  (fun _ _ => inr (scanned, [])) (fun ps => inr (ps, [])) (fun _ => [])
                  (fun ps => inr ps) (fun ps => inr ps) (fun fs => inr fs)
                  (fun _ => None) site0 []) Hin).
Defined.

Lemma update_keeps_destination_witness :
  ASearcherDeleteCache ∈ trace (update_ex true ["/a.md"] site0) /\
  ASearcherDeleteCache <> AWriterClear /\ ASearcherDeleteCache <> AFsInit.
Proof.
  assert (ASearcherDeleteCache ∈ trace (update_ex true ["/a.md"] site0)) as Hin.
  { rewrite update_ex_cancelled. apply list_elem_of_further, list_elem_of_here. }
  split; [exact Hin|].
  exact (update_keeps_destination (listeners_ex true) false (inr tt) (inr tt)
           (fun _ _ => inr (scanned, [])) (fun ps => inr (ps, [])) (fun _ => [])
           (fun ps => inr ps) (fun ps => inr ps) (fun fs => inr fs)
           (fun _ => None) site0 ["/a.md"] ASearcherDeleteCache Hin).
Defined.

Lemma any_cancel_stops_cycle_witness :
  cancel_signal (ADispatch beforeRender false) /\
  ADispatch beforeRender false ∈ trace (update_ex true ["/a.md"] site0) /\
  result (update_ex true ["/a.md"] site0) = inr tt /\
  forall a, a ∈ trace (update_ex true ["/a.md"] site0) -> writes_or_done a = false.
Proof.
  assert (ADispatch beforeRender false ∈ trace (update_ex true ["/a.md"] site0)) as Hin.
  { rewrite update_ex_cancelled. do 5 apply list_elem_of_further. apply list_elem_of_here. }
  split; [exact I|]. split; [exact Hin|].
  exact (proj2 (any_cancel_stops_cycle (listeners_ex true) false (inr tt) (inr tt)
                  (fun _ _ => inr (scanned, [])) (fun ps => inr (ps, [])) (fun _ => [])
                  (fun ps => inr ps) (fun ps => inr ps) (fun fs => inr fs)
                  (fun _ => None) site0 ["/a.md"] (ADispatch beforeRender false) I) Hin).
Defined.


(** Extra code of a component for the url of [page_index], and a style
    sheet of its own. *)
Definition extra_index : Page :=
  {| src_entry := 6; outputPath := "/index.html"; data_url := UrlString "/";
     data_ondemand := false; content := Some (Text "<style></style>") |}.

Definition extra_css : Page :=
  {| src_entry := 7; outputPath := "/components.css"; data_url := UrlString "/components.css";
     data_ondemand := false; content := Some (Text "a{}") |}.

Example addExtraCode_two :
  foldl (fun acc extra => addExtraCode extra acc) [page_index; page_empty]
    [extra_css; extra_index] =
  [set_content (Some (Text ("hello" +:+ String "010" EmptyString +:+ "<style></style>")))
     page_index;
   page_empty; extra_css].
Proof. reflexivity. Qed.

Lemma extra_code_keeps_urls_distinct_witness :
  NoDup (data_url <$> [page_index; page_empty]) /\
  NoDup (data_url <$> foldl (fun acc extra => addExtraCode extra acc)
                        [page_index; page_empty] [extra_css; extra_index]).
Proof.
  assert (NoDup (data_url <$> [page_index; page_empty])) as Hnd.
  { apply (bool_decide_unpack _). reflexivity. }
  split; [exact Hnd|].
  exact (proj1 (extra_code_keeps_urls_distinct [page_index; page_empty]
                  [extra_css; extra_index] Hnd)).
Defined.

End Site.
